(** * Web-Socket chat server: rooms, presence, routing, rate limit, relay

    A shallow embedding of the message-routing core of the repository:

    - [Security]  : the validators of [websocket-demo/security.ts];
    - [RateLimit] : the [RateLimiter] class of [rate-limit.ts];
    - [Server]    : the room registry, the presence maps, the [message] and
                    [close] handlers (every branch of the router) and the
                    relay listener of the main [server.ts], with the relay
                    module [redis.ts];
    - [Demo]      : the [dm] and [group_message] branches of
                    [websocket-demo/server.ts];
    - [Auth]      : the reading of the authorization header in [auth.ts];
    - [Observe]   : predicates on the effects of a run.

    Conventions of the embedding.

    - A JavaScript string is a [string]; a socket handle is a [nat]
      compared by equality (the source compares handles by reference).
    - A [Set] is a duplicate-free list in insertion order ([JsSet]); a [Map]
      or [WeakMap] that is only looked up by key is a [gmap].
    - Numbers are integers ([Z]): counters, cap, and times in milliseconds.
    - A handler runs to completion; every [await] on a collaborator (store,
      queue, block list) is a call to an oracle of the environment [Env].
    - [console.log] calls and the [timestamp] field of notifications are
      left out. *)

From stdpp Require Import base strings gmap list pretty.
From Stdlib Require Import ZArith Ascii String Lia.

Open Scope string_scope.
Open Scope list_scope.
Open Scope Z_scope.

(** ** JavaScript [Set] in insertion order *)

Module JsSet.
Section JsSet.
Context {A : Type} `{EqDecision A}.

Definition has (x : A) (s : list A) : bool := bool_decide (x ∈ s).

(** [s.add(x)]: appended at the end unless already present. *)
Definition add (x : A) (s : list A) : list A :=
  if has x s then s else s ++ [x].

(** [s.delete(x)] *)
Definition delete (x : A) (s : list A) : list A :=
  filter (λ y, y ≠ x) s.

(** [s.size] *)
Definition size (s : list A) : nat := List.length s.
End JsSet.
End JsSet.

(** ** [security.ts] *)

Module Security.

Definition code (c : ascii) : N := N_of_ascii c.

Definition between (lo hi : N) (c : ascii) : bool :=
  ((lo <=? code c) && (code c <=? hi))%N.

(** [[a-zA-Z0-9_-]] *)
Definition isWordOrDash (c : ascii) : bool :=
  between 97 122 c || between 65 90 c || between 48 57 c
  || (code c =? 95)%N || (code c =? 45)%N.

(** White space of [String.prototype.trim] and of the regular expression
    class [\s], among the code units below 256: TAB, LF, VT, FF, CR,
    SPACE and NBSP. *)
Definition isSpace (c : ascii) : bool :=
  between 9 13 c || (code c =? 32)%N || (code c =? 160)%N.

(** [[\x00-\x08\x0B-\x0C\x0E-\x1F\x7F]] (which includes [\0]) *)
Definition isControl (c : ascii) : bool :=
  between 0 8 c || between 11 12 c || between 14 31 c || (code c =? 127)%N.

Fixpoint dropSpaces (l : list ascii) : list ascii :=
  match l with
  | c :: l' => if isSpace c then dropSpaces l' else l
  | [] => []
  end.

(** [s.trim()] of JavaScript *)
Definition trim (s : string) : string :=
  string_of_list_ascii
    (rev (dropSpaces (rev (dropSpaces (list_ascii_of_string s))))).

(** [sanitizeInput(input, maxLength)]; the default [maxLength] is 1000. *)
Definition sanitizeInput (input : string) (maxLength : nat) : string :=
  if bool_decide (input = "") then ""
  else
    let sanitized := take maxLength (list_ascii_of_string (trim input)) in
    string_of_list_ascii (filter (λ c, isControl c = false) sanitized).

Definition matches (cls : ascii → bool) (lo hi : nat) (s : string) : bool :=
  let l := list_ascii_of_string s in
  forallb cls l && bool_decide (lo ≤ List.length l ≤ hi)%nat.

(** [/^[a-zA-Z0-9_-]{1,255}$/.test(userId)] *)
Definition isValidUserId (userId : string) : bool :=
  if bool_decide (userId = "") then false
  else matches isWordOrDash 1 255 userId.

(** [/^[a-zA-Z0-9_\s-]{1,100}$/.test(roomName)] *)
Definition isValidRoomName (roomName : string) : bool :=
  if bool_decide (roomName = "") then false
  else matches (λ c, isWordOrDash c || isSpace c) 1 100 roomName.

(** [/^[a-zA-Z0-9_-]{1,50}$/.test(username)] *)
Definition isValidUsername (username : string) : bool :=
  if bool_decide (username = "") then false
  else matches isWordOrDash 1 50 username.

End Security.

(** ** [rate-limit.ts] *)

Module RateLimit.

Record RateLimitStore := { count : Z; resetTime : Z }.

Record RateLimiter := {
  store : gmap string RateLimitStore;
  windowMs : Z;
  maxRequests : Z;
  maxWsMessages : Z;
}.

Record Verdict := { allowed : bool; remaining : Z; resetAt : Z }.

Definition set_store (rl : RateLimiter) (st : gmap string RateLimitStore)
  : RateLimiter :=
  {| store := st; windowMs := windowMs rl;
     maxRequests := maxRequests rl; maxWsMessages := maxWsMessages rl |}.

(** The entry the call works on: the stored one, or a new window when
    there is none or [now > entry.resetTime]. *)
Definition currentEntry (rl : RateLimiter) (now : Z) (key : string)
  : RateLimitStore :=
  let fresh := {| count := 0; resetTime := now + windowMs rl |} in
  match store rl !! key with
  | Some entry => if now >? resetTime entry then fresh else entry
  | None => fresh
  end.

(** [checkLimit(identifier, isWebSocket)] at time [now = Date.now()]. *)
Definition checkLimit (rl : RateLimiter) (now : Z) (identifier : string)
    (isWebSocket : bool) : Verdict * RateLimiter :=
  let key := identifier in
  let max := if isWebSocket then maxWsMessages rl else maxRequests rl in
  let entry := currentEntry rl now key in
  let entry := {| count := count entry + 1; resetTime := resetTime entry |} in
  let rl' := set_store rl (<[key := entry]> (store rl)) in
  ({| allowed := count entry <=? max;
      remaining := Z.max 0 (max - count entry);
      resetAt := resetTime entry |}, rl').

(** [rateLimitWebSocket(identifier)] *)
Definition rateLimitWebSocket (rl : RateLimiter) (now : Z)
    (identifier : string) : Verdict * RateLimiter :=
  checkLimit rl now identifier true.

(** [cleanup()] at time [now] *)
Definition cleanup (rl : RateLimiter) (now : Z) : RateLimiter :=
  set_store rl (filter (λ kv, ¬ (now > resetTime kv.2)) (store rl)).

(** [reset(identifier)] *)
Definition reset (rl : RateLimiter) (identifier : string) : RateLimiter :=
  set_store rl (delete identifier (store rl)).

(** [rateLimitMiddleware(req)], for a request whose identifier is
    [identifier]. *)
Definition rateLimitMiddleware (rl : RateLimiter) (now : Z)
    (identifier : string) : Verdict * RateLimiter :=
  checkLimit rl now identifier false.

(** The cap a check is held to. *)
Definition cap (rl : RateLimiter) (isWebSocket : bool) : Z :=
  if isWebSocket then maxWsMessages rl else maxRequests rl.

(** One check: who asks, when, and on which path. *)
Record Call := { who : string; time : Z; viaWebSocket : bool }.

(** A trace of checks run in order; the result lists who got which verdict,
    in the same order. *)
Fixpoint run (rl : RateLimiter) (calls : list Call)
  : list (string * Verdict) * RateLimiter :=
  match calls with
  | [] => ([], rl)
  | call :: calls' =>
      let '(v, rl1) := checkLimit rl (time call) (who call) (viaWebSocket call) in
      let '(vs, rl2) := run rl1 calls' in
      ((who call, v) :: vs, rl2)
  end.

(** The verdicts a trace gave to one identifier. *)
Definition verdictsOf (id : string) (vs : list (string * Verdict))
  : list Verdict :=
  (filter (λ p, p.1 = id) vs).*2.

(** The checks of one identifier in a trace, and their times. *)
Definition callsOf (id : string) (calls : list Call) : list Call :=
  filter (λ call, who call = id) calls.

Definition timesOf (id : string) (calls : list Call) : list Z :=
  time <$> callsOf id calls.

(** A check at [now] starts a new window for [id]: no entry, or
    [now > entry.resetTime]. *)
Definition opensWindow (rl : RateLimiter) (id : string) (now : Z) : Prop :=
  match store rl !! id with
  | Some entry => now > resetTime entry
  | None => True
  end.

(** The verdict computed from the incremented count of an entry. *)
Definition verdictAt (max count resetTime : Z) : Verdict :=
  {| allowed := count <=? max;
     remaining := Z.max 0 (max - count);
     resetAt := resetTime |}.

End RateLimit.

(** ** [server.ts] and [redis.ts] *)

Module Server.

(** A [ServerWebSocket] handle. *)
Definition conn := nat.

(** The value type of [clientData]. *)
Record UserData := { username : string; userId : string }.

(** [type Room = { name: string; clients: Set<ServerWebSocket> }] *)
Record Room := { name : string; clients : list conn }.

(** The fields of a [Message] of [messages.ts] that the handlers build or
    read. *)
Module Message.
Record t := {
  id : Z;
  senderId : string;
  username : string;
  content : string;
  roomName : option string;
  messageType : string;
  recipientId : option string;
  delivered : bool;
}.
End Message.

(** The argument of [messageManager.saveMessage]. Its field
    [encryptionMetadata] is [{ encryptedContent }] in the [dm] branch, which
    is the field [encryptedContent] here, and the ciphertext in the
    [encrypted_dm] branch, which is the field [encryptionMetadata] here. *)
Module Draft.
Record t := {
  senderId : string;
  username : string;
  content : string;
  roomName : option string;
  messageType : string;
  recipientId : option string;
  mediaUrl : option string;
  mediaType : option string;
  encrypted : bool;
  encryptedContent : option string;
  encryptionMetadata : option string;
}.
End Draft.

(** The argument of [messageManager.getMessages] as the handlers call it. *)
Inductive Filter :=
| byRoom (roomName : string) (limit : nat)
| byRecipient (recipientId : string) (limit : nat).

(** The state the module keeps in its top-level maps. *)
Record State := {
  rooms : gmap string Room;
  clientRooms : gmap conn (list string);
  clientData : gmap conn UserData;
  userIdToSocket : gmap string conn;
  typingUsers : gmap string (list string);
}.

Definition initial : State :=
  {| rooms := ∅; clientRooms := ∅; clientData := ∅;
     userIdToSocket := ∅; typingUsers := ∅ |}.

(** Outbound wire messages, by their [type] field. *)
Module Out.
Inductive t :=
| error (message : string)
| rate_limited (remaining resetAt : Z)
| joined (room : string) (history : list Message.t) (users : list string)
    (userId : string) (pendingDMs : nat)
| pending (type : string) (msg : Message.t)
| left (room : string)
| user_joined (username roomName : string) (userCount : nat)
| user_left (username roomName : string) (userCount : nat)
| message (saved : Message.t)
| dm (from fromUsername : string) (saved : Message.t)
| dm_sent (to status : string) (saved : Message.t)
| signal (from payload : string)
| signal_sent (to : string) (via : option string)
| message_starred (messageId : option Z)
| message_pinned (messageId : option Z) (pinnedBy : string)
| typing (roomName : string) (users : list string)
| room_list (rooms : list (string * nat))
| user_list (room : string) (users : list string)
| group_message (from fromUsername groupName : string)
    (recipientIds : list string) (saved : Message.t)
| group_message_sent (groupName : string) (recipientIds : list string)
    (sentCount offlineCount : nat)
    (offlineRecipients failedRecipients : list string)
    (queueMethod : string) (saved : Message.t)
| keys_initialized (keys : string)
| bundle_received (recipientId : option string) (bundle : string)
| encrypted_dm (from fromUsername : string) (saved : Message.t)
    (encrypted : string)
| encrypted_dm_sent (to status : string) (messageId : Z)
| message_decrypted (messageId : option Z) (decrypted : string).

Definition is_error (m : t) : bool :=
  match m with error _ | rate_limited _ _ => true | _ => false end.
End Out.

(** [type RedisPayload = BroadcastMessage | SignalMessage] *)
Inductive RedisPayload :=
| Broadcast (from room : string) (data : Out.t)
| Signal (from to payload : string).

Definition origin (p : RedisPayload) : string :=
  match p with Broadcast from _ _ | Signal from _ _ => from end.

(** The argument of [messageQueue.queueOfflineMessage]. *)
Record Offline := {
  q_recipientId : string;
  q_from : string;
  q_fromUsername : string;
  q_content : string;
  q_messageType : string;
  q_messageId : Z;
}.

(** What a handler does to the outside, in order. *)
Inductive Effect :=
| Sent (ws : conn) (m : Out.t)
| Published (p : RedisPayload)
| Queued (m : Offline)
| Saved (d : Draft.t) (m : Message.t)
| MarkedDelivered (messageId : Z)
| MarkedSeen (messageId : Z) (userId : string)
| ToggledStar (messageId : option Z) (userId : string)
| ToggledPin (messageId : option Z) (roomName : option string).

(** What one run of a handler reads from the outside: the clock, the
    module flags set at start-up, the sockets whose [send] throws, and the
    answers of the collaborators. A collaborator that throws when it fails
    answers [None] then: [saveMessage], and [initializeUser],
    [encryptMessage] and [decryptMessage] of [signalManager], whose keys,
    ciphertexts and plaintexts are strings here. [getUserPreKeyBundle]
    catches its own errors and answers [null], which is [None]. *)
Record Env := {
  now : Z;
  redisEnabled : bool;
  useRabbitMQ : bool;
  instanceId : string;
  sendThrows : conn → bool;
  identifier : conn → string;
  isBlocked : string → string → bool;
  saveMessage : Draft.t → option Message.t;
  getMessages : Filter → list Message.t;
  queueThrows : bool;
  initializeUser : string → option string;
  getUserPreKeyBundle : option string → option string;
  encryptMessage : string → string → string → option string;
  decryptMessage : string → option string → option string → option string;
}.

Record World := {
  state : State;
  limiter : RateLimit.RateLimiter;
  trace : list Effect;
}.

(** *** The monad of handlers: state, effects and exceptions *)

Inductive Outcome (A : Type) :=
| Returned (a : A)
| Thrown.
Arguments Returned {A} a.
Arguments Thrown {A}.

Definition M (A : Type) : Type := World → Outcome A * World.

Definition ret {A} (a : A) : M A := λ w, (Returned a, w).

Definition bind {A B} (m : M A) (k : A → M B) : M B :=
  λ w, match m w with
       | (Returned a, w') => k a w'
       | (Thrown, w') => (Thrown, w')
       end.

Definition throw {A} : M A := λ w, (Thrown, w).

(** [try { body } catch { handler }] *)
Definition try_catch (body handler : M unit) : M unit :=
  λ w, match body w with
       | (Returned a, w') => (Returned a, w')
       | (Thrown, w') => handler w'
       end.

Notation "'let!' x ':=' m 'in' k" := (bind m (λ x, k))
  (at level 10, x name, m at level 100, k at level 200).
Notation "m '>>' k" := (bind m (λ _, k))
  (at level 100, k at level 200, right associativity).

Definition get : M State := λ w, (Returned (state w), w).

Definition modify (f : State → State) : M unit :=
  λ w, (Returned tt,
        {| state := f (state w); limiter := limiter w; trace := trace w |}).

Definition emit (e : Effect) : M unit :=
  λ w, (Returned tt,
        {| state := state w; limiter := limiter w;
           trace := trace w ++ [e] |}).

(** [for (const x of l) body(x)] *)
Fixpoint forEach {A} (l : list A) (body : A → M unit) : M unit :=
  match l with
  | [] => ret tt
  | x :: l' => body x >> forEach l' body
  end.

(** [ws.send(JSON.stringify(m))] *)
Definition send (env : Env) (ws : conn) (m : Out.t) : M unit :=
  if sendThrows env ws then throw else emit (Sent ws m).

(** The world a handler ends in. *)
Definition exec {A} (m : M A) (w : World) : World := (m w).2.

(** The effects a handler added to the trace. *)
Definition effects {A} (m : M A) (w : World) : list Effect :=
  drop (List.length (trace w)) (trace (exec m w)).

(** The messages a trace delivered to one socket. *)
Definition received (ws : conn) (es : list Effect) : list Out.t :=
  omap (λ e, match e with
             | Sent ws' m => if decide (ws' = ws) then Some m else None
             | _ => None
             end) es.

Definition published (es : list Effect) : list RedisPayload :=
  omap (λ e, match e with Published p => Some p | _ => None end) es.

(** The world after more effects, and the world with other maps. *)
Definition record (es : list Effect) (w : World) : World :=
  {| state := state w; limiter := limiter w; trace := trace w ++ es |}.

Definition with_state (s : State) (w : World) : World :=
  {| state := s; limiter := limiter w; trace := trace w |}.

(** *** State updates *)

Definition set_rooms (f : gmap string Room → gmap string Room) (s : State)
  : State :=
  {| rooms := f (rooms s); clientRooms := clientRooms s;
     clientData := clientData s; userIdToSocket := userIdToSocket s;
     typingUsers := typingUsers s |}.

Definition set_clientRooms
    (f : gmap conn (list string) → gmap conn (list string)) (s : State)
  : State :=
  {| rooms := rooms s; clientRooms := f (clientRooms s);
     clientData := clientData s; userIdToSocket := userIdToSocket s;
     typingUsers := typingUsers s |}.

Definition set_clientData
    (f : gmap conn UserData → gmap conn UserData) (s : State) : State :=
  {| rooms := rooms s; clientRooms := clientRooms s;
     clientData := f (clientData s); userIdToSocket := userIdToSocket s;
     typingUsers := typingUsers s |}.

Definition set_userIdToSocket
    (f : gmap string conn → gmap string conn) (s : State) : State :=
  {| rooms := rooms s; clientRooms := clientRooms s;
     clientData := clientData s; userIdToSocket := f (userIdToSocket s);
     typingUsers := typingUsers s |}.

Definition set_typingUsers
    (f : gmap string (list string) → gmap string (list string)) (s : State)
  : State :=
  {| rooms := rooms s; clientRooms := clientRooms s;
     clientData := clientData s; userIdToSocket := userIdToSocket s;
     typingUsers := f (typingUsers s) |}.

(** *** [redis.ts] *)

(** [publishBroadcast(room, data)]; [pub] is set whenever [redisEnabled]
    is. *)
Definition publishBroadcast (env : Env) (room : string) (data : Out.t)
  : M unit :=
  if negb (redisEnabled env) then ret tt
  else emit (Published (Broadcast (instanceId env) room data)).

(** [publishSignal(to, payload)] *)
Definition publishSignal (env : Env) (to payload : string) : M unit :=
  if negb (redisEnabled env) then ret tt
  else emit (Published (Signal (instanceId env) to payload)).

(** What [JSON.parse(message)] makes of a frame of the subscription: an
    exception, [null], or a payload. *)
Inductive Frame :=
| Malformed
| Null
| Parsed (p : RedisPayload).

(** The listener [onRedisMessage(handler)] installs with
    [sub.on("message", ...)]. *)
Definition subscriber (env : Env) (handler : RedisPayload → M unit)
    (message : Frame) : M unit :=
  try_catch
    (match message with
     | Malformed => throw
     | Null => ret tt
     | Parsed parsed =>
         if bool_decide (origin parsed = instanceId env) then ret tt
         else handler parsed
     end)
    (ret tt).

(** [onRedisMessage(handler)]: no listener unless [redisEnabled]. *)
Definition onRedisMessage (env : Env) (handler : RedisPayload → M unit)
  : option (Frame → M unit) :=
  if negb (redisEnabled env) then None else Some (subscriber env handler).

(** *** Room management *)

(** [broadcastToRoom(roomName, data, exclude, fromRedis)] *)
Definition broadcastToRoom (env : Env) (roomName : string) (data : Out.t)
    (exclude : option conn) (fromRedis : bool) : M unit :=
  let! s := get in
  match rooms s !! roomName with
  | None => ret tt
  | Some room =>
      forEach (clients room) (λ client,
        if bool_decide (Some client = exclude) then ret tt
        else try_catch (send env client data) (ret tt)) >>
      if redisEnabled env && negb fromRedis
      then publishBroadcast env roomName data
      else ret tt
  end.

(** The maps after the first part of [joinRoom]: the room is created when
    absent, [ws] is added to its clients and [roomName] to the rooms of
    [ws]. *)
Definition enter (ws : conn) (roomName : string) (s : State) : State :=
  let room := default {| name := roomName; clients := [] |}
                      (rooms s !! roomName) in
  let room := {| name := name room; clients := JsSet.add ws (clients room) |} in
  let mine := default [] (clientRooms s !! ws) in
  set_clientRooms (<[ws := JsSet.add roomName mine]>)
    (set_rooms (<[roomName := room]>) s).

(** [joinRoom(ws, roomName, username)] *)
Definition joinRoom (env : Env) (ws : conn) (roomName username : string)
  : M Room :=
  modify (enter ws roomName) >>
  let! s := get in
  let room := default {| name := roomName; clients := [] |}
                      (rooms s !! roomName) in
  broadcastToRoom env roomName
    (Out.user_joined username roomName (JsSet.size (clients room)))
    (Some ws) false >>
  ret room.

(** [userData?.username || "Anonymous"] *)
Definition displayName (userData : option UserData) : string :=
  match userData with
  | Some u => if bool_decide (username u = "") then "Anonymous" else username u
  | None => "Anonymous"
  end.

(** [clientRooms.get(ws)?.delete(roomName)] *)
Definition forget (ws : conn) (roomName : string)
    (m : gmap conn (list string)) : gmap conn (list string) :=
  match m !! ws with
  | Some mine => <[ws := JsSet.delete roomName mine]> m
  | None => m
  end.

(** [leaveRoom(ws, roomName)] *)
Definition leaveRoom (env : Env) (ws : conn) (roomName : string) : M unit :=
  let! s := get in
  match rooms s !! roomName with
  | None => ret tt
  | Some room =>
      let room := {| name := name room;
                     clients := JsSet.delete ws (clients room) |} in
      let username := displayName (clientData s !! ws) in
      modify (set_rooms (<[roomName := room]>)) >>
      modify (set_clientRooms (forget ws roomName)) >>
      if bool_decide (JsSet.size (clients room) = 0%nat)
      then modify (set_rooms (delete roomName))
      else broadcastToRoom env roomName
             (Out.user_left username roomName (JsSet.size (clients room)))
             None false
  end.

(** [getOnlineUsers(roomName)] *)
Definition getOnlineUsers (s : State) (roomName : string) : list string :=
  match rooms s !! roomName with
  | None => []
  | Some room => omap (λ client, username <$> clientData s !! client)
                      (clients room)
  end.

(** [getRoomList()]. The source lists the rooms in the order they were
    created; here the order is that of [map_to_list]. *)
Definition getRoomList (s : State) : list (string * nat) :=
  (λ kv, (kv.1, JsSet.size (clients kv.2))) <$> map_to_list (rooms s).

(** [setTyping(roomName, username, isTyping)] *)
Definition setTyping (env : Env) (roomName username : string)
    (isTyping : bool) : M unit :=
  let! s := get in
  let roomTyping := default [] (typingUsers s !! roomName) in
  let roomTyping := if isTyping then JsSet.add username roomTyping
                    else JsSet.delete username roomTyping in
  modify (set_typingUsers (<[roomName := roomTyping]>)) >>
  broadcastToRoom env roomName (Out.typing roomName roomTyping) None false.

(** *** Inbound events

    A field of the parsed frame is [None] when it is absent or falsy and
    [Some v] when it is the string [v]. The [payload] of a [signal] is
    [Some v] when it is an object, [v] being its JSON text, and [None] when
    it is absent, falsy or not an object; the [encrypted] of a
    [decrypt_message] is [Some v] when it is present, [v] being its JSON
    text. [other] stands for a [type] that none of the branches below
    handles; in [server.ts] [group_message] is one of these. *)
Module In.
Inductive t :=
| join (username room userId : option string)
| leave (room : option string)
| message (content room mediaType mediaUrl : option string)
| dm (recipientId content mediaType mediaUrl : option string)
    (encrypted : bool) (encryptedContent : option string)
| signal (to payload : option string)
| message_seen (messageId : option Z)
| star_message (messageId : option Z)
| pin_message (messageId : option Z) (roomName : option string)
| typing (room : option string) (isTyping : bool)
| get_rooms
| get_users (room : option string)
| group_message (recipientIds : list string)
    (content groupName : option string)
| init_keys
| get_bundle (recipientId : option string)
| encrypted_dm (recipientId message : option string)
| decrypt_message (senderId encrypted : option string) (messageId : option Z)
| other.
End In.

(** [await messageManager.saveMessage(d)], which throws when the store
    fails. *)
Definition save (env : Env) (d : Draft.t) : M Message.t :=
  match saveMessage env d with
  | Some m => emit (Saved d m) >> ret m
  | None => throw
  end.

(** [await messageQueue.queueOfflineMessage(m)] *)
Definition queue (env : Env) (m : Offline) : M unit :=
  if queueThrows env then throw else emit (Queued m).

(** [await] on a collaborator of [signalManager] that throws when it
    fails. The rows [signalManager] writes to its own tables are not
    recorded in the trace. *)
Definition await {A} (answer : option A) : M A :=
  match answer with
  | Some a => ret a
  | None => throw
  end.

Definition reply_error (env : Env) (ws : conn) (message : string) : M unit :=
  send env ws (Out.error message).

(** *** The branches of [websocket.message] *)

Definition on_join (env : Env) (ws : conn)
    (username room userId : option string) : M unit :=
  let username := Security.sanitizeInput (default "Anonymous" username) 50 in
  let roomName := Security.sanitizeInput (default "general" room) 100 in
  let userId := default (pretty (now env)) userId in
  if negb (Security.isValidUsername username)
  then reply_error env ws "Invalid username format"
  else if negb (Security.isValidRoomName roomName)
  then reply_error env ws "Invalid room name format"
  else if negb (Security.isValidUserId userId)
  then reply_error env ws "Invalid userId format"
  else
    modify (set_clientData
              (<[ws := {| username := username; userId := userId |}]>)) >>
    modify (set_userIdToSocket (<[userId := ws]>)) >>
    joinRoom env ws roomName username >>
    try_catch
      (let history := getMessages env (byRoom roomName 50) in
       let! s := get in
       let users := getOnlineUsers s roomName in
       let allPending := getMessages env (byRecipient userId 100) in
       let pendingDMs :=
         filter (λ m, Message.delivered m = false) allPending in
       send env ws (Out.joined roomName history users userId
                      (List.length pendingDMs)) >>
       forEach pendingDMs (λ msg,
         send env ws
           (Out.pending (if bool_decide (Message.messageType msg = "text")
                         then "dm" else "group_message") msg) >>
         emit (MarkedDelivered (Message.id msg))))
      (ret tt).

Definition on_leave (env : Env) (ws : conn) (room : option string)
  : M unit :=
  let roomName := default "general" room in
  leaveRoom env ws roomName >>
  send env ws (Out.left roomName).

Definition on_message (env : Env) (ws : conn)
    (content room mediaType mediaUrl : option string) : M unit :=
  let! s := get in
  match clientData s !! ws with
  | None => reply_error env ws "Not authenticated. Please join first."
  | Some userData =>
      let username := username userData in
      let content :=
        Security.sanitizeInput (Security.trim (default "" content)) 5000 in
      let roomName := Security.sanitizeInput (default "general" room) 100 in
      if bool_decide (content = "")
      then reply_error env ws "Content required"
      else if negb (Security.isValidRoomName roomName)
      then reply_error env ws "Invalid room name"
      else
        try_catch
          (let! savedMsg :=
             save env {| Draft.senderId := userId userData;
                         Draft.username := username;
                         Draft.content := content;
                         Draft.roomName := Some roomName;
                         Draft.messageType := default "text" mediaType;
                         Draft.recipientId := None;
                         Draft.mediaUrl := mediaUrl;
                         Draft.mediaType := mediaType;
                         Draft.encrypted := false;
                         Draft.encryptedContent := None;
                         Draft.encryptionMetadata := None |} in
           broadcastToRoom env roomName (Out.message savedMsg) None false)
          (reply_error env ws "Failed to save message")
  end.

(** The message the [dm] branch saves. *)
Definition dmDraft (userData : UserData) (recipientId content : string)
    (mediaType mediaUrl : option string) (encrypted : bool)
    (encryptedContent : option string) : Draft.t :=
  {| Draft.senderId := userId userData;
     Draft.username := username userData;
     Draft.content := content;
     Draft.roomName := None;
     Draft.messageType := default "text" mediaType;
     Draft.recipientId := Some recipientId;
     Draft.mediaUrl := mediaUrl;
     Draft.mediaType := mediaType;
     Draft.encrypted := encrypted;
     Draft.encryptedContent := encryptedContent;
     Draft.encryptionMetadata := None |}.

(** The message the [dm] branch queues for a recipient who is offline. *)
Definition dmOffline (userData : UserData) (recipientId content : string)
    (savedMsg : Message.t) : Offline :=
  {| q_recipientId := recipientId;
     q_from := userId userData;
     q_fromUsername := username userData;
     q_content := content;
     q_messageType := "dm";
     q_messageId := Message.id savedMsg |}.

Definition on_dm (env : Env) (ws : conn)
    (recipientId content mediaType mediaUrl : option string)
    (encrypted : bool) (encryptedContent : option string) : M unit :=
  let! s := get in
  match clientData s !! ws with
  | None => reply_error env ws "Not authenticated"
  | Some userData =>
      let username := username userData in
      let recipientId := default "" recipientId in
      let content :=
        Security.sanitizeInput (Security.trim (default "" content)) 5000 in
      if negb (Security.isValidUserId recipientId)
      then reply_error env ws "Invalid recipientId format"
      else if bool_decide (recipientId = "") || bool_decide (content = "")
      then reply_error env ws "recipientId and content required"
      else if isBlocked env (userId userData) recipientId
      then reply_error env ws "Cannot send message to this user"
      else
        let recipientSocket := userIdToSocket s !! recipientId in
        try_catch
          (let! savedMsg :=
             save env (dmDraft userData recipientId content mediaType
                         mediaUrl encrypted encryptedContent) in
           match recipientSocket with
           | None =>
               (if useRabbitMQ env
                then queue env (dmOffline userData recipientId content
                                  savedMsg)
                else ret tt) >>
               send env ws (Out.dm_sent recipientId "offline" savedMsg)
           | Some recipientSocket =>
               send env recipientSocket
                 (Out.dm (userId userData) username savedMsg) >>
               emit (MarkedDelivered (Message.id savedMsg)) >>
               send env ws (Out.dm_sent recipientId "delivered" savedMsg)
           end)
          (reply_error env ws "Failed to send DM")
  end.

Definition on_signal (env : Env) (ws : conn) (to payload : option string)
  : M unit :=
  let! s := get in
  match clientData s !! ws with
  | None => reply_error env ws "Not authenticated"
  | Some userData =>
      let to := default "" to in
      if negb (Security.isValidUserId to)
      then reply_error env ws "Invalid recipientId format"
      else
        match payload with
        | None => reply_error env ws "Missing signal payload"
        | Some payload =>
            match userIdToSocket s !! to with
            | None =>
                if redisEnabled env
                then publishSignal env to payload >>
                     send env ws (Out.signal_sent to (Some "redis"))
                else reply_error env ws "Recipient not connected"
            | Some recipientSocket =>
                try_catch
                  (send env recipientSocket
                     (Out.signal (userId userData) payload) >>
                   send env ws (Out.signal_sent to None))
                  (reply_error env ws "Failed to forward signal")
            end
        end
  end.

Definition on_message_seen (env : Env) (ws : conn) (messageId : option Z)
  : M unit :=
  let! s := get in
  match clientData s !! ws with
  | None => ret tt
  | Some userData =>
      match messageId with
      | None => ret tt
      | Some messageId =>
          try_catch (emit (MarkedSeen messageId (userId userData))) (ret tt)
      end
  end.

Definition on_star_message (env : Env) (ws : conn) (messageId : option Z)
  : M unit :=
  let! s := get in
  match clientData s !! ws with
  | None => ret tt
  | Some userData =>
      try_catch
        (emit (ToggledStar messageId (userId userData)) >>
         send env ws (Out.message_starred messageId))
        (ret tt)
  end.

Definition on_pin_message (env : Env) (ws : conn) (messageId : option Z)
    (roomName : option string) : M unit :=
  let! s := get in
  match clientData s !! ws with
  | None => ret tt
  | Some userData =>
      try_catch
        (emit (ToggledPin messageId roomName) >>
         match roomName with
         | Some roomName =>
             broadcastToRoom env roomName
               (Out.message_pinned messageId (username userData)) None false
         | None => ret tt
         end)
        (ret tt)
  end.

Definition on_typing (env : Env) (ws : conn) (room : option string)
    (isTyping : bool) : M unit :=
  let! s := get in
  match clientData s !! ws with
  | None => ret tt
  | Some userData =>
      let roomName := default "general" room in
      setTyping env roomName (username userData) isTyping
  end.

Definition on_get_rooms (env : Env) (ws : conn) : M unit :=
  let! s := get in
  send env ws (Out.room_list (getRoomList s)).

Definition on_get_users (env : Env) (ws : conn) (room : option string)
  : M unit :=
  let roomName := default "general" room in
  let! s := get in
  send env ws (Out.user_list roomName (getOnlineUsers s roomName)).

Definition on_init_keys (env : Env) (ws : conn) : M unit :=
  let! s := get in
  match clientData s !! ws with
  | None => ret tt
  | Some userData =>
      try_catch
        (let! keys := await (initializeUser env (userId userData)) in
         send env ws (Out.keys_initialized keys))
        (reply_error env ws "Failed to initialize keys")
  end.

Definition on_get_bundle (env : Env) (ws : conn) (recipientId : option string)
  : M unit :=
  let! s := get in
  match clientData s !! ws with
  | None => ret tt
  | Some userData =>
      try_catch
        (match getUserPreKeyBundle env recipientId with
         | None =>
             reply_error env ws "Recipient has not initialized encryption keys"
         | Some bundle => send env ws (Out.bundle_received recipientId bundle)
         end)
        (reply_error env ws "Failed to get pre-key bundle")
  end.

(** The message the [encrypted_dm] branch saves. *)
Definition encryptedDraft (userData : UserData) (recipientId encrypted : string)
  : Draft.t :=
  {| Draft.senderId := userId userData;
     Draft.username := username userData;
     Draft.content := "[Encrypted]";
     Draft.roomName := None;
     Draft.messageType := "text";
     Draft.recipientId := Some recipientId;
     Draft.mediaUrl := None;
     Draft.mediaType := None;
     Draft.encrypted := true;
     Draft.encryptedContent := None;
     Draft.encryptionMetadata := Some encrypted |}.

(** The [encrypted_dm] branch. The source appends the text of the exception
    to the message of its last [error]; that text is left out. *)
Definition on_encrypted_dm (env : Env) (ws : conn)
    (recipientId message : option string) : M unit :=
  let! s := get in
  match clientData s !! ws with
  | None => reply_error env ws "Not authenticated"
  | Some userData =>
      let recipientId := default "" recipientId in
      let message := default "" message in
      if bool_decide (recipientId = "") || bool_decide (message = "")
      then reply_error env ws "recipientId and message required"
      else
        try_catch
          (let! encrypted :=
             await (encryptMessage env (userId userData) recipientId message) in
           let! savedMsg :=
             save env (encryptedDraft userData recipientId encrypted) in
           let! s := get in
           match userIdToSocket s !! recipientId with
           | None =>
               (if useRabbitMQ env
                then queue env (dmOffline userData recipientId "[Encrypted]"
                                  savedMsg)
                else ret tt) >>
               send env ws (Out.encrypted_dm_sent recipientId "offline"
                              (Message.id savedMsg))
           | Some recipientSocket =>
               send env recipientSocket
                 (Out.encrypted_dm (userId userData) (username userData)
                    savedMsg encrypted) >>
               emit (MarkedDelivered (Message.id savedMsg)) >>
               send env ws (Out.encrypted_dm_sent recipientId "delivered"
                              (Message.id savedMsg))
           end)
          (reply_error env ws "Failed to send encrypted message")
  end.

Definition on_decrypt_message (env : Env) (ws : conn)
    (senderId encrypted : option string) (messageId : option Z) : M unit :=
  let! s := get in
  match clientData s !! ws with
  | None => ret tt
  | Some userData =>
      try_catch
        (let! decrypted :=
           await (decryptMessage env (userId userData) senderId encrypted) in
         send env ws (Out.message_decrypted messageId decrypted))
        (reply_error env ws "Failed to decrypt message")
  end.

(** [rateLimitWebSocket(identifier)] on the limiter of the world. *)
Definition rateLimit (env : Env) (ws : conn) : M RateLimit.Verdict :=
  λ w, let '(v, rl) := RateLimit.rateLimitWebSocket
                         (limiter w) (now env) (identifier env ws) in
       (Returned v, {| state := state w; limiter := rl; trace := trace w |}).

(** The dispatch on [data.type]. *)
Definition dispatch (env : Env) (ws : conn) (data : In.t) : M unit :=
  match data with
  | In.join username room userId => on_join env ws username room userId
  | In.leave room => on_leave env ws room
  | In.message content room mediaType mediaUrl =>
      on_message env ws content room mediaType mediaUrl
  | In.dm recipientId content mediaType mediaUrl encrypted encryptedContent =>
      on_dm env ws recipientId content mediaType mediaUrl encrypted
        encryptedContent
  | In.signal to payload => on_signal env ws to payload
  | In.message_seen messageId => on_message_seen env ws messageId
  | In.star_message messageId => on_star_message env ws messageId
  | In.pin_message messageId roomName =>
      on_pin_message env ws messageId roomName
  | In.typing room isTyping => on_typing env ws room isTyping
  | In.get_rooms => on_get_rooms env ws
  | In.get_users room => on_get_users env ws room
  | In.group_message _ _ _ => ret tt
  | In.init_keys => on_init_keys env ws
  | In.get_bundle recipientId => on_get_bundle env ws recipientId
  | In.encrypted_dm recipientId message =>
      on_encrypted_dm env ws recipientId message
  | In.decrypt_message senderId encrypted messageId =>
      on_decrypt_message env ws senderId encrypted messageId
  | In.other => ret tt
  end.

(** [websocket.message(ws, msg)]; [data] is [None] when [JSON.parse]
    throws. *)
Definition message (env : Env) (ws : conn) (data : option In.t) : M unit :=
  let! rateLimit := rateLimit env ws in
  if negb (RateLimit.allowed rateLimit)
  then send env ws (Out.rate_limited (RateLimit.remaining rateLimit)
                      (RateLimit.resetAt rateLimit))
  else
    match data with
    | None => reply_error env ws "Invalid JSON"
    | Some data => dispatch env ws data
    end.

(** [websocket.close(ws)]. The loop runs over the room set of [ws] while
    [leaveRoom] deletes from it; each call deletes at most the element
    being visited, so every element is visited once, as over a copy. *)
Definition close (env : Env) (ws : conn) : M unit :=
  let! s := get in
  let userData := clientData s !! ws in
  let userRooms := clientRooms s !! ws in
  match userRooms with
  | Some userRooms => forEach userRooms (λ roomName, leaveRoom env ws roomName)
  | None => ret tt
  end >>
  match userData with
  | Some userData => modify (set_userIdToSocket (delete (userId userData)))
  | None => ret tt
  end.

(** The handler [server.ts] passes to [onRedisMessage]. *)
Definition onRelayed (env : Env) (msg : RedisPayload) : M unit :=
  match msg with
  | Broadcast _ room data => broadcastToRoom env room data None true
  | Signal from to payload =>
      let! s := get in
      match userIdToSocket s !! to with
      | Some recipientSocket =>
          send env recipientSocket (Out.signal from payload)
      | None => ret tt
      end
  end.

(** *** The server as a transition system *)

Inductive Action :=
| Receive (ws : conn) (data : option In.t)
| Close (ws : conn)
| Relayed (message : Frame).

Definition perform (env : Env) (a : Action) : M unit :=
  match a with
  | Receive ws data => message env ws data
  | Close ws => close env ws
  | Relayed frame =>
      match onRedisMessage env (onRelayed env) with
      | Some listener => listener frame
      | None => ret tt
      end
  end.

Definition step (w w' : World) : Prop :=
  ∃ env a, w' = exec (perform env a) w.

Definition start (rl : RateLimit.RateLimiter) : World :=
  {| state := initial; limiter := rl; trace := [] |}.

(** The worlds the server can be in: any actions, under any environments,
    from the empty maps. *)
Definition reachable (w : World) : Prop :=
  ∃ rl, rtc step (start rl) w.

(** [ws] is in the client set of the room [roomName]. *)
Definition member (s : State) (ws : conn) (roomName : string) : Prop :=
  ∃ room, rooms s !! roomName = Some room ∧ ws ∈ clients room.

(** [roomName] is in the room set [clientRooms] keeps for [ws]. *)
Definition tracked (s : State) (ws : conn) (roomName : string) : Prop :=
  ∃ mine, clientRooms s !! ws = Some mine ∧ roomName ∈ mine.

(** The rooms [close] visits for [ws]. *)
Definition cascade (s : State) (ws : conn) : list string :=
  default [] (clientRooms s !! ws).

(** No room has an empty client set. *)
Definition noEmptyRoom (s : State) : Prop :=
  ∀ roomName room, rooms s !! roomName = Some room → clients room ≠ [].

(** The client sets of the rooms and the room sets of the clients
    agree. *)
Definition consistent (s : State) : Prop :=
  ∀ ws roomName, member s ws roomName ↔ tracked s ws roomName.

Definition invariant (s : State) : Prop := noEmptyRoom s ∧ consistent s.

(** The lists of the maps hold no element twice. *)
Definition distinct (s : State) : Prop :=
  (∀ roomName room, rooms s !! roomName = Some room → NoDup (clients room))
  ∧ (∀ ws mine, clientRooms s !! ws = Some mine → NoDup mine).

(** Every client of a room has an identity in [clientData]. *)
Definition identified (s : State) : Prop :=
  ∀ ws roomName, member s ws roomName → is_Some (clientData s !! ws).

(** A handler keeps a property of the maps. *)
Definition keeps (P : State → Prop) {A} (m : M A) : Prop :=
  ∀ w, P (state w) → P (state (m w).2).

(** The maps after [leaveRoom(ws, roomName)]. *)
Definition depart (ws : conn) (roomName : string) (s : State) : State :=
  match rooms s !! roomName with
  | None => s
  | Some room =>
      let rest := JsSet.delete ws (clients room) in
      let s' := set_clientRooms (forget ws roomName) s in
      if bool_decide (JsSet.size rest = 0%nat)
      then set_rooms (delete roomName) s'
      else set_rooms (<[roomName := {| name := name room; clients := rest |}]>) s'
  end.

(** What [broadcastToRoom] does for a room with the clients [members]:
    one send to each client that is not excluded and whose socket takes
    it, then the publication on the relay. *)
Definition fanout (env : Env) (roomName : string) (data : Out.t)
    (exclude : option conn) (fromRedis : bool) (members : list conn)
  : list Effect :=
  ((λ client, Sent client data)
     <$> filter (λ client, Some client ≠ exclude
                           ∧ sendThrows env client = false) members)
  ++ (if redisEnabled env && negb fromRedis
      then [Published (Broadcast (instanceId env) roomName data)]
      else []).

(** What [leaveRoom(ws, roomName)] sends from the maps [s]. *)
Definition leaveEffects (env : Env) (ws : conn) (roomName : string)
    (s : State) : list Effect :=
  match rooms s !! roomName with
  | None => []
  | Some room =>
      let rest := JsSet.delete ws (clients room) in
      if bool_decide (JsSet.size rest = 0%nat) then []
      else fanout env roomName
             (Out.user_left (displayName (clientData s !! ws)) roomName
                (JsSet.size rest)) None false rest
  end.

End Server.

(** ** [websocket-demo/server.ts]

    The first version of the server keeps the same maps and the same room
    functions, without the relay, the rate limit and the validators. Its
    [saveMessage(username, content, roomName, messageType, recipientId)] is
    the [saveMessage] oracle at a draft with these five fields. *)

Module Demo.
Import Server.

Definition draft (username content roomName messageType : string)
    (recipientId : option string) : Draft.t :=
  {| Draft.senderId := ""; Draft.username := username;
     Draft.content := content; Draft.roomName := Some roomName;
     Draft.messageType := messageType; Draft.recipientId := recipientId;
     Draft.mediaUrl := None; Draft.mediaType := None;
     Draft.encrypted := false; Draft.encryptedContent := None;
     Draft.encryptionMetadata := None |}.

Definition notJoined : string :=
  "Not authenticated. Please send 'join' message first with username and userId".

(** [recipientIds.join(",")] *)
Fixpoint join (sep : string) (l : list string) : string :=
  match l with
  | [] => ""
  | [x] => x
  | x :: l' => x +:+ sep +:+ join sep l'
  end.

(** The [dm] branch of [websocket.message]. *)
Definition on_dm (env : Env) (ws : conn) (recipientId content : option string)
  : M unit :=
  let! s := get in
  match clientData s !! ws with
  | None => reply_error env ws notJoined
  | Some userData =>
      let username := username userData in
      let recipientId := default "" recipientId in
      let content := Security.trim (default "" content) in
      if bool_decide (recipientId = "") || bool_decide (content = "")
      then reply_error env ws "recipientId and content required"
      else
        let recipientSocket := userIdToSocket s !! recipientId in
        try_catch
          (let! savedMsg :=
             save env (draft username content "dm" "dm" (Some recipientId)) in
           match recipientSocket with
           | None =>
               (if useRabbitMQ env
                then queue env (dmOffline userData recipientId content
                                  savedMsg)
                else ret tt) >>
               send env ws (Out.dm_sent recipientId "offline" savedMsg)
           | Some recipientSocket =>
               send env recipientSocket
                 (Out.dm (userId userData) username savedMsg) >>
               emit (MarkedDelivered (Message.id savedMsg)) >>
               send env ws (Out.dm_sent recipientId "delivered" savedMsg)
           end)
          (reply_error env ws "Failed to send DM")
  end.

(** The loop of the [group_message] branch over the recipients, with its
    two accumulators [sentCount] and [offlineRecipients]. *)
Fixpoint deliver (env : Env) (s : State) (userData : UserData)
    (content groupName : string) (all : list string) (savedMsg : Message.t)
    (recipientIds : list string) (sentCount : nat)
    (offlineRecipients : list string) : M (nat * list string) :=
  match recipientIds with
  | [] => ret (sentCount, offlineRecipients)
  | recipientId :: rest =>
      match userIdToSocket s !! recipientId with
      | Some recipientSocket =>
          send env recipientSocket
            (Out.group_message (userId userData) (username userData)
               groupName all savedMsg) >>
          deliver env s userData content groupName all savedMsg rest
            (S sentCount) offlineRecipients
      | None =>
          (if useRabbitMQ env
           then queue env {| q_recipientId := recipientId;
                             q_from := userId userData;
                             q_fromUsername := username userData;
                             q_content := content;
                             q_messageType := "group";
                             q_messageId := Message.id savedMsg |}
           else ret tt) >>
          deliver env s userData content groupName all savedMsg rest
            sentCount (offlineRecipients ++ [recipientId])
      end
  end.

(** The [group_message] branch of [websocket.message]. *)
Definition on_group_message (env : Env) (ws : conn)
    (recipientIds : list string) (content groupName : option string)
  : M unit :=
  let! s := get in
  match clientData s !! ws with
  | None => reply_error env ws notJoined
  | Some userData =>
      let username := username userData in
      let content := Security.trim (default "" content) in
      let groupName := default "private-group" groupName in
      if bool_decide (List.length recipientIds = 0%nat)
         || bool_decide (content = "")
      then reply_error env ws "recipientIds and content required"
      else
        try_catch
          (let! savedMsg :=
             save env (draft username content groupName "group"
                         (Some (join "," recipientIds))) in
           let failedRecipients := [] in
           let! counts :=
             deliver env s userData content groupName recipientIds savedMsg
               recipientIds 0 [] in
           send env ws
             (Out.group_message_sent groupName recipientIds counts.1
                (List.length counts.2) counts.2 failedRecipients
                (if useRabbitMQ env then "rabbitmq" else "database")
                savedMsg))
          (reply_error env ws "Failed to send group message")
  end.




End Demo.

(** ** Concrete runs used below *)

Module Scenario.
Import Server.

Definition limiter : RateLimit.RateLimiter :=
  {| RateLimit.store := ∅; RateLimit.windowMs := 60000;
     RateLimit.maxRequests := 100; RateLimit.maxWsMessages := 50 |}.

Definition stored (d : Draft.t) : Message.t :=
  {| Message.id := 1; Message.senderId := Draft.senderId d;
     Message.username := Draft.username d;
     Message.content := Draft.content d;
     Message.roomName := Draft.roomName d;
     Message.messageType := Draft.messageType d;
     Message.recipientId := Draft.recipientId d;
     Message.delivered := false |}.

(** A single process without relay or queue, every socket and every
    collaborator working, nobody blocked. *)
Definition env : Env :=
  {| now := 1000; redisEnabled := false; useRabbitMQ := false;
     instanceId := "A"; sendThrows := λ _, false;
     identifier := λ ws, "ws:" +:+ pretty ws;
     isBlocked := λ _ _, false;
     saveMessage := λ d, Some (stored d);
     getMessages := λ _, []; queueThrows := false;
     initializeUser := λ _, Some "keys";
     getUserPreKeyBundle := λ _, Some "bundle";
     encryptMessage := λ _ _ message, Some message;
     decryptMessage := λ _ _ encrypted, encrypted |}.

(** The same process with the relay enabled. *)
Definition relayed : Env :=
  {| now := 1000; redisEnabled := true; useRabbitMQ := false;
     instanceId := "A"; sendThrows := λ _, false;
     identifier := λ ws, "ws:" +:+ pretty ws;
     isBlocked := λ _ _, false;
     saveMessage := λ d, Some (stored d);
     getMessages := λ _, []; queueThrows := false;
     initializeUser := λ _, Some "keys";
     getUserPreKeyBundle := λ _, Some "bundle";
     encryptMessage := λ _ _ message, Some message;
     decryptMessage := λ _ _ encrypted, encrypted |}.

(** The same process where [alice] and [bob] have a block between them. *)
Definition blocking : Env :=
  {| now := 1000; redisEnabled := false; useRabbitMQ := false;
     instanceId := "A"; sendThrows := λ _, false;
     identifier := λ ws, "ws:" +:+ pretty ws;
     isBlocked := λ a b, bool_decide (a = "alice" ∧ b = "bob");
     saveMessage := λ d, Some (stored d);
     getMessages := λ _, []; queueThrows := false;
     initializeUser := λ _, Some "keys";
     getUserPreKeyBundle := λ _, Some "bundle";
     encryptMessage := λ _ _ message, Some message;
     decryptMessage := λ _ _ encrypted, encrypted |}.

(** The same process where [send] throws on socket 2. *)
Definition broken2 : Env :=
  {| now := 1000; redisEnabled := false; useRabbitMQ := false;
     instanceId := "A"; sendThrows := λ ws, bool_decide (ws = 2%nat);
     identifier := λ ws, "ws:" +:+ pretty ws;
     isBlocked := λ _ _, false;
     saveMessage := λ d, Some (stored d);
     getMessages := λ _, []; queueThrows := false;
     initializeUser := λ _, Some "keys";
     getUserPreKeyBundle := λ _, Some "bundle";
     encryptMessage := λ _ _ message, Some message;
     decryptMessage := λ _ _ encrypted, encrypted |}.

(** The same process using a queue whose channel has failed. *)
Definition queueDown : Env :=
  {| now := 1000; redisEnabled := false; useRabbitMQ := true;
     instanceId := "A"; sendThrows := λ _, false;
     identifier := λ ws, "ws:" +:+ pretty ws;
     isBlocked := λ _ _, false;
     saveMessage := λ d, Some (stored d);
     getMessages := λ _, []; queueThrows := true;
     initializeUser := λ _, Some "keys";
     getUserPreKeyBundle := λ _, Some "bundle";
     encryptMessage := λ _ _ message, Some message;
     decryptMessage := λ _ _ encrypted, encrypted |}.

Definition joins (ws : conn) (username userId room : string) : Action :=
  Receive ws (Some (In.join (Some username) (Some room) (Some userId))).

Fixpoint play (e : Env) (actions : list Action) (w : World) : World :=
  match actions with
  | [] => w
  | a :: actions' => play e actions' (exec (perform e a) w)
  end.

(** Socket 1 is [alice] in [general]. *)
Definition alone : World :=
  play env [joins 1%nat "alice" "alice" "general"] (start limiter).

(** Sockets 1, 2 and 3 are [alice], [bob] and [carol] in [general]. *)
Definition three : World :=
  play env [joins 1%nat "alice" "alice" "general"; joins 2%nat "bob" "bob" "general";
            joins 3%nat "carol" "carol" "general"] (start limiter).

(** Socket 1 registers the user [u] in [general]; socket 2 then registers
    the same user. *)
Definition superseded : World :=
  play env [joins 1%nat "u" "u" "general"; joins 2%nat "u" "u" "general"]
    (start limiter).

(** A limiter with cap 5 and a window of 60 s, a burst of six messages of
    [user:alice] with one of another client in between, and the limiter
    after the burst. *)
Definition capped : RateLimit.RateLimiter :=
  {| RateLimit.store := ∅; RateLimit.windowMs := 60000;
     RateLimit.maxRequests := 100; RateLimit.maxWsMessages := 5 |}.

Definition burst : list RateLimit.Call :=
  RateLimit.Build_Call "user:alice" 1000 true
  :: RateLimit.Build_Call "user:alice" 2000 true
  :: RateLimit.Build_Call "ws:10.0.0.7" 2500 true
  :: RateLimit.Build_Call "user:alice" 3000 true
  :: RateLimit.Build_Call "user:alice" 4000 true
  :: RateLimit.Build_Call "user:alice" 5000 true
  :: RateLimit.Build_Call "user:alice" 6000 true :: [].

Definition afterBurst : RateLimit.RateLimiter :=
  (RateLimit.run capped burst).2.

End Scenario.

(** ** [auth.ts] *)

Module Auth.

(** [s.split(sep)] for a separator of one code unit: the pieces between
    the occurrences of [sep]; there is always at least one piece. *)
Fixpoint splitOn (sep : ascii) (l : list ascii) : list (list ascii) :=
  match l with
  | [] => [[]]
  | c :: l' =>
      if bool_decide (c = sep) then [] :: splitOn sep l'
      else match splitOn sep l' with
           | piece :: pieces => (c :: piece) :: pieces
           | [] => [[c]]
           end
  end.

(** [s.split(" ")] *)
Definition split (s : string) : list string :=
  string_of_list_ascii <$> splitOn " "%char (list_ascii_of_string s).

(** [extractToken(authHeader)]; [None] is [null], both as argument and as
    result. *)
Definition extractToken (authHeader : option string) : option string :=
  match authHeader with
  | None => None
  | Some authHeader =>
      if bool_decide (authHeader = "") then None
      else
        match split authHeader with
        | [scheme; token] =>
            if bool_decide (scheme ≠ "Bearer") then None else Some token
        | _ => None
        end
  end.

(** [authenticateRequest(req)] for a request whose [authorization] header
    is [authHeader], with [verifyToken] as the answer of the JWT
    library. *)
Definition authenticateRequest {User : Type}
    (verifyToken : string → option User) (authHeader : option string)
  : option User :=
  match extractToken authHeader with
  | None => None
  | Some token => if bool_decide (token = "") then None else verifyToken token
  end.

End Auth.

(** ** What a run may do to the outside *)

Module Observe.
Import Server.

(** The effects a process with the flags of [env] may have: it publishes
    on the relay only when the relay is enabled, and then under its own
    instance id; it hands a message to the offline queue only when the
    queue is in use. *)
Definition gated (env : Env) (e : Effect) : Prop :=
  match e with
  | Published p => redisEnabled env = true ∧ origin p = instanceId env
  | Queued _ => useRabbitMQ env = true
  | _ => True
  end.

(** A handler only adds to the trace, and only effects that satisfy [Q]. *)
Definition only (Q : Effect → Prop) {A} (m : M A) : Prop :=
  ∀ w, ∃ es, trace (m w).2 = trace w ++ es ∧ Forall Q es.

End Observe.

(** * Properties *)

Set Warnings "-clear-no-such-hyp".

(** ** The rate limiter *)

Section RateLimitFacts.
Import RateLimit.

Lemma checkLimit_config rl now id ws :
  windowMs (checkLimit rl now id ws).2 = windowMs rl
  ∧ maxRequests (checkLimit rl now id ws).2 = maxRequests rl
  ∧ maxWsMessages (checkLimit rl now id ws).2 = maxWsMessages rl.
Proof. done. Qed.

Lemma checkLimit_other rl now id id' ws :
  id' ≠ id → store (checkLimit rl now id' ws).2 !! id = store rl !! id.
Proof. intros Hne. cbn. by rewrite lookup_insert_ne. Qed.

Lemma checkLimit_stored rl now id ws :
  store (checkLimit rl now id ws).2 !! id
  = Some {| count := count (currentEntry rl now id) + 1;
            resetTime := resetTime (currentEntry rl now id) |}.
Proof. cbn. by rewrite lookup_insert_eq. Qed.

Lemma currentEntry_within rl now id e :
  store rl !! id = Some e → now ≤ resetTime e → currentEntry rl now id = e.
Proof.
  intros He Hle. unfold currentEntry. rewrite He.
  destruct (Z.gtb_spec now (resetTime e)); [lia | done].
Qed.

Lemma currentEntry_opens rl now id :
  opensWindow rl id now →
  currentEntry rl now id = {| count := 0; resetTime := now + windowMs rl |}.
Proof.
  unfold opensWindow, currentEntry. destruct (store rl !! id) as [e|]; [|done].
  intros Hgt. destruct (Z.gtb_spec now (resetTime e)); [done | lia].
Qed.

Lemma run_cons rl call calls :
  run rl (call :: calls)
  = ((who call,
      (checkLimit rl (time call) (who call) (viaWebSocket call)).1)
       :: (run (checkLimit rl (time call) (who call) (viaWebSocket call)).2
             calls).1,
     (run (checkLimit rl (time call) (who call) (viaWebSocket call)).2
        calls).2).
Proof.
  cbn [run].
  destruct (checkLimit rl (time call) (who call) (viaWebSocket call))
    as [v rl1]. cbn [fst snd].
  by destruct (run rl1 calls).
Qed.

(** Checks of [id] inside its window count up from the stored entry, whatever
    the other identifiers do in between. *)
Lemma run_within rl id max e calls :
  store rl !! id = Some e →
  Forall (λ call, cap rl (viaWebSocket call) = max ∧ time call ≤ resetTime e)
    (callsOf id calls) →
  verdictsOf id (run rl calls).1
  = (λ k, verdictAt max (count e + Z.of_nat k) (resetTime e))
      <$> seq 1 (List.length (timesOf id calls)).
Proof.
  revert rl e. induction calls as [|call calls IH]; intros rl e He Hall.
  { done. }
  rewrite run_cons. unfold verdictsOf, timesOf, callsOf in *. cbn [fst snd].
  rewrite !filter_cons in *. cbn [fst] in *.
  destruct (decide (who call = id)) as [<-|Hne].
  - cbn [fmap list_fmap snd List.length seq] in *.
    apply Forall_cons in Hall as [[Hcap Hnow] Hall].
    pose proof (checkLimit_stored rl (time call) (who call) (viaWebSocket call))
      as Hst.
    rewrite (currentEntry_within _ _ _ _ He Hnow) in Hst.
    rewrite (IH _ _ Hst Hall). cbn [resetTime count].
    cbn [checkLimit fst allowed count].
    rewrite (currentEntry_within _ _ _ _ He Hnow).
    fold (cap rl (viaWebSocket call)). rewrite Hcap.
    rewrite <- (fmap_S_seq 1), <- list_fmap_compose.
    apply (f_equal2 cons); [done|].
    apply list_fmap_ext. intros _ k _. cbn.
    by replace (count e + 1 + Z.of_nat k) with (count e + Z.of_nat (S k)) by lia.
  - rewrite (IH (checkLimit rl (time call) (who call) (viaWebSocket call)).2 e);
      [done| |done].
    by rewrite checkLimit_other.
Qed.

(** The first check of [id] opens a window; the checks that follow inside it
    count up from 1. *)
Lemma run_opens rl id max t1 ts calls :
  opensWindow rl id t1 →
  timesOf id calls = t1 :: ts →
  Forall (λ call, cap rl (viaWebSocket call) = max) (callsOf id calls) →
  Forall (λ t, t ≤ t1 + windowMs rl) ts →
  verdictsOf id (run rl calls).1
  = (λ k, verdictAt max (Z.of_nat k) (t1 + windowMs rl))
      <$> seq 1 (S (List.length ts)).
Proof.
  revert rl. induction calls as [|call calls IH]; intros rl Hopen Hts Hcap Hall.
  { done. }
  rewrite run_cons. unfold verdictsOf, timesOf, callsOf in *. cbn [fst snd].
  rewrite !filter_cons in *. cbn [fst] in *.
  destruct (decide (who call = id)) as [<-|Hne].
  - cbn [fmap list_fmap snd] in Hts. injection Hts as <- Hts.
    apply Forall_cons in Hcap as [Hcap1 Hcap].
    pose proof (checkLimit_stored rl (time call) (who call) (viaWebSocket call))
      as Hst.
    rewrite (currentEntry_opens _ _ _ Hopen) in Hst. cbn [count resetTime] in Hst.
    cbn [fmap list_fmap snd seq].
    pose proof (run_within _ (who call) max _ calls Hst) as Hin.
    cbn [resetTime count] in Hin.
    unfold verdictsOf, timesOf, callsOf in Hin. rewrite Hts in Hin.
    rewrite Hin.
    2:{ apply Forall_forall. intros c Hc. split.
        - by apply (proj1 (Forall_forall _ _) Hcap).
        - apply (proj1 (Forall_forall _ _) Hall). rewrite <- Hts.
          apply list_elem_of_fmap. by exists c. }
    cbn [checkLimit fst allowed count].
    rewrite (currentEntry_opens _ _ _ Hopen). cbn [count].
    fold (cap rl (viaWebSocket call)). rewrite Hcap1.
    rewrite <- (fmap_S_seq 1), <- list_fmap_compose.
    apply (f_equal2 cons); [done|].
    apply list_fmap_ext. intros _ k _. cbn.
    by replace (0 + 1 + Z.of_nat k) with (Z.of_nat (S k)) by lia.
  - rewrite (IH (checkLimit rl (time call) (who call) (viaWebSocket call)).2);
      [done| |done|done|done].
    unfold opensWindow in *. by rewrite checkLimit_other.
Qed.

(** C3. With a window of 60 s, for a client [id] held to the cap 5: (a) when
    a check at [t1] opens a window and five more checks of [id] follow no
    later than [t1 + 60000], whatever other clients do in between, the first
    five verdicts allow, the sixth refuses, and all six carry the reset time
    [t1 + 60000]; (b) a check over the cap inside the window refuses and
    leaves the reset time of the entry where it was; (c) the first check
    after the reset time has passed allows, with the count back at 1 and
    the reset time one window after that check. *)
Theorem rate_limit_cap5_window60s (rl : RateLimiter) (id : string) :
  windowMs rl = 60000 →
  (∀ calls t1 ts,
      Forall (λ call, cap rl (viaWebSocket call) = 5) (callsOf id calls) →
      opensWindow rl id t1 →
      timesOf id calls = t1 :: ts → List.length ts = 5%nat →
      Forall (λ t, t ≤ t1 + 60000) ts →
      allowed <$> verdictsOf id (run rl calls).1
        = [true; true; true; true; true; false]
      ∧ resetAt <$> verdictsOf id (run rl calls).1
        = replicate 6 (t1 + 60000))
  ∧ (∀ now isWebSocket e,
      cap rl isWebSocket = 5 →
      store rl !! id = Some e → now ≤ resetTime e → 5 ≤ count e →
      allowed (checkLimit rl now id isWebSocket).1 = false
      ∧ resetAt (checkLimit rl now id isWebSocket).1 = resetTime e
      ∧ resetTime <$> store (checkLimit rl now id isWebSocket).2 !! id
        = Some (resetTime e))
  ∧ (∀ now isWebSocket e,
      cap rl isWebSocket = 5 →
      store rl !! id = Some e → now > resetTime e →
      allowed (checkLimit rl now id isWebSocket).1 = true
      ∧ resetAt (checkLimit rl now id isWebSocket).1 = now + 60000
      ∧ store (checkLimit rl now id isWebSocket).2 !! id
        = Some {| count := 1; resetTime := now + 60000 |}).
Proof.
  intros Hw. split; [|split].
  - intros calls t1 ts Hcap Hopen Hts Hlen Hall. rewrite <- Hw in Hall.
    rewrite (run_opens rl id 5 t1 ts calls Hopen Hts Hcap Hall), Hlen, Hw.
    done.
  - intros now isWebSocket e Hcap He Hnow Hcount.
    rewrite checkLimit_stored. cbn [checkLimit fst allowed resetAt count resetTime].
    rewrite (currentEntry_within _ _ _ _ He Hnow).
    fold (cap rl isWebSocket). rewrite Hcap.
    split; [|done]. apply Z.leb_gt. lia.
  - intros now isWebSocket e Hcap He Hnow.
    assert (opensWindow rl id now) as Hopen by (unfold opensWindow; by rewrite He).
    rewrite checkLimit_stored. cbn [checkLimit fst allowed resetAt count resetTime].
    rewrite (currentEntry_opens _ _ _ Hopen). fold (cap rl isWebSocket).
    rewrite Hcap, Hw. done.
Qed.

Lemma rate_limit_cap5_window60s_witness :
  (allowed <$> verdictsOf "user:alice" (run Scenario.capped Scenario.burst).1
     = [true; true; true; true; true; false]
   ∧ resetAt <$> verdictsOf "user:alice" (run Scenario.capped Scenario.burst).1
     = replicate 6 61000)
  ∧ (allowed (checkLimit Scenario.afterBurst 7000 "user:alice" true).1 = false
     ∧ resetAt (checkLimit Scenario.afterBurst 7000 "user:alice" true).1 = 61000
     ∧ resetTime <$> store (checkLimit Scenario.afterBurst 7000 "user:alice" true).2
         !! "user:alice" = Some 61000)
  ∧ (allowed (checkLimit Scenario.afterBurst 61001 "user:alice" true).1 = true
     ∧ resetAt (checkLimit Scenario.afterBurst 61001 "user:alice" true).1
       = 121001
     ∧ store (checkLimit Scenario.afterBurst 61001 "user:alice" true).2
         !! "user:alice" = Some {| count := 1; resetTime := 121001 |}).
Proof.
  split; [|split].
  - apply (proj1 (rate_limit_cap5_window60s Scenario.capped "user:alice"
                    eq_refl)
             Scenario.burst 1000 [2000; 3000; 4000; 5000; 6000]).
    + repeat constructor.
    + exact I.
    + reflexivity.
    + reflexivity.
    + repeat constructor; lia.
  - apply (proj1 (proj2 (rate_limit_cap5_window60s Scenario.afterBurst
                           "user:alice" eq_refl))
             7000 true {| count := 6; resetTime := 61000 |}).
    + reflexivity.
    + vm_compute. reflexivity.
    + simpl. lia.
    + simpl. lia.
  - apply (proj2 (proj2 (rate_limit_cap5_window60s Scenario.afterBurst
                           "user:alice" eq_refl))
             61001 true {| count := 6; resetTime := 61000 |}).
    + reflexivity.
    + vm_compute. reflexivity.
    + simpl. lia.
Defined.

End RateLimitFacts.

(** ** Rooms and presence *)

Section RoomFacts.
Import Server.

Lemma record_nil w : record [] w = w.
Proof. destruct w. unfold record. cbn. by rewrite app_nil_r. Qed.

Lemma record_record es1 es2 w :
  record es2 (record es1 w) = record (es1 ++ es2) w.
Proof. unfold record. cbn. by rewrite app_assoc. Qed.

Lemma with_state_id w : with_state (state w) w = w.
Proof. by destruct w. Qed.

Lemma effects_record {A} (m : M A) w r s es :
  m w = (r, record es (with_state s w)) → effects m w = es.
Proof.
  intros Hm. unfold effects, exec. rewrite Hm. cbn.
  by rewrite drop_app_length.
Qed.

Lemma state_record {A} (m : M A) w r s es :
  m w = (r, record es (with_state s w)) → state (exec m w) = s.
Proof. intros Hm. unfold exec. by rewrite Hm. Qed.

Lemma forEach_send env data exclude members w :
  forEach members (λ client,
    if bool_decide (Some client = exclude) then ret tt
    else try_catch (send env client data) (ret tt)) w
  = (Returned tt,
     record ((λ client, Sent client data)
               <$> filter (λ client, Some client ≠ exclude
                                     ∧ sendThrows env client = false) members)
            w).
Proof.
  revert w. induction members as [|c members IH]; intros w.
  { cbn. by rewrite record_nil. }
  cbn [forEach]. unfold bind at 1. rewrite filter_cons.
  destruct (decide (Some c = exclude)) as [Heq|Hne].
  - rewrite bool_decide_eq_true_2 by done. unfold ret at 1.
    rewrite IH. rewrite decide_False by tauto. done.
  - rewrite bool_decide_eq_false_2 by done.
    unfold try_catch, send. destruct (sendThrows env c) eqn:Hc.
    + unfold throw, ret at 1. rewrite IH.
      rewrite decide_False by (intros [_ ?]; done). done.
    + unfold emit. rewrite IH. rewrite decide_True by done.
      rewrite fmap_cons. unfold record. cbn. by rewrite <- app_assoc.
Qed.

Lemma broadcastToRoom_run env roomName data exclude fromRedis w :
  broadcastToRoom env roomName data exclude fromRedis w
  = (Returned tt,
     record (match rooms (state w) !! roomName with
             | Some room =>
                 fanout env roomName data exclude fromRedis (clients room)
             | None => []
             end) w).
Proof.
  unfold broadcastToRoom, bind at 1, get.
  destruct (rooms (state w) !! roomName) as [room|].
  - unfold bind. rewrite forEach_send. unfold fanout, publishBroadcast.
    destruct (redisEnabled env); cbn [andb negb].
    + destruct fromRedis; cbn [negb].
      * unfold ret. by rewrite app_nil_r.
      * unfold emit. unfold record. cbn. by rewrite app_assoc.
    + unfold ret. by rewrite app_nil_r.
  - unfold ret. by rewrite record_nil.
Qed.

Lemma joinRoom_run env ws roomName username w :
  let s' := enter ws roomName (state w) in
  let room := default {| name := roomName; clients := [] |}
                      (rooms s' !! roomName) in
  joinRoom env ws roomName username w
  = (Returned room,
     record (fanout env roomName
               (Out.user_joined username roomName (JsSet.size (clients room)))
               (Some ws) false (clients room))
            (with_state s' w)).
Proof.
  intros s' room. unfold joinRoom, bind, modify, get.
  rewrite broadcastToRoom_run. cbn [state]. fold s'.
  assert (rooms s' !! roomName = Some room) as Hroom.
  { unfold room, s', enter. cbn [rooms set_clientRooms set_rooms].
    by rewrite lookup_insert_eq. }
  rewrite Hroom. cbn [default]. unfold ret. done.
Qed.

Lemma leaveRoom_run env ws roomName w :
  leaveRoom env ws roomName w
  = (Returned tt,
     record (leaveEffects env ws roomName (state w))
            (with_state (depart ws roomName (state w)) w)).
Proof.
  unfold leaveRoom, leaveEffects, depart, bind at 1, get.
  destruct (rooms (state w) !! roomName) as [room|] eqn:Hroom.
  - unfold bind, modify. cbn [state limiter trace clients].
    destruct (bool_decide (JsSet.size (JsSet.delete ws (clients room)) = 0%nat)).
    + rewrite record_nil. unfold with_state. f_equal. f_equal.
      destruct (state w). unfold set_rooms, set_clientRooms. cbn.
      f_equal. by rewrite delete_insert_eq.
    + rewrite broadcastToRoom_run. cbn [state rooms set_rooms set_clientRooms].
      rewrite lookup_insert_eq. cbn [clients]. done.
  - unfold ret. by rewrite record_nil, with_state_id.
Qed.


(** JsSet *)
Lemma elem_of_add {A} `{EqDecision A} (x y : A) (l : list A) :
  y ∈ JsSet.add x l ↔ y = x ∨ y ∈ l.
Proof.
  unfold JsSet.add, JsSet.has. case_bool_decide.
  - naive_solver.
  - rewrite elem_of_app, list_elem_of_singleton. naive_solver.
Qed.

Lemma elem_of_delete {A} `{EqDecision A} (x y : A) (l : list A) :
  y ∈ JsSet.delete x l ↔ y ∈ l ∧ y ≠ x.
Proof. unfold JsSet.delete. rewrite list_elem_of_filter. naive_solver. Qed.

Lemma add_member {A} `{EqDecision A} (x : A) (l : list A) :
  x ∈ l → JsSet.add x l = l.
Proof. intros Hx. unfold JsSet.add, JsSet.has. by rewrite bool_decide_eq_true_2. Qed.

Lemma delete_not_member {A} `{EqDecision A} (x : A) (l : list A) :
  x ∉ l → JsSet.delete x l = l.
Proof.
  intros Hx. unfold JsSet.delete. induction l as [|y l IH]; [done|].
  rewrite filter_cons. rewrite not_elem_of_cons in Hx. destruct Hx as [Hne Hx].
  rewrite decide_True by done. by rewrite IH.
Qed.

Lemma size_zero {A} (l : list A) : JsSet.size l = 0%nat ↔ l = [].
Proof. unfold JsSet.size. by destruct l. Qed.

Lemma member_enter s ws roomName ws' roomName' :
  member (enter ws roomName s) ws' roomName'
  ↔ (ws' = ws ∧ roomName' = roomName) ∨ member s ws' roomName'.
Proof.
  unfold member, enter. cbn [rooms set_clientRooms set_rooms].
  destruct (decide (roomName' = roomName)) as [->|Hne].
  - rewrite lookup_insert_eq. split.
    + intros (room & [= <-] & Hin). cbn [clients] in Hin.
      apply elem_of_add in Hin as [->|Hin]; [by left|right].
      destruct (rooms s !! roomName) as [room|]; [by exists room|].
      cbn in Hin. by apply not_elem_of_nil in Hin.
    + intros [[-> _]|(room & Hroom & Hin)]; eexists; (split; [done|]);
        cbn [clients]; apply elem_of_add; [by left|right].
      by rewrite Hroom.
  - rewrite lookup_insert_ne by done. naive_solver.
Qed.

Lemma tracked_enter s ws roomName ws' roomName' :
  tracked (enter ws roomName s) ws' roomName'
  ↔ (ws' = ws ∧ roomName' = roomName) ∨ tracked s ws' roomName'.
Proof.
  unfold tracked, enter. cbn [clientRooms set_clientRooms set_rooms].
  destruct (decide (ws' = ws)) as [->|Hne].
  - rewrite lookup_insert_eq. split.
    + intros (mine & [= <-] & Hin).
      apply elem_of_add in Hin as [->|Hin]; [by left|right].
      destruct (clientRooms s !! ws) as [mine|]; [by exists mine|].
      cbn in Hin. by apply not_elem_of_nil in Hin.
    + intros [[_ ->]|(mine & Hmine & Hin)]; eexists; (split; [done|]);
        apply elem_of_add; [by left|right].
      by rewrite Hmine.
  - rewrite lookup_insert_ne by done. naive_solver.
Qed.

Lemma enter_noEmptyRoom s ws roomName :
  noEmptyRoom s → noEmptyRoom (enter ws roomName s).
Proof.
  intros Hs roomName' room. unfold enter. cbn [rooms set_clientRooms set_rooms].
  destruct (decide (roomName' = roomName)) as [->|Hne].
  - rewrite lookup_insert_eq. intros [= <-]. cbn [clients].
    intros Hnil. assert (ws ∈ JsSet.add ws (clients (default {| name := roomName; clients := [] |} (rooms s !! roomName)))) as Hin
      by (apply elem_of_add; by left).
    rewrite Hnil in Hin. by apply not_elem_of_nil in Hin.
  - rewrite lookup_insert_ne by done. apply Hs.
Qed.

Lemma enter_consistent s ws roomName :
  consistent s → consistent (enter ws roomName s).
Proof.
  intros Hs ws' roomName'. rewrite member_enter, tracked_enter.
  by rewrite (Hs ws' roomName').
Qed.

Lemma tracked_forget s ws roomName ws' roomName' :
  tracked (set_clientRooms (forget ws roomName) s) ws' roomName'
  ↔ tracked s ws' roomName' ∧ ¬ (ws' = ws ∧ roomName' = roomName).
Proof.
  unfold tracked, forget. cbn [clientRooms set_clientRooms].
  destruct (decide (ws' = ws)) as [->|Hne].
  - destruct (clientRooms s !! ws) as [mine|] eqn:Hmine.
    + rewrite lookup_insert_eq. split.
      * intros (? & [= <-] & Hin). apply elem_of_delete in Hin as [Hin Hne].
        split; [by exists mine|]. naive_solver.
      * intros [(mine' & [= <-] & Hin) Hne]. eexists; split; [done|].
        apply elem_of_delete. naive_solver.
    + rewrite Hmine. naive_solver.
  - destruct (clientRooms s !! ws) as [mine|] eqn:Hmine.
    + rewrite lookup_insert_ne by done. naive_solver.
    + naive_solver.
Qed.

Lemma member_depart s ws roomName ws' roomName' :
  is_Some (rooms s !! roomName) →
  member (depart ws roomName s) ws' roomName'
  ↔ member s ws' roomName' ∧ ¬ (ws' = ws ∧ roomName' = roomName).
Proof.
  intros [room Hroom]. unfold member, depart. rewrite Hroom.
  case_bool_decide as Hsize; cbn [rooms set_clientRooms set_rooms].
  - apply size_zero in Hsize.
    destruct (decide (roomName' = roomName)) as [->|Hne].
    + rewrite lookup_delete_eq. split; [naive_solver|].
      intros [(room' & Hroom' & Hin) Hne].
      assert (room' = room) as -> by congruence.
      assert (ws' ∈ JsSet.delete ws (clients room)) as Hin'
        by (apply elem_of_delete; naive_solver).
      rewrite Hsize in Hin'. by apply not_elem_of_nil in Hin'.
    + rewrite lookup_delete_ne by done. naive_solver.
  - destruct (decide (roomName' = roomName)) as [->|Hne].
    + rewrite lookup_insert_eq. split.
      * intros (? & [= <-] & Hin). cbn [clients] in Hin.
        apply elem_of_delete in Hin as [Hin Hne].
        split; [by exists room|]. naive_solver.
      * intros [(room' & Hroom' & Hin) Hne].
        assert (room' = room) as -> by congruence.
        eexists; split; [done|]. cbn [clients].
        apply elem_of_delete. naive_solver.
    + rewrite lookup_insert_ne by done. naive_solver.
Qed.

Lemma tracked_depart s ws roomName ws' roomName' :
  is_Some (rooms s !! roomName) →
  tracked (depart ws roomName s) ws' roomName'
  ↔ tracked s ws' roomName' ∧ ¬ (ws' = ws ∧ roomName' = roomName).
Proof.
  intros [room Hroom]. rewrite <- tracked_forget.
  unfold depart. rewrite Hroom. by case_bool_decide.
Qed.

Lemma depart_absent s ws roomName :
  rooms s !! roomName = None → depart ws roomName s = s.
Proof. intros Hroom. unfold depart. by rewrite Hroom. Qed.

Lemma depart_noEmptyRoom s ws roomName :
  noEmptyRoom s → noEmptyRoom (depart ws roomName s).
Proof.
  intros Hs roomName' room'. unfold depart.
  destruct (rooms s !! roomName) as [room|] eqn:Hroom; [|apply Hs].
  case_bool_decide as Hsize; cbn [rooms set_clientRooms set_rooms].
  - destruct (decide (roomName' = roomName)) as [->|Hne].
    + by rewrite lookup_delete_eq.
    + rewrite lookup_delete_ne by done. apply Hs.
  - destruct (decide (roomName' = roomName)) as [->|Hne].
    + rewrite lookup_insert_eq. intros [= <-]. cbn [clients].
      by rewrite <- size_zero.
    + rewrite lookup_insert_ne by done. apply Hs.
Qed.

Lemma depart_consistent s ws roomName :
  consistent s → consistent (depart ws roomName s).
Proof.
  intros Hs ws' roomName'.
  destruct (rooms s !! roomName) as [room|] eqn:Hroom.
  - rewrite member_depart, tracked_depart by done. by rewrite (Hs ws' roomName').
  - by rewrite depart_absent.
Qed.


(** A property of the maps that [enter], [depart] and the writes to the
    other maps preserve is kept by every handler. *)
Section Keeps.
Variable P : State → Prop.
Hypothesis P_enter : ∀ ws roomName s, P s → P (enter ws roomName s).
Hypothesis P_depart : ∀ ws roomName s, P s → P (depart ws roomName s).
Hypothesis P_clientData : ∀ f s, P s → P (set_clientData f s).
Hypothesis P_userIdToSocket : ∀ f s, P s → P (set_userIdToSocket f s).
Hypothesis P_typingUsers : ∀ f s, P s → P (set_typingUsers f s).

Lemma keeps_ret {A} (a : A) : keeps P (ret a).
Proof. by intros w. Qed.

Lemma keeps_throw {A} : keeps P (@throw A).
Proof. by intros w. Qed.

Lemma keeps_get : keeps P get.
Proof. by intros w. Qed.

Lemma keeps_emit e : keeps P (emit e).
Proof. by intros w. Qed.

Lemma keeps_send env ws m : keeps P (send env ws m).
Proof. intros w. unfold send. by destruct (sendThrows env ws). Qed.

Lemma keeps_bind {A B} (m : M A) (k : A → M B) :
  keeps P m → (∀ a, keeps P (k a)) → keeps P (bind m k).
Proof.
  intros Hm Hk w Hw. unfold bind. specialize (Hm w Hw).
  destruct (m w) as [[a|] w']; [by apply Hk | done].
Qed.

Lemma keeps_try_catch (body handler : M unit) :
  keeps P body → keeps P handler → keeps P (try_catch body handler).
Proof.
  intros Hb Hh w Hw. unfold try_catch. specialize (Hb w Hw).
  destruct (body w) as [[a|] w']; [done | by apply Hh].
Qed.

Lemma keeps_forEach {A} (l : list A) (body : A → M unit) :
  (∀ x, keeps P (body x)) → keeps P (forEach l body).
Proof.
  intros Hbody. induction l as [|x l IH]; cbn [forEach].
  - apply keeps_ret.
  - apply keeps_bind; [apply Hbody | by intros _].
Qed.

Lemma keeps_modify (f : State → State) :
  (∀ s, P s → P (f s)) → keeps P (modify f).
Proof. intros Hf w Hw. by apply Hf. Qed.

Lemma keeps_broadcastToRoom env roomName data exclude fromRedis :
  keeps P (broadcastToRoom env roomName data exclude fromRedis).
Proof. intros w Hw. by rewrite broadcastToRoom_run. Qed.

Lemma keeps_joinRoom env ws roomName username :
  keeps P (joinRoom env ws roomName username).
Proof.
  intros w Hw. rewrite joinRoom_run. cbn [snd state record with_state].
  by apply P_enter.
Qed.

Lemma keeps_leaveRoom env ws roomName : keeps P (leaveRoom env ws roomName).
Proof.
  intros w Hw. rewrite leaveRoom_run. cbn [snd state record with_state].
  by apply P_depart.
Qed.

Lemma keeps_rateLimit env ws : keeps P (rateLimit env ws).
Proof.
  intros w Hw. unfold rateLimit.
  by destruct (RateLimit.rateLimitWebSocket _ _ _).
Qed.

Lemma keeps_save env d : keeps P (save env d).
Proof.
  unfold save. destruct (saveMessage env d); [|apply keeps_throw].
  apply keeps_bind; [apply keeps_emit | intros _; apply keeps_ret].
Qed.

Lemma keeps_queue env m : keeps P (queue env m).
Proof.
  unfold queue. destruct (queueThrows env); [apply keeps_throw | apply keeps_emit].
Qed.

Ltac keeps_step :=
  first
    [ apply keeps_ret | apply keeps_throw | apply keeps_get
    | apply keeps_emit | apply keeps_send | apply keeps_save
    | apply keeps_queue | apply keeps_rateLimit
    | apply keeps_broadcastToRoom | apply keeps_joinRoom
    | apply keeps_leaveRoom
    | apply keeps_bind | apply keeps_try_catch | apply keeps_forEach
    | apply keeps_modify;
      first [ apply P_clientData | apply P_userIdToSocket
            | apply P_typingUsers ]
    | progress intros
    | match goal with
      | |- keeps _ (match ?x with _ => _ end) => destruct x
      end ].

Ltac keeps_auto := repeat keeps_step.

Lemma keeps_setTyping env roomName username isTyping :
  keeps P (setTyping env roomName username isTyping).
Proof. unfold setTyping. keeps_auto. Qed.

Lemma keeps_dispatch env ws data : keeps P (dispatch env ws data).
Proof.
  destruct data; cbn [dispatch];
    unfold on_join, on_leave, on_message, on_dm, on_signal, on_message_seen,
      on_star_message, on_pin_message, on_typing, on_get_rooms, on_get_users,
      on_init_keys, on_get_bundle, on_encrypted_dm, on_decrypt_message, await,
      reply_error, publishSignal;
    keeps_auto; apply keeps_setTyping.
Qed.

Lemma keeps_message env ws data : keeps P (message env ws data).
Proof. unfold message, reply_error. keeps_auto. apply keeps_dispatch. Qed.

Lemma keeps_close env ws : keeps P (close env ws).
Proof. unfold close. keeps_auto. Qed.

Lemma keeps_subscriber env frame :
  keeps P (subscriber env (onRelayed env) frame).
Proof. unfold subscriber, onRelayed. keeps_auto. Qed.

Lemma keeps_perform env a : keeps P (perform env a).
Proof.
  destruct a; cbn [perform].
  - apply keeps_message.
  - apply keeps_close.
  - unfold onRedisMessage. destruct (negb (redisEnabled env)).
    + apply keeps_ret.
    + apply keeps_subscriber.
Qed.

Lemma keeps_reachable w : P initial → reachable w → P (state w).
Proof.
  intros Hinit [rl Hrtc]. revert w Hrtc. apply rtc_ind_r; [done|].
  intros w w' _ (env & a & ->) Hw. by apply keeps_perform.
Qed.

End Keeps.

Lemma invariant_initial : invariant initial.
Proof.
  split.
  - intros roomName room Hroom. cbn in Hroom. by rewrite lookup_empty in Hroom.
  - intros ws roomName. unfold member, tracked. cbn.
    split; intros (x & Hx & _); by rewrite lookup_empty in Hx.
Qed.

Lemma invariant_enter ws roomName s :
  invariant s → invariant (enter ws roomName s).
Proof.
  intros [Hne Hco]. split; [by apply enter_noEmptyRoom | by apply enter_consistent].
Qed.

Lemma invariant_depart ws roomName s :
  invariant s → invariant (depart ws roomName s).
Proof.
  intros [Hne Hco].
  split; [by apply depart_noEmptyRoom | by apply depart_consistent].
Qed.

Lemma invariant_keeps env a : keeps invariant (perform env a).
Proof.
  apply keeps_perform;
    [apply invariant_enter | apply invariant_depart | by intros ? ? [? ?]..].
Qed.

Lemma reachable_invariant w : reachable w → invariant (state w).
Proof.
  apply keeps_reachable;
    [apply invariant_enter | apply invariant_depart | by intros ? ? [? ?]..
    | apply invariant_initial].
Qed.

(** The lists that stand for the client sets and the room sets hold no
    element twice, so [JsSet.size] counts members. *)
Lemma NoDup_add {A} `{EqDecision A} (x : A) (l : list A) :
  NoDup l → NoDup (JsSet.add x l).
Proof.
  intros Hl. unfold JsSet.add, JsSet.has. case_bool_decide; [done|].
  apply NoDup_app. split; [done|]. split; [|apply NoDup_singleton].
  intros y Hy ->%list_elem_of_singleton. done.
Qed.

Lemma NoDup_delete {A} `{EqDecision A} (x : A) (l : list A) :
  NoDup l → NoDup (JsSet.delete x l).
Proof. apply NoDup_filter. Qed.

Lemma distinct_enter ws roomName s : distinct s → distinct (enter ws roomName s).
Proof.
  intros [Hrooms Hmine]. unfold enter.
  split; cbn [rooms clientRooms set_clientRooms set_rooms].
  - intros roomName' room'. destruct (decide (roomName' = roomName)) as [->|Hne].
    + rewrite lookup_insert_eq. intros [= <-]. cbn [clients]. apply NoDup_add.
      destruct (rooms s !! roomName) as [room|] eqn:Hroom; cbn [default clients].
      * by eapply Hrooms.
      * apply NoDup_nil_2.
    + rewrite lookup_insert_ne by done. apply Hrooms.
  - intros ws' mine'. destruct (decide (ws' = ws)) as [->|Hne].
    + rewrite lookup_insert_eq. intros [= <-]. apply NoDup_add.
      destruct (clientRooms s !! ws) as [mine|] eqn:Hws; cbn [default].
      * by eapply Hmine.
      * apply NoDup_nil_2.
    + rewrite lookup_insert_ne by done. apply Hmine.
Qed.

Lemma distinct_depart ws roomName s : distinct s → distinct (depart ws roomName s).
Proof.
  intros [Hrooms Hmine]. unfold depart.
  destruct (rooms s !! roomName) as [room|] eqn:Hroom; [|done].
  assert (∀ ws' mine',
            forget ws roomName (clientRooms s) !! ws' = Some mine' → NoDup mine')
    as Hforget.
  { intros ws' mine'. unfold forget.
    destruct (clientRooms s !! ws) as [mine|] eqn:Hws; [|apply Hmine].
    destruct (decide (ws' = ws)) as [->|Hne].
    - rewrite lookup_insert_eq. intros [= <-]. apply NoDup_delete. by eapply Hmine.
    - rewrite lookup_insert_ne by done. apply Hmine. }
  case_bool_decide; (split; [|exact Hforget]);
    cbn [rooms set_clientRooms set_rooms]; intros roomName' room'.
  - destruct (decide (roomName' = roomName)) as [->|Hne].
    + by rewrite lookup_delete_eq.
    + rewrite lookup_delete_ne by done. apply Hrooms.
  - destruct (decide (roomName' = roomName)) as [->|Hne].
    + rewrite lookup_insert_eq. intros [= <-]. cbn [clients].
      apply NoDup_delete. by eapply Hrooms.
    + rewrite lookup_insert_ne by done. apply Hrooms.
Qed.

Lemma reachable_distinct w : reachable w → distinct (state w).
Proof.
  apply keeps_reachable;
    [apply distinct_enter | apply distinct_depart | by intros ? ? [? ?]..|].
  split; intros k v Hk; cbn in Hk; by rewrite lookup_empty in Hk.
Qed.

Lemma rooms_depart_ne s ws roomName roomName' :
  roomName' ≠ roomName →
  rooms (depart ws roomName s) !! roomName' = rooms s !! roomName'.
Proof.
  intros Hne. unfold depart. destruct (rooms s !! roomName); [|done].
  cbn zeta. case_bool_decide; cbn [rooms set_rooms set_clientRooms].
  - by rewrite lookup_delete_ne.
  - by rewrite lookup_insert_ne.
Qed.

Lemma clientData_depart s ws roomName :
  clientData (depart ws roomName s) = clientData s.
Proof.
  unfold depart. destruct (rooms s !! roomName); [|done].
  cbn zeta. by case_bool_decide.
Qed.

(** A socket enters a room only in [join], after its identity has been
    recorded, and [clientData] never loses an entry: every client of a room
    has an identity. The first steps of the [join] branch break the
    hypotheses of [Keeps] one by one and keep the property together. *)
Lemma identified_initial : identified initial.
Proof.
  intros ws roomName (room & Hroom & _). cbn in Hroom.
  by rewrite lookup_empty in Hroom.
Qed.

Lemma identified_depart ws roomName s :
  identified s → identified (depart ws roomName s).
Proof.
  intros Hs ws' roomName' Hmem. rewrite clientData_depart.
  apply (Hs ws' roomName').
  destruct (rooms s !! roomName) as [room|] eqn:Hroom.
  - apply member_depart in Hmem; [by destruct Hmem | done].
  - by rewrite depart_absent in Hmem.
Qed.

Lemma identified_userIdToSocket f s :
  identified s → identified (set_userIdToSocket f s).
Proof. intros Hs ws roomName Hmem. exact (Hs ws roomName Hmem). Qed.

Lemma identified_typingUsers f s :
  identified s → identified (set_typingUsers f s).
Proof. intros Hs ws roomName Hmem. exact (Hs ws roomName Hmem). Qed.

Lemma identified_join ws userData userId roomName s :
  identified s →
  identified (enter ws roomName
                (set_userIdToSocket (<[userId := ws]>)
                   (set_clientData (<[ws := userData]>) s))).
Proof.
  intros Hs ws' roomName' Hmem. apply member_enter in Hmem.
  change (is_Some (<[ws := userData]> (clientData s) !! ws')).
  destruct (decide (ws' = ws)) as [->|Hne].
  - rewrite lookup_insert_eq. by eexists.
  - rewrite lookup_insert_ne by done.
    destruct Hmem as [[? _]|Hmem]; [done|]. exact (Hs ws' roomName' Hmem).
Qed.

Lemma bind_modify {B} (f : State → State) (k : unit → M B) w :
  bind (modify f) k w = k tt (with_state (f (state w)) w).
Proof. done. Qed.

Lemma bind_run {A B} (m : M A) (k : A → M B) w a w' :
  m w = (Returned a, w') → bind m k w = k a w'.
Proof. intros Hm. unfold bind. by rewrite Hm. Qed.

Ltac identified_auto :=
  repeat first
    [ apply keeps_ret | apply keeps_throw | apply keeps_get
    | apply keeps_emit | apply keeps_send | apply keeps_save
    | apply keeps_queue | apply keeps_rateLimit
    | apply keeps_broadcastToRoom
    | apply keeps_leaveRoom; apply identified_depart
    | apply keeps_setTyping; apply identified_typingUsers
    | apply keeps_bind | apply keeps_try_catch | apply keeps_forEach
    | progress intros
    | match goal with
      | |- keeps _ (match ?x with _ => _ end) => destruct x
      end ].

Lemma identified_on_join env ws username room userId :
  keeps identified (on_join env ws username room userId).
Proof.
  unfold on_join, reply_error. cbn zeta.
  destruct (negb (Security.isValidUsername _)); [apply keeps_send|].
  destruct (negb (Security.isValidRoomName _)); [apply keeps_send|].
  destruct (negb (Security.isValidUserId _)); [apply keeps_send|].
  intros w Hw. rewrite !bind_modify. cbv beta.
  rewrite (bind_run _ _ _ _ _ (joinRoom_run _ _ _ _ _)).
  match goal with
  | |- identified (state (?rest ?w').2) =>
      assert (keeps identified rest) as Hrest by identified_auto;
      apply (Hrest w')
  end.
  cbn [state record with_state]. by apply identified_join.
Qed.

Lemma identified_dispatch env ws data :
  keeps identified (dispatch env ws data).
Proof.
  destruct data; cbn [dispatch]; [apply identified_on_join|..];
    unfold on_leave, on_message, on_dm, on_signal, on_message_seen,
      on_star_message, on_pin_message, on_typing, on_get_rooms, on_get_users,
      on_init_keys, on_get_bundle, on_encrypted_dm, on_decrypt_message, await,
      reply_error, publishSignal;
    identified_auto.
Qed.

Lemma identified_perform env a : keeps identified (perform env a).
Proof.
  destruct a; cbn [perform].
  - unfold message, reply_error. identified_auto. apply identified_dispatch.
  - apply keeps_close;
      [apply identified_depart | apply identified_userIdToSocket].
  - unfold onRedisMessage. destruct (negb (redisEnabled env)).
    + apply keeps_ret.
    + apply keeps_subscriber.
Qed.

Lemma reachable_identified w : reachable w → identified (state w).
Proof.
  intros [rl Hrtc]. revert w Hrtc. apply rtc_ind_r.
  - apply identified_initial.
  - intros w w' _ (env & a & ->) Hw. by apply identified_perform.
Qed.

Lemma elem_of_getRoomList s roomName :
  roomName ∈ (getRoomList s).*1 ↔ is_Some (rooms s !! roomName).
Proof.
  unfold getRoomList. rewrite <- list_fmap_compose.
  rewrite list_elem_of_fmap. split.
  - intros ([k room] & -> & Hin). apply elem_of_map_to_list in Hin. by exists room.
  - intros [room Hroom]. exists (roomName, room). split; [done|].
    by apply elem_of_map_to_list.
Qed.

Lemma getRoomList_counts s roomName n :
  (roomName, n) ∈ getRoomList s →
  ∃ room, rooms s !! roomName = Some room ∧ n = JsSet.size (clients room).
Proof.
  unfold getRoomList. rewrite list_elem_of_fmap.
  intros ([k room] & [= -> ->] & Hin). apply elem_of_map_to_list in Hin.
  by exists room.
Qed.

(** C5. In every reachable world no room has an empty client set, and
    [getRoomList] reports no room with zero users. When [ws] is the only
    client of [roomName], [leaveRoom(ws, roomName)] deletes the room:
    [getRoomList] no longer lists it, and again no room is empty. *)
Theorem no_empty_room (w : World) :
  reachable w →
  (∀ roomName room,
      rooms (state w) !! roomName = Some room → clients room ≠ [])
  ∧ (∀ roomName n, (roomName, n) ∈ getRoomList (state w) → n ≠ 0%nat)
  ∧ (∀ env ws roomName room,
      rooms (state w) !! roomName = Some room →
      ws ∈ clients room → (∀ client, client ∈ clients room → client = ws) →
      let w' := exec (leaveRoom env ws roomName) w in
      rooms (state w') !! roomName = None
      ∧ (roomName ∉ (getRoomList (state w')).*1)
      ∧ (∀ roomName' room',
           rooms (state w') !! roomName' = Some room' → clients room' ≠ [])).
Proof.
  intros Hw. pose proof (reachable_invariant w Hw) as [Hne Hco].
  split; [exact Hne | split].
  - intros roomName n (room & Hroom & ->)%getRoomList_counts.
    rewrite size_zero. by eapply Hne.
  - intros env ws roomName room Hroom Hin Honly w'.
    assert (rooms (state w') !! roomName = None) as Hgone.
    { unfold w', exec. rewrite leaveRoom_run. cbn [snd state record with_state].
      unfold depart. rewrite Hroom.
      assert (JsSet.delete ws (clients room) = []) as ->.
      { apply elem_of_nil_inv. intros c [Hc Hcne]%elem_of_delete.
        by apply Hcne, Honly. }
      rewrite bool_decide_eq_true_2 by done. cbn. by rewrite lookup_delete_eq. }
    split; [done|split].
    + rewrite elem_of_getRoomList, Hgone. by intros [? ?].
    + assert (state w' = depart ws roomName (state w)) as ->
        by (unfold w', exec; by rewrite leaveRoom_run).
      apply (proj1 (invariant_depart ws roomName (state w) (conj Hne Hco))).
Qed.

Lemma forEach_leaveRoom_state env ws l w :
  ∃ es, forEach l (λ roomName, leaveRoom env ws roomName) w
        = (Returned tt,
           record es (with_state (foldl (λ s r, depart ws r s) (state w) l) w)).
Proof.
  revert w. induction l as [|r l IH]; intros w.
  - exists []. cbn. unfold ret. by rewrite record_nil, with_state_id.
  - cbn [forEach foldl]. unfold bind. rewrite leaveRoom_run.
    destruct (IH (record (leaveEffects env ws r (state w))
                    (with_state (depart ws r (state w)) w))) as [es ->].
    exists (leaveEffects env ws r (state w) ++ es).
    unfold record, with_state. cbn. by rewrite app_assoc.
Qed.

Lemma fold_depart_invariant ws l s :
  invariant s → invariant (foldl (λ s r, depart ws r s) s l).
Proof.
  revert s. induction l as [|r l IH]; intros s Hs; [done|].
  cbn [foldl]. apply IH. destruct Hs.
  split; [by apply depart_noEmptyRoom | by apply depart_consistent].
Qed.

Lemma fold_depart_tracked ws l s roomName :
  invariant s →
  tracked (foldl (λ s r, depart ws r s) s l) ws roomName →
  tracked s ws roomName ∧ roomName ∉ l.
Proof.
  revert s. induction l as [|r l IH]; intros s Hs Htr.
  { split; [done | apply not_elem_of_nil]. }
  cbn [foldl] in Htr. apply IH in Htr as [Htr Hnotin].
  2:{ destruct Hs. split; [by apply depart_noEmptyRoom | by apply depart_consistent]. }
  destruct (rooms s !! r) as [room|] eqn:Hroom.
  - apply tracked_depart in Htr as [Htr Hne]; [|done].
    split; [done|]. apply not_elem_of_cons. naive_solver.
  - rewrite depart_absent in Htr by done. split; [done|].
    apply not_elem_of_cons. split; [|done]. intros ->.
    destruct Hs as [_ Hco]. apply Hco in Htr as (room & Hroom' & _). congruence.
Qed.

Lemma close_state env ws w :
  state (exec (close env ws) w)
  = (match clientData (state w) !! ws with
     | Some userData => set_userIdToSocket (delete (userId userData))
     | None => λ s, s
     end) (foldl (λ s r, depart ws r s) (state w) (cascade (state w) ws)).
Proof.
  unfold exec, close, bind at 1, get, cascade. unfold bind.
  destruct (clientRooms (state w) !! ws) as [l|]; cbn [default].
  - destruct (forEach_leaveRoom_state env ws l w) as [es ->].
    destruct (clientData (state w) !! ws); done.
  - unfold ret. destruct (clientData (state w) !! ws); done.
Qed.

Lemma leaveEffects_depart_ne env ws roomName roomName' s :
  roomName' ≠ roomName →
  leaveEffects env ws roomName' (depart ws roomName s)
  = leaveEffects env ws roomName' s.
Proof.
  intros Hne. unfold leaveEffects.
  by rewrite rooms_depart_ne, clientData_depart.
Qed.

(** The loop of [close] over rooms that are all different: each
    [leaveRoom] sends what it would send from the maps the loop started
    with, since leaving a room changes no other room. *)
Lemma forEach_leaveRoom_run env ws l w :
  NoDup l →
  forEach l (λ roomName, leaveRoom env ws roomName) w
  = (Returned tt,
     record (List.concat ((λ r, leaveEffects env ws r (state w)) <$> l))
            (with_state (foldl (λ s r, depart ws r s) (state w) l) w)).
Proof.
  revert w. induction l as [|r l IH]; intros w Hl.
  - cbn. unfold ret. by rewrite record_nil, with_state_id.
  - apply NoDup_cons in Hl as [Hr Hl].
    cbn [forEach foldl]. unfold bind. rewrite leaveRoom_run.
    rewrite IH by done. cbn [state record with_state].
    assert ((λ r', leaveEffects env ws r' (depart ws r (state w))) <$> l
            = (λ r', leaveEffects env ws r' (state w)) <$> l) as ->.
    { apply Forall_fmap_ext_1, Forall_forall. intros r' Hr'.
      apply leaveEffects_depart_ne. by intros ->. }
    rewrite fmap_cons. cbn [List.concat].
    unfold record, with_state. cbn. by rewrite app_assoc.
Qed.

Lemma close_run env ws w :
  NoDup (cascade (state w) ws) →
  close env ws w
  = (Returned tt,
     record (List.concat ((λ r, leaveEffects env ws r (state w))
                            <$> cascade (state w) ws))
            (with_state
               ((match clientData (state w) !! ws with
                 | Some userData => set_userIdToSocket (delete (userId userData))
                 | None => λ s, s
                 end) (foldl (λ s r, depart ws r s) (state w)
                         (cascade (state w) ws))) w)).
Proof.
  unfold close, bind at 1, get, cascade. unfold bind.
  destruct (clientRooms (state w) !! ws) as [l|]; cbn [default]; intros Hl.
  - rewrite forEach_leaveRoom_run by done.
    destruct (clientData (state w) !! ws); done.
  - unfold ret. cbn [fmap list_fmap List.concat foldl].
    rewrite record_nil.
    destruct (clientData (state w) !! ws); [done|].
    by rewrite with_state_id.
Qed.

Lemma fold_depart_member ws l s ws' roomName :
  ws' ≠ ws →
  member (foldl (λ s r, depart ws r s) s l) ws' roomName
  ↔ member s ws' roomName.
Proof.
  intros Hne. revert s. induction l as [|r l IH]; intros s; [done|].
  cbn [foldl]. rewrite IH.
  destruct (rooms s !! r) as [room|] eqn:Hroom.
  - rewrite member_depart by done. naive_solver.
  - by rewrite depart_absent.
Qed.

Lemma fold_depart_rooms ws l s roomName :
  roomName ∉ l →
  rooms (foldl (λ s r, depart ws r s) s l) !! roomName = rooms s !! roomName.
Proof.
  revert s. induction l as [|r l IH]; intros s Hnotin; [done|].
  apply not_elem_of_cons in Hnotin as [Hne Hnotin].
  cbn [foldl]. rewrite IH by done. by apply rooms_depart_ne.
Qed.

Lemma elem_of_concat {A} (x : A) (ls : list (list A)) :
  x ∈ List.concat ls ↔ ∃ l, x ∈ l ∧ l ∈ ls.
Proof.
  induction ls as [|l ls IH]; cbn [List.concat].
  - split; [by intros ?%not_elem_of_nil|].
    by intros (l & _ & ?%not_elem_of_nil).
  - rewrite elem_of_app, IH. setoid_rewrite elem_of_cons. naive_solver.
Qed.

Lemma elem_of_fanout env roomName data exclude fromRedis members client m :
  Sent client m ∈ fanout env roomName data exclude fromRedis members
  ↔ m = data ∧ client ∈ members ∧ Some client ≠ exclude
    ∧ sendThrows env client = false.
Proof.
  unfold fanout. rewrite elem_of_app, list_elem_of_fmap. split.
  - intros [(c & [= -> ->] & Hc)|Hpub].
    + apply list_elem_of_filter in Hc. naive_solver.
    + destruct (_ && _); [|by apply not_elem_of_nil in Hpub].
      by apply list_elem_of_singleton in Hpub.
  - intros (-> & Hin & Hex & Hsend). left. exists client.
    split; [done|]. by apply list_elem_of_filter.
Qed.

(** C10. In every reachable world [ws] is a client of the room [roomName]
    exactly when [roomName] is in the room set [clientRooms] keeps for [ws].
    So the rooms [close(ws)] visits, each once, are exactly the rooms [ws]
    is in: its final maps are those of leaving these rooms one after the
    other (and dropping the presence entry), and what it sends is what
    [leaveRoom] sends for each of them. After it [ws] is in no room; the
    memberships of the other sockets, and the rooms [ws] was not in, are
    as before; [user_left] goes to every remaining client of a room [ws]
    was in whose socket takes it, and nothing goes to anyone who shared no
    room with [ws]. *)
Theorem membership_consistent (w : World) :
  reachable w →
  (∀ ws roomName,
      member (state w) ws roomName ↔ tracked (state w) ws roomName)
  ∧ (∀ ws,
      NoDup (cascade (state w) ws)
      ∧ ∀ roomName,
          roomName ∈ cascade (state w) ws ↔ member (state w) ws roomName)
  ∧ (∀ env ws,
      state (exec (close env ws) w)
      = (match clientData (state w) !! ws with
         | Some userData => set_userIdToSocket (delete (userId userData))
         | None => λ s, s
         end) (foldl (λ s r, depart ws r s) (state w) (cascade (state w) ws))
      ∧ effects (close env ws) w
        = List.concat ((λ r, leaveEffects env ws r (state w))
                         <$> cascade (state w) ws)
      ∧ (∀ roomName, ¬ member (state (exec (close env ws) w)) ws roomName)
      ∧ (∀ ws' roomName,
           ws' ≠ ws →
           member (state (exec (close env ws) w)) ws' roomName
           ↔ member (state w) ws' roomName)
      ∧ (∀ roomName,
           ¬ member (state w) ws roomName →
           rooms (state (exec (close env ws) w)) !! roomName
           = rooms (state w) !! roomName)
      ∧ (∀ roomName room client,
           rooms (state w) !! roomName = Some room →
           ws ∈ clients room → client ∈ clients room → client ≠ ws →
           sendThrows env client = false →
           Sent client
             (Out.user_left (displayName (clientData (state w) !! ws))
                roomName (JsSet.size (JsSet.delete ws (clients room))))
           ∈ effects (close env ws) w)
      ∧ (∀ client m,
           Sent client m ∈ effects (close env ws) w →
           client ≠ ws
           ∧ ∃ roomName,
               member (state w) ws roomName
               ∧ member (state w) client roomName)).
Proof.
  intros Hw. pose proof (reachable_invariant w Hw) as [Hne Hco].
  pose proof (reachable_distinct w Hw) as [_ Hmine].
  assert (∀ ws roomName,
            roomName ∈ cascade (state w) ws ↔ tracked (state w) ws roomName)
    as Hcascade.
  { intros ws roomName. unfold cascade, tracked.
    destruct (clientRooms (state w) !! ws) as [mine|]; cbn [default].
    - naive_solver.
    - split; [by intros ?%not_elem_of_nil | naive_solver]. }
  assert (∀ ws roomName,
            roomName ∈ cascade (state w) ws ↔ member (state w) ws roomName)
    as Hvisit.
  { intros ws roomName. rewrite Hcascade. symmetry. apply Hco. }
  assert (∀ ws, NoDup (cascade (state w) ws)) as Hnodup.
  { intros ws. unfold cascade.
    destruct (clientRooms (state w) !! ws) as [mine|] eqn:Hws; cbn [default].
    - by eapply Hmine.
    - apply NoDup_nil_2. }
  split; [exact Hco | split; [by split|]].
  intros env ws. pose proof (close_run env ws w (Hnodup ws)) as Hrun.
  rewrite (state_record _ _ _ _ _ Hrun), (effects_record _ _ _ _ _ Hrun).
  assert (∀ s ws' roomName,
            member ((match clientData (state w) !! ws with
                     | Some userData =>
                         set_userIdToSocket (delete (userId userData))
                     | None => λ s, s
                     end) s) ws' roomName ↔ member s ws' roomName) as Hdrop
    by (intros; by destruct (clientData (state w) !! ws)).
  assert (∀ s roomName,
            rooms ((match clientData (state w) !! ws with
                    | Some userData =>
                        set_userIdToSocket (delete (userId userData))
                    | None => λ s, s
                    end) s) !! roomName = rooms s !! roomName) as Hrooms
    by (intros; by destruct (clientData (state w) !! ws)).
  split; [done | split; [done|]].
  split; [|split; [|split; [|split]]].
  - intros roomName Hmem. apply (proj1 (Hdrop _ _ _)) in Hmem.
    assert (invariant (foldl (λ s r, depart ws r s) (state w)
                         (cascade (state w) ws))) as [_ Hco']
      by (apply fold_depart_invariant; by split).
    apply (proj1 (Hco' ws roomName)) in Hmem.
    apply fold_depart_tracked in Hmem as [Htr Hnotin]; [|by split].
    by apply Hnotin, Hcascade.
  - intros ws' roomName Hws'. rewrite Hdrop. by apply fold_depart_member.
  - intros roomName Hmem. rewrite Hrooms. apply fold_depart_rooms.
    by rewrite Hvisit.
  - intros roomName room client Hroom Hws Hclient Hother Hsend.
    apply elem_of_concat.
    exists (leaveEffects env ws roomName (state w)). split.
    + unfold leaveEffects. rewrite Hroom. cbn zeta.
      assert (client ∈ JsSet.delete ws (clients room)) as Hrest
        by by apply elem_of_delete.
      rewrite bool_decide_eq_false_2.
      * apply elem_of_fanout. by repeat split.
      * rewrite size_zero. intros Hnil. rewrite Hnil in Hrest.
        by apply not_elem_of_nil in Hrest.
    + apply list_elem_of_fmap. exists roomName. split; [done|].
      apply Hvisit. by exists room.
  - intros client m (es & Hin & (roomName & -> & Hroom)%list_elem_of_fmap)
      %elem_of_concat.
    apply Hvisit in Hroom as Hmem. unfold leaveEffects in Hin.
    destruct (rooms (state w) !! roomName) as [room|] eqn:Hlook;
      [|by apply not_elem_of_nil in Hin].
    cbn zeta in Hin. case_bool_decide; [by apply not_elem_of_nil in Hin|].
    apply elem_of_fanout in Hin as (_ & [Hclient Hother]%elem_of_delete & _).
    split; [done|]. exists roomName. split; [done|]. by exists room.
Qed.


Lemma received_sends (data : Out.t) (l : list conn) (client : conn) :
  NoDup l →
  received client ((λ c, Sent c data) <$> l)
  = if bool_decide (client ∈ l) then [data] else [].
Proof.
  induction l as [|c l IH]; intros Hl; [done|].
  apply NoDup_cons in Hl as [Hc Hl]. specialize (IH Hl).
  unfold received in *. cbn [fmap list_fmap omap list_omap].
  destruct (decide (c = client)) as [->|Hne].
  - rewrite IH, (bool_decide_eq_false_2 (client ∈ l)) by done.
    rewrite bool_decide_eq_true_2; [done | by left].
  - rewrite IH.
    rewrite (bool_decide_ext (client ∈ c :: l) (client ∈ l)); [done|].
    rewrite elem_of_cons. naive_solver.
Qed.

(** Who receives a broadcast: each client of the room, once, unless it is
    excluded or its socket throws. *)
Lemma received_fanout env roomName data exclude fromRedis members client :
  NoDup members →
  received client (fanout env roomName data exclude fromRedis members)
  = if bool_decide (client ∈ members ∧ Some client ≠ exclude
                    ∧ sendThrows env client = false)
    then [data] else [].
Proof.
  intros Hmembers. unfold fanout.
  assert (∀ es1 es2, received client (es1 ++ es2)
                     = received client es1 ++ received client es2) as Happ
    by (intros; unfold received; apply omap_app).
  rewrite Happ, received_sends by by apply NoDup_filter.
  assert (received client
            (if redisEnabled env && negb fromRedis
             then [Published (Broadcast (instanceId env) roomName data)]
             else []) = []) as -> by by destruct (_ && _).
  rewrite app_nil_r.
  erewrite bool_decide_ext; [done|].
  rewrite list_elem_of_filter. naive_solver.
Qed.

Lemma room_eta room : {| name := name room; clients := clients room |} = room.
Proof. by destruct room. Qed.

Lemma enter_member s ws roomName :
  invariant s → member s ws roomName → enter ws roomName s = s.
Proof.
  intros [_ Hco] Hmem. pose proof (proj1 (Hco _ _) Hmem) as (mine & Hmine & Hin).
  destruct Hmem as (room & Hroom & Hws).
  unfold enter. rewrite Hroom, Hmine. cbn [default].
  rewrite !add_member by done. rewrite room_eta.
  destruct s. unfold set_clientRooms, set_rooms. cbn in *.
  f_equal; by apply insert_id.
Qed.

Lemma depart_non_member s ws roomName :
  invariant s → ¬ member s ws roomName → depart ws roomName s = s.
Proof.
  intros [Hne Hco] Hmem. unfold depart.
  destruct (rooms s !! roomName) as [room|] eqn:Hroom; [|done].
  assert (ws ∉ clients room) as Hws by (intros ?; apply Hmem; by exists room).
  rewrite delete_not_member by done.
  rewrite bool_decide_eq_false_2 by (rewrite size_zero; by eapply Hne).
  rewrite room_eta.
  assert (forget ws roomName (clientRooms s) = clientRooms s) as Hforget.
  { unfold forget. destruct (clientRooms s !! ws) as [mine|] eqn:Hmine; [|done].
    rewrite delete_not_member; [by apply insert_id|].
    intros Hin. apply Hmem, Hco. by exists mine. }
  destruct s. unfold set_clientRooms, set_rooms. cbn in *.
  f_equal; [by apply insert_id | done].
Qed.

(** C7, as amended. In a reachable world, [leaveRoom(ws, roomName)] for a
    socket that is not a client of [roomName] leaves all the maps as they
    are. It sends nothing when there is no such room; when the room exists,
    every client of the room is sent [user_left] with the unchanged count
    (and the notification is published on the relay when it is enabled). *)
Theorem leave_non_member (w : World) (env : Env) (ws : conn)
    (roomName : string) :
  reachable w → ¬ member (state w) ws roomName →
  state (exec (leaveRoom env ws roomName) w) = state w
  ∧ effects (leaveRoom env ws roomName) w
    = match rooms (state w) !! roomName with
      | None => []
      | Some room =>
          fanout env roomName
            (Out.user_left (displayName (clientData (state w) !! ws))
               roomName (JsSet.size (clients room)))
            None false (clients room)
      end
  ∧ (∀ room client,
        rooms (state w) !! roomName = Some room →
        client ∈ clients room → sendThrows env client = false →
        received client (effects (leaveRoom env ws roomName) w)
        = [Out.user_left (displayName (clientData (state w) !! ws))
             roomName (JsSet.size (clients room))]).
Proof.
  intros Hw Hmem. pose proof (reachable_invariant w Hw) as Hinv.
  pose proof (leaveRoom_run env ws roomName w) as Hrun.
  rewrite (state_record _ _ _ _ _ Hrun), (effects_record _ _ _ _ _ Hrun).
  split; [by apply depart_non_member|].
  assert (∀ room, rooms (state w) !! roomName = Some room →
                  leaveEffects env ws roomName (state w)
                  = fanout env roomName
                      (Out.user_left (displayName (clientData (state w) !! ws))
                         roomName (JsSet.size (clients room)))
                      None false (clients room)) as Hsome.
  { intros room Hroom. unfold leaveEffects. rewrite Hroom.
    assert (ws ∉ clients room) as Hws by (intros ?; apply Hmem; by exists room).
    rewrite delete_not_member by done.
    rewrite bool_decide_eq_false_2; [done|].
    rewrite size_zero. destruct Hinv as [Hne _]. by eapply Hne. }
  split.
  - destruct (rooms (state w) !! roomName) as [room|] eqn:Hroom.
    + by apply Hsome.
    + unfold leaveEffects. by rewrite Hroom.
  - intros room client Hroom Hclient Hsend. rewrite (Hsome room Hroom).
    rewrite received_fanout
      by (eapply (proj1 (reachable_distinct w Hw)); exact Hroom).
    by rewrite bool_decide_eq_true_2.
Qed.

(** C6, as amended. In a reachable world, [joinRoom(ws, roomName, username)]
    for a socket that is already a client of the room leaves all the maps
    as they are, so the member count does not change; [user_joined], with
    that unchanged count, is still sent to every other client of the room
    (and published on the relay when it is enabled). *)
Theorem rejoin_member (w : World) (env : Env) (ws : conn)
    (roomName username : string) (room : Room) :
  reachable w →
  rooms (state w) !! roomName = Some room → ws ∈ clients room →
  state (exec (joinRoom env ws roomName username) w) = state w
  ∧ effects (joinRoom env ws roomName username) w
    = fanout env roomName
        (Out.user_joined username roomName (JsSet.size (clients room)))
        (Some ws) false (clients room)
  ∧ (∀ client,
        client ∈ clients room → client ≠ ws → sendThrows env client = false →
        received client (effects (joinRoom env ws roomName username) w)
        = [Out.user_joined username roomName (JsSet.size (clients room))])
  ∧ received ws (effects (joinRoom env ws roomName username) w) = [].
Proof.
  intros Hw Hroom Hws. pose proof (reachable_invariant w Hw) as Hinv.
  pose proof (joinRoom_run env ws roomName username w) as Hrun.
  cbv zeta in Hrun.
  rewrite (state_record _ _ _ _ _ Hrun), (effects_record _ _ _ _ _ Hrun).
  rewrite enter_member by (done || by exists room).
  rewrite Hroom. cbn [default].
  assert (NoDup (clients room)) as Hnodup
    by (eapply (proj1 (reachable_distinct w Hw)); exact Hroom).
  split; [done | split; [done | split]].
  - intros client Hclient Hne Hsend. rewrite received_fanout by done.
    rewrite bool_decide_eq_true_2; [done|]. split; [done|]. split; [|done].
    by intros [= ->].
  - rewrite received_fanout by done.
    rewrite bool_decide_eq_false_2; [done|]. by intros (_ & Hex & _).
Qed.

Lemma userIdToSocket_fold_depart ws l s :
  userIdToSocket (foldl (λ s r, depart ws r s) s l) = userIdToSocket s
  ∧ clientData (foldl (λ s r, depart ws r s) s l) = clientData s.
Proof.
  revert s. induction l as [|r l IH]; intros s; [done|].
  cbn [foldl]. destruct (IH (depart ws r s)) as [-> ->].
  unfold depart. destruct (rooms s !! r); [|done]. by case_bool_decide.
Qed.

(** C8, as amended. [close(ws)] deletes from [userIdToSocket] the entry
    under the [userId] that [clientData] holds for [ws], whichever socket
    that entry points at, and no other entry; for a socket without
    [clientData] the map is unchanged. *)
Theorem close_unregisters_userId (w : World) (env : Env) (ws : conn) :
  userIdToSocket (state (exec (close env ws) w))
  = match clientData (state w) !! ws with
    | Some userData => delete (userId userData) (userIdToSocket (state w))
    | None => userIdToSocket (state w)
    end.
Proof.
  rewrite close_state.
  destruct (clientData (state w) !! ws); cbn [userIdToSocket set_userIdToSocket];
    by rewrite (proj1 (userIdToSocket_fold_depart _ _ _)).
Qed.

Lemma reachable_start rl : reachable (start rl).
Proof. by exists rl. Qed.

Lemma reachable_play e actions w :
  reachable w → reachable (Scenario.play e actions w).
Proof.
  revert w. induction actions as [|a actions IH]; intros w Hw; [done|].
  cbn [Scenario.play]. apply IH. destruct Hw as [rl Hrtc]. exists rl.
  eapply rtc_r; [done|]. by exists e, a.
Qed.

Lemma no_empty_room_witness :
  (∀ roomName room,
      rooms (state Scenario.alone) !! roomName = Some room → clients room ≠ [])
  ∧ rooms (state (exec (leaveRoom Scenario.env 1%nat "general")
                    Scenario.alone)) !! "general" = None.
Proof.
  destruct (no_empty_room Scenario.alone) as (Hrooms & _ & Hleave).
  - apply reachable_play, reachable_start.
  - split; [exact Hrooms|].
    apply (Hleave Scenario.env 1%nat "general"
             {| name := "general"; clients := [1%nat] |}).
    + vm_compute. reflexivity.
    + simpl. set_solver.
    + simpl. set_solver.
Defined.

Lemma membership_consistent_witness :
  (member (state Scenario.three) 2%nat "general"
   ↔ tracked (state Scenario.three) 2%nat "general")
  ∧ ("general" ∈ cascade (state Scenario.three) 2%nat
     ↔ member (state Scenario.three) 2%nat "general")
  ∧ effects (close Scenario.env 2%nat) Scenario.three
    = [Sent 1%nat (Out.user_left "bob" "general" 2);
       Sent 3%nat (Out.user_left "bob" "general" 2)]
  ∧ ¬ member (state (exec (close Scenario.env 2%nat) Scenario.three))
        2%nat "general"
  ∧ (member (state (exec (close Scenario.env 2%nat) Scenario.three))
       1%nat "general"
     ↔ member (state Scenario.three) 1%nat "general").
Proof.
  destruct (membership_consistent Scenario.three) as (Hagree & Hvisit & Hclose).
  - apply reachable_play, reachable_start.
  - destruct (Hclose Scenario.env 2%nat)
      as (_ & Heffects & Hgone & Hothers & _).
    split; [apply Hagree|]. split; [apply Hvisit|].
    split; [|split; [apply Hgone | by apply Hothers]].
    etrans; [exact Heffects|]. vm_compute. reflexivity.
Defined.

Lemma leave_non_member_witness :
  state (exec (leaveRoom Scenario.env 2%nat "lobby") Scenario.alone)
    = state Scenario.alone
  ∧ effects (leaveRoom Scenario.env 2%nat "lobby") Scenario.alone = [].
Proof.
  destruct (leave_non_member Scenario.alone Scenario.env 2%nat "lobby")
    as (Hstate & Heffects & _).
  - apply reachable_play, reachable_start.
  - intros (room & Hroom & _). vm_compute in Hroom. discriminate.
  - split; [exact Hstate | exact Heffects].
Defined.

Lemma leave_non_member_counterexample :
  ¬ member (state Scenario.alone) 2%nat "general"
  ∧ received 1%nat
      (effects (leaveRoom Scenario.env 2%nat "general") Scenario.alone)
    = [Out.user_left "Anonymous" "general" 1].
Proof.
  split; [|by vm_compute].
  intros (room & Hroom & Hin). vm_compute in Hroom.
  injection Hroom as <-. cbn in Hin. set_solver.
Qed.

Lemma rejoin_member_witness :
  state (exec (joinRoom Scenario.env 1%nat "general" "alice") Scenario.three)
    = state Scenario.three
  ∧ effects (joinRoom Scenario.env 1%nat "general" "alice") Scenario.three
    = [Sent 2%nat (Out.user_joined "alice" "general" 3);
       Sent 3%nat (Out.user_joined "alice" "general" 3)].
Proof.
  destruct (rejoin_member Scenario.three Scenario.env 1%nat "general" "alice"
              {| name := "general"; clients := [1; 2; 3]%nat |})
    as (Hstate & Heffects & _).
  - apply reachable_play, reachable_start.
  - vm_compute. reflexivity.
  - simpl. set_solver.
  - split; [exact Hstate | exact Heffects].
Defined.

Lemma rejoin_member_counterexample :
  member (state Scenario.three) 1%nat "general"
  ∧ received 2%nat
      (effects (joinRoom Scenario.env 1%nat "general" "alice") Scenario.three)
    = [Out.user_joined "alice" "general" 3].
Proof.
  split; [|by vm_compute].
  exists {| name := "general"; clients := [1; 2; 3]%nat |}.
  split; [by vm_compute | cbn; set_solver].
Qed.

Lemma close_unregisters_counterexample :
  userIdToSocket (state Scenario.superseded) !! "u" = Some 2%nat
  ∧ userIdToSocket (state (exec (close Scenario.env 1%nat) Scenario.superseded))
      !! "u" = None.
Proof. by vm_compute. Qed.

End RoomFacts.

Section RouterFacts.
Import Server.

Lemma exec_record {A} (m : M A) w r es :
  m w = (r, record es w) → state (exec m w) = state w ∧ effects m w = es.
Proof.
  intros Hm. unfold effects, exec. rewrite Hm. cbn.
  by rewrite drop_app_length.
Qed.

Lemma isValidUserId_nonempty recipientId :
  Security.isValidUserId recipientId = true → recipientId ≠ "".
Proof. by intros Hvalid ->. Qed.

(** C1, as amended. Let the sender have an identity, the content be non-empty
    once trimmed and sanitised, [recipientId] have the format of a user id,
    no block stand between the two users, the store save the message, and
    no [send] (nor the queue, when in use) throw. Then the [dm] branch
    leaves the maps as they are and: when [userIdToSocket] has an entry for
    the recipient, that socket is sent one [dm] and the sender [dm_sent] with
    status [delivered]; when it has none, nothing is sent to anyone but the
    sender, who gets [dm_sent] with status [offline]. *)
Theorem dm_delivered_or_offline (env : Env) (w : World) (ws : conn)
    (userData : UserData) (recipientId : string)
    (content mediaType mediaUrl : option string) (encrypted : bool)
    (encryptedContent : option string) (savedMsg : Message.t) :
  let text :=
    Security.sanitizeInput (Security.trim (default "" content)) 5000 in
  let draft := dmDraft userData recipientId text mediaType mediaUrl
                 encrypted encryptedContent in
  let run := on_dm env ws (Some recipientId) content mediaType mediaUrl
               encrypted encryptedContent in
  clientData (state w) !! ws = Some userData →
  text ≠ "" →
  Security.isValidUserId recipientId = true →
  isBlocked env (userId userData) recipientId = false →
  saveMessage env draft = Some savedMsg →
  sendThrows env ws = false →
  (∀ recipientSocket,
      userIdToSocket (state w) !! recipientId = Some recipientSocket →
      sendThrows env recipientSocket = false) →
  (useRabbitMQ env = true → queueThrows env = false) →
  state (exec run w) = state w
  ∧ effects run w
    = match userIdToSocket (state w) !! recipientId with
      | Some recipientSocket =>
          [Saved draft savedMsg;
           Sent recipientSocket
             (Out.dm (userId userData) (username userData) savedMsg);
           MarkedDelivered (Message.id savedMsg);
           Sent ws (Out.dm_sent recipientId "delivered" savedMsg)]
      | None =>
          [Saved draft savedMsg]
          ++ (if useRabbitMQ env
              then [Queued (dmOffline userData recipientId text savedMsg)]
              else [])
          ++ [Sent ws (Out.dm_sent recipientId "offline" savedMsg)]
      end.
Proof.
  intros text draft run Hud Htext Hvalid Hblocked Hsave Hws Hrs Hq.
  subst run draft text. apply exec_record with (r := Returned tt).
  unfold on_dm, bind at 1, get. rewrite Hud. cbv zeta. cbn [default].
  change (id recipientId) with recipientId.
  rewrite Hvalid. cbn [negb].
  rewrite (bool_decide_eq_false_2 (recipientId = ""))
    by by apply isValidUserId_nonempty.
  rewrite (bool_decide_eq_false_2 (_ = "")) by done. cbn [orb].
  rewrite Hblocked.
  unfold try_catch, bind, save. rewrite Hsave.
  unfold bind, emit, ret, send, queue. cbn [state limiter trace].
  destruct (userIdToSocket (state w) !! recipientId) as [rs|] eqn:Hlookup.
  - rewrite (Hrs rs eq_refl), Hws. unfold emit, record. cbn.
    by rewrite <- !app_assoc.
  - destruct (useRabbitMQ env) eqn:Hmq.
    + rewrite (Hq eq_refl), Hws. unfold emit, record. cbn.
      by rewrite <- !app_assoc.
    + rewrite Hws. unfold emit, record. cbn. by rewrite <- !app_assoc.
Qed.


(** The [dm] branch of the first server has neither the format check nor the
    block check; with a recipient id and content that are not empty, a
    store that saves and sockets that take what is sent, it delivers or
    answers [offline] in the same way. *)
Lemma demo_dm_delivered_or_offline (env : Env) (w : World) (ws : conn)
    (userData : UserData) (recipientId : string) (content : option string)
    (savedMsg : Message.t) :
  let text := Security.trim (default "" content) in
  let draft := Demo.draft (username userData) text "dm" "dm"
                 (Some recipientId) in
  let run := Demo.on_dm env ws (Some recipientId) content in
  clientData (state w) !! ws = Some userData →
  recipientId ≠ "" → text ≠ "" →
  saveMessage env draft = Some savedMsg →
  sendThrows env ws = false →
  (∀ recipientSocket,
      userIdToSocket (state w) !! recipientId = Some recipientSocket →
      sendThrows env recipientSocket = false) →
  (useRabbitMQ env = true → queueThrows env = false) →
  state (exec run w) = state w
  ∧ effects run w
    = match userIdToSocket (state w) !! recipientId with
      | Some recipientSocket =>
          [Saved draft savedMsg;
           Sent recipientSocket
             (Out.dm (userId userData) (username userData) savedMsg);
           MarkedDelivered (Message.id savedMsg);
           Sent ws (Out.dm_sent recipientId "delivered" savedMsg)]
      | None =>
          [Saved draft savedMsg]
          ++ (if useRabbitMQ env
              then [Queued (dmOffline userData recipientId text savedMsg)]
              else [])
          ++ [Sent ws (Out.dm_sent recipientId "offline" savedMsg)]
      end.
Proof.
  intros text draft run Hud Hrecipient Htext Hsave Hws Hrs Hq.
  subst run draft text. apply exec_record with (r := Returned tt).
  unfold Demo.on_dm, bind at 1, get. rewrite Hud. cbv zeta. cbn [default].
  change (id recipientId) with recipientId.
  rewrite (bool_decide_eq_false_2 (recipientId = "")) by done.
  rewrite (bool_decide_eq_false_2 (_ = "")) by done. cbn [orb].
  unfold try_catch, bind, save. rewrite Hsave.
  unfold bind, emit, ret, send, queue. cbn [state limiter trace].
  destruct (userIdToSocket (state w) !! recipientId) as [rs|] eqn:Hlookup.
  - rewrite (Hrs rs eq_refl), Hws. unfold emit, record. cbn.
    by rewrite <- !app_assoc.
  - destruct (useRabbitMQ env) eqn:Hmq.
    + rewrite (Hq eq_refl), Hws. unfold emit, record. cbn.
      by rewrite <- !app_assoc.
    + rewrite Hws. unfold emit, record. cbn. by rewrite <- !app_assoc.
Qed.

Lemma dm_delivered_or_offline_witness :
  effects (on_dm Scenario.env 1%nat (Some "bob") (Some "hi") None None false
             None) Scenario.three
    = [Saved (dmDraft (Build_UserData "alice" "alice") "bob" "hi" None None
                false None)
         (Scenario.stored (dmDraft (Build_UserData "alice" "alice") "bob"
                             "hi" None None false None));
       Sent 2%nat
         (Out.dm "alice" "alice"
            (Scenario.stored (dmDraft (Build_UserData "alice" "alice") "bob"
                                "hi" None None false None)));
       MarkedDelivered 1;
       Sent 1%nat
         (Out.dm_sent "bob" "delivered"
            (Scenario.stored (dmDraft (Build_UserData "alice" "alice") "bob"
                                "hi" None None false None)))]
  ∧ effects (on_dm Scenario.env 1%nat (Some "dave") (Some "hi") None None
               false None) Scenario.three
    = [Saved (dmDraft (Build_UserData "alice" "alice") "dave" "hi" None None
                false None)
         (Scenario.stored (dmDraft (Build_UserData "alice" "alice") "dave"
                             "hi" None None false None));
       Sent 1%nat
         (Out.dm_sent "dave" "offline"
            (Scenario.stored (dmDraft (Build_UserData "alice" "alice") "dave"
                                "hi" None None false None)))].
Proof.
  split.
  - apply (dm_delivered_or_offline Scenario.env Scenario.three 1%nat
             (Build_UserData "alice" "alice") "bob" (Some "hi") None None
             false None).
    + vm_compute. reflexivity.
    + vm_compute. discriminate.
    + vm_compute. reflexivity.
    + reflexivity.
    + reflexivity.
    + reflexivity.
    + intros; reflexivity.
    + simpl. discriminate.
  - apply (dm_delivered_or_offline Scenario.env Scenario.three 1%nat
             (Build_UserData "alice" "alice") "dave" (Some "hi") None None
             false None).
    + vm_compute. reflexivity.
    + vm_compute. discriminate.
    + vm_compute. reflexivity.
    + reflexivity.
    + reflexivity.
    + reflexivity.
    + intros; reflexivity.
    + simpl. discriminate.
Defined.

Lemma dm_delivered_or_offline_counterexample :
  (clientData (state Scenario.three) !! 1%nat
     = Some (Build_UserData "alice" "alice")
   ∧ userIdToSocket (state Scenario.three) !! "bob smith" = None
   ∧ effects (on_dm Scenario.env 1%nat (Some "bob smith") (Some "hi") None
                None false None) Scenario.three
     = [Sent 1%nat (Out.error "Invalid recipientId format")])
  ∧ (userIdToSocket (state Scenario.three) !! "bob" = Some 2%nat
     ∧ effects (on_dm Scenario.blocking 1%nat (Some "bob") (Some "hi") None
                  None false None) Scenario.three
       = [Sent 1%nat (Out.error "Cannot send message to this user")]).
Proof. by vm_compute. Qed.

(** What [leaveRoom] sends for a socket that is not in the room: the
    count it announces is the unchanged one. *)
Lemma leaveEffects_non_member env ws roomName s :
  invariant s → ¬ member s ws roomName →
  leaveEffects env ws roomName s
  = match rooms s !! roomName with
    | Some room =>
        fanout env roomName
          (Out.user_left (displayName (clientData s !! ws)) roomName
             (JsSet.size (clients room)))
          None false (clients room)
    | None => []
    end.
Proof.
  intros [Hne _] Hmem. unfold leaveEffects.
  destruct (rooms s !! roomName) as [room|] eqn:Hroom; [|done]. cbn zeta.
  assert (ws ∉ clients room) as Hws by (intros ?; apply Hmem; by exists room).
  rewrite delete_not_member by done.
  rewrite bool_decide_eq_false_2; [done|].
  rewrite size_zero. by eapply Hne.
Qed.

(** An event that passes the rate limit is handled by its branch, from the
    same maps and the same trace. *)
Lemma message_allowed env ws data w :
  RateLimit.allowed
    (RateLimit.rateLimitWebSocket (limiter w) (now env)
       (identifier env ws)).1 = true →
  message env ws (Some data) w
  = dispatch env ws data
      {| state := state w;
         limiter := (RateLimit.rateLimitWebSocket (limiter w) (now env)
                       (identifier env ws)).2;
         trace := trace w |}.
Proof.
  intros Hallowed. unfold message, bind, rateLimit.
  destruct (RateLimit.rateLimitWebSocket _ _ _) as [v rl].
  cbn [fst] in Hallowed. by rewrite Hallowed.
Qed.

(** C4, as amended. An event that passes the rate limit on a socket without
    [clientData] is never answered by closing the socket, and:

    - [message], [dm], [signal] and [encrypted_dm] are answered with one
      [error], nothing else is sent and the maps are unchanged;
    - [typing], [message_seen], [star_message], [pin_message], [init_keys],
      [get_bundle] and [decrypt_message] are dropped without a reply, as
      is [group_message], for which [server.ts] has no branch;
    - [get_rooms] and [get_users] ask for no identity and are answered with
      the list asked for, the rooms being listed in some order;
    - [leave] asks for no identity either: [leaveRoom] runs and the sender
      is answered with [left]. In a reachable world a socket without
      identity is in no room, so the maps are unchanged, but every client
      of the room, when it exists, is sent [user_left] for the user
      [Anonymous] with the unchanged count. *)
Theorem unauthenticated_event (env : Env) (w : World) (ws : conn)
    (data : In.t) :
  let run := message env ws (Some data) in
  clientData (state w) !! ws = None →
  RateLimit.allowed
    (RateLimit.rateLimitWebSocket (limiter w) (now env)
       (identifier env ws)).1 = true →
  sendThrows env ws = false →
  match data with
  | In.join _ _ _ => True
  | In.leave room =>
      let roomName := default "general" room in
      state (exec run w) = depart ws roomName (state w)
      ∧ effects run w
        = leaveEffects env ws roomName (state w)
          ++ [Sent ws (Out.left roomName)]
      ∧ (reachable w →
         state (exec run w) = state w
         ∧ effects run w
           = match rooms (state w) !! roomName with
             | Some room =>
                 fanout env roomName
                   (Out.user_left "Anonymous" roomName
                      (JsSet.size (clients room)))
                   None false (clients room)
             | None => []
             end ++ [Sent ws (Out.left roomName)])
  | In.message _ _ _ _ =>
      state (exec run w) = state w
      ∧ effects run w
        = [Sent ws (Out.error "Not authenticated. Please join first.")]
  | In.dm _ _ _ _ _ _ | In.signal _ _ | In.encrypted_dm _ _ =>
      state (exec run w) = state w
      ∧ effects run w = [Sent ws (Out.error "Not authenticated")]
  | In.message_seen _ | In.star_message _ | In.pin_message _ _
  | In.typing _ _ | In.group_message _ _ _ | In.init_keys
  | In.get_bundle _ | In.decrypt_message _ _ _ | In.other =>
      state (exec run w) = state w ∧ effects run w = []
  | In.get_rooms =>
      state (exec run w) = state w
      ∧ ∃ listed,
          listed ≡ₚ getRoomList (state w)
          ∧ effects run w = [Sent ws (Out.room_list listed)]
  | In.get_users room =>
      state (exec run w) = state w
      ∧ effects run w
        = [Sent ws (Out.user_list (default "general" room)
                      (getOnlineUsers (state w) (default "general" room)))]
  end.
Proof.
  intros run Hud Hallowed Hws. subst run.
  unfold effects, exec. rewrite message_allowed by done.
  set (w0 := {| state := state w; limiter := _; trace := trace w |}).
  destruct data; try exact I; cbn [dispatch].
  1:{ (* leave *)
    cbn zeta. set (roomName := default "general" room).
    assert (on_leave env ws room w0
            = (Returned tt,
               record (leaveEffects env ws roomName (state w)
                       ++ [Sent ws (Out.left roomName)])
                      (with_state (depart ws roomName (state w)) w0))) as Hrun.
    { unfold on_leave. fold roomName.
      rewrite (bind_run _ _ _ _ _ (leaveRoom_run env ws roomName w0)).
      unfold send. rewrite Hws. unfold emit, record, with_state. cbn.
      by rewrite app_assoc. }
    rewrite Hrun. cbn [snd state trace record with_state w0].
    rewrite drop_app_length.
    split; [done | split; [done|]]. intros Hw.
    pose proof (reachable_invariant w Hw) as Hinv.
    assert (¬ member (state w) ws roomName) as Hout.
    { intros Hmem. apply (reachable_identified w Hw) in Hmem as [? Hsome].
      congruence. }
    rewrite depart_non_member, leaveEffects_non_member by done.
    by rewrite Hud. }
  all: unfold on_message, on_dm, on_signal, on_message_seen, on_star_message,
      on_pin_message, on_typing, on_get_rooms, on_get_users, on_init_keys,
      on_get_bundle, on_encrypted_dm, on_decrypt_message, reply_error,
      bind, get, send, emit, ret;
    cbn [state limiter trace w0]; rewrite ?Hud, ?Hws; cbn [snd state trace];
    rewrite ?drop_app_length, ?drop_all; try done.
  split; [done|]. by eexists.
Qed.

(** An event over the rate limit is answered with one [error] that carries
    [remaining] and [resetAt], and is not processed. *)
Lemma rate_limited_event (env : Env) (w : World) (ws : conn)
    (data : option In.t) :
  let verdict := (RateLimit.rateLimitWebSocket (limiter w) (now env)
                    (identifier env ws)).1 in
  RateLimit.allowed verdict = false → sendThrows env ws = false →
  state (exec (message env ws data) w) = state w
  ∧ effects (message env ws data) w
    = [Sent ws (Out.rate_limited (RateLimit.remaining verdict)
                  (RateLimit.resetAt verdict))].
Proof.
  intros verdict Hdenied Hws. subst verdict.
  unfold effects, exec, message, bind, rateLimit.
  destruct (RateLimit.rateLimitWebSocket _ _ _) as [v rl].
  cbn [fst] in *. rewrite Hdenied. cbn [negb]. unfold send. rewrite Hws.
  cbn. by rewrite drop_app_length.
Qed.

(** In the first server the [dm] and [group_message] branches answer a socket
    without [clientData] with one [error]. *)
Lemma unauthenticated_demo (env : Env) (w : World) (ws : conn)
    (recipientIds : list string) (recipientId content groupName : option string) :
  clientData (state w) !! ws = None → sendThrows env ws = false →
  (state (exec (Demo.on_group_message env ws recipientIds content groupName) w)
     = state w
   ∧ effects (Demo.on_group_message env ws recipientIds content groupName) w
     = [Sent ws (Out.error Demo.notJoined)])
  ∧ (state (exec (Demo.on_dm env ws recipientId content) w) = state w
     ∧ effects (Demo.on_dm env ws recipientId content) w
       = [Sent ws (Out.error Demo.notJoined)]).
Proof.
  intros Hud Hws. split; apply exec_record with (r := Returned tt);
    unfold Demo.on_group_message, Demo.on_dm, bind, get, reply_error, send;
    by rewrite Hud, Hws.
Qed.

Lemma unauthenticated_event_witness :
  (state (exec (message Scenario.env 9%nat
                  (Some (In.dm (Some "bob") (Some "hi") None None false None)))
            Scenario.three) = state Scenario.three
   ∧ effects (message Scenario.env 9%nat
                (Some (In.dm (Some "bob") (Some "hi") None None false None)))
       Scenario.three
     = [Sent 9%nat (Out.error "Not authenticated")])
  ∧ (state (exec (message Scenario.env 9%nat (Some (In.typing None true)))
              Scenario.three) = state Scenario.three
     ∧ effects (message Scenario.env 9%nat (Some (In.typing None true)))
         Scenario.three = [])
  ∧ (state (exec (message Scenario.env 9%nat (Some (In.leave None)))
              Scenario.three) = state Scenario.three
     ∧ effects (message Scenario.env 9%nat (Some (In.leave None)))
         Scenario.three
       = [Sent 1%nat (Out.user_left "Anonymous" "general" 3);
          Sent 2%nat (Out.user_left "Anonymous" "general" 3);
          Sent 3%nat (Out.user_left "Anonymous" "general" 3);
          Sent 9%nat (Out.left "general")]).
Proof.
  split; [|split].
  - apply (unauthenticated_event Scenario.env Scenario.three 9%nat
             (In.dm (Some "bob") (Some "hi") None None false None));
      vm_compute; reflexivity.
  - apply (unauthenticated_event Scenario.env Scenario.three 9%nat
             (In.typing None true)); vm_compute; reflexivity.
  - destruct (unauthenticated_event Scenario.env Scenario.three 9%nat
                (In.leave None)) as (_ & _ & Hleave);
      [vm_compute; reflexivity..|].
    destruct (Hleave (reachable_play _ _ _ (reachable_start _)))
      as [Hstate Heffects].
    split; [exact Hstate|]. etrans; [exact Heffects|].
    vm_compute. reflexivity.
Defined.

Lemma unauthenticated_event_counterexample :
  clientData (state Scenario.three) !! 9%nat = None
  ∧ received 9%nat
      (effects (message Scenario.env 9%nat (Some (In.typing None true)))
         Scenario.three) = []
  ∧ received 9%nat
      (effects (message Scenario.env 9%nat (Some (In.get_users None)))
         Scenario.three)
    = [Out.user_list "general" ["alice"; "bob"; "carol"]]
  ∧ received 9%nat
      (effects (message Scenario.env 9%nat (Some (In.leave None)))
         Scenario.three)
    = [Out.left "general"]
  ∧ received 1%nat
      (effects (message Scenario.env 9%nat (Some (In.leave None)))
         Scenario.three)
    = [Out.user_left "Anonymous" "general" 3].
Proof. by vm_compute. Qed.

(** C2. The listener of the subscription drops every payload whose [from] is
    the instance id of this process, whatever the handler; every payload
    [broadcastToRoom] publishes for a local broadcast carries that id, so
    when the relay hands it back to the process that published it, nothing
    is sent and nothing changes. *)
Theorem self_echo_discarded (env : Env) :
  (∀ handler p w,
      origin p = instanceId env →
      subscriber env handler (Parsed p) w = (Returned tt, w))
  ∧ (∀ roomName data exclude w p,
      p ∈ published
            (effects (broadcastToRoom env roomName data exclude false) w) →
      p = Broadcast (instanceId env) roomName data
      ∧ ∀ w', exec (perform env (Relayed (Parsed p))) w' = w').
Proof.
  assert (∀ handler p w,
            origin p = instanceId env →
            subscriber env handler (Parsed p) w = (Returned tt, w)) as Hdrop.
  { intros handler p w Horigin. unfold subscriber, try_catch.
    by rewrite bool_decide_eq_true_2. }
  split; [exact Hdrop|].
  intros roomName data exclude w p Hin.
  pose proof (broadcastToRoom_run env roomName data exclude false w) as Hrun.
  rewrite (proj2 (exec_record _ _ _ _ Hrun)) in Hin.
  assert (p = Broadcast (instanceId env) roomName data) as ->.
  { destruct (rooms (state w) !! roomName) as [room|];
      [|by apply not_elem_of_nil in Hin].
    unfold fanout, published in Hin. rewrite omap_app in Hin.
    apply elem_of_app in Hin as [Hin|Hin].
    - apply list_elem_of_omap in Hin as (e & He & Hp).
      apply list_elem_of_fmap in He as (c & -> & _). done.
    - destruct (redisEnabled env && negb false);
        [|by apply not_elem_of_nil in Hin].
      cbn in Hin. by apply list_elem_of_singleton in Hin. }
  split; [done|]. intros w'. unfold exec. cbn [perform].
  unfold onRedisMessage. destruct (negb (redisEnabled env)); [done|].
  by rewrite Hdrop.
Qed.


Lemma self_echo_discarded_witness :
  subscriber Scenario.relayed (onRelayed Scenario.relayed)
    (Parsed (Broadcast "A" "general" (Out.typing "general" ["alice"])))
    Scenario.three
    = (Returned tt, Scenario.three)
  ∧ exec (perform Scenario.relayed
            (Relayed (Parsed (Broadcast "A" "general"
                                (Out.typing "general" ["alice"])))))
      Scenario.three = Scenario.three.
Proof.
  split.
  - apply (proj1 (self_echo_discarded Scenario.relayed)). reflexivity.
  - apply (proj2 (self_echo_discarded Scenario.relayed)
             "general" (Out.typing "general" ["alice"]) None Scenario.three).
    vm_compute. repeat constructor.
Defined.

Lemma foreign_broadcast_delivered :
  effects (perform Scenario.relayed
             (Relayed (Parsed (Broadcast "B" "general"
                                 (Out.typing "general" ["dave"])))))
    Scenario.three
  = [Sent 1%nat (Out.typing "general" ["dave"]);
     Sent 2%nat (Out.typing "general" ["dave"]);
     Sent 3%nat (Out.typing "general" ["dave"])].
Proof. by vm_compute. Qed.



(** C9. [alice], [bob] and [carol] are on sockets 1, 2 and 3. When [send]
    throws on socket 2 only, a [group_message] of [alice] to [bob] and
    [carol] ends at [bob]: [carol], whose socket works, is sent nothing, and
    [alice] gets the [error] of the outer [catch] and no
    [group_message_sent]. The same happens when the queue throws for a
    recipient who is offline: a [group_message] to [dave] and [carol] ends
    at [dave]. *)
Theorem group_message_send_failure :
  userIdToSocket (state Scenario.three) !! "bob" = Some 2%nat
  ∧ userIdToSocket (state Scenario.three) !! "carol" = Some 3%nat
  ∧ userIdToSocket (state Scenario.three) !! "dave" = None
  ∧ sendThrows Scenario.broken2 3%nat = false
  ∧ received 3%nat
      (effects (Demo.on_group_message Scenario.broken2 1%nat ["bob"; "carol"]
                  (Some "hi") None) Scenario.three) = []
  ∧ received 1%nat
      (effects (Demo.on_group_message Scenario.broken2 1%nat ["bob"; "carol"]
                  (Some "hi") None) Scenario.three)
    = [Out.error "Failed to send group message"]
  ∧ received 3%nat
      (effects (Demo.on_group_message Scenario.queueDown 1%nat
                  ["dave"; "carol"] (Some "hi") None) Scenario.three) = []
  ∧ received 1%nat
      (effects (Demo.on_group_message Scenario.queueDown 1%nat
                  ["dave"; "carol"] (Some "hi") None) Scenario.three)
    = [Out.error "Failed to send group message"].
Proof. by vm_compute. Qed.

End RouterFacts.

(** ** More of the rate limiter *)

Section RateLimitMore.
Import RateLimit.

Lemma allowed_seq (max : Z) (j n : nat) :
  (λ k, Z.of_nat k <=? max) <$> seq (S j) n
  = replicate (n `min` (Z.to_nat max - j)) true
    ++ replicate (n - (Z.to_nat max - j)) false.
Proof.
  revert j. induction n as [|n IH]; intros j; [done|].
  cbn [seq fmap list_fmap]. change (list_fmap _ _ ?f ?l) with (f <$> l).
  rewrite IH. destruct (Z.leb_spec (Z.of_nat (S j)) max) as [Hle|Hgt].
  - replace (Z.to_nat max - j)%nat with (S (Z.to_nat max - S j)) by lia.
    done.
  - replace (Z.to_nat max - j)%nat with 0%nat by lia.
    replace (Z.to_nat max - S j)%nat with 0%nat by lia.
    by rewrite !Nat.min_0_r, !Nat.sub_0_r.
Qed.

(** X1. Whatever the cap and the window length: of the checks one
    identifier makes from the one that opens a window until the window
    ends, all held to the cap [max], the first [max] are allowed and every
    later one is refused; checks of other identifiers in between do not
    count. In particular no more than [max] are allowed per window. *)
Theorem window_allows_at_most_cap (rl : RateLimiter) (id : string) (max : Z)
    (calls : list Call) (t1 : Z) (ts : list Z) :
  opensWindow rl id t1 →
  timesOf id calls = t1 :: ts →
  Forall (λ call, cap rl (viaWebSocket call) = max) (callsOf id calls) →
  Forall (λ t, t ≤ t1 + windowMs rl) ts →
  allowed <$> verdictsOf id (run rl calls).1
  = replicate (S (List.length ts) `min` Z.to_nat max) true
    ++ replicate (S (List.length ts) - Z.to_nat max) false
  ∧ (List.length (filter (λ v, allowed v = true)
                    (verdictsOf id (run rl calls).1)) ≤ Z.to_nat max)%nat.
Proof.
  intros Hopen Hts Hcap Hin.
  pose proof (run_opens rl id max t1 ts calls Hopen Hts Hcap Hin) as Hrun.
  assert (allowed <$> verdictsOf id (run rl calls).1
          = replicate (S (List.length ts) `min` Z.to_nat max) true
            ++ replicate (S (List.length ts) - Z.to_nat max) false) as Hall.
  { rewrite Hrun, <- list_fmap_compose.
    transitivity ((λ k, Z.of_nat k <=? max) <$> seq 1 (S (List.length ts)));
      [done|].
    rewrite (allowed_seq max 0 (S (List.length ts))).
    by rewrite Nat.sub_0_r. }
  split; [done|].
  assert (∀ vs : list Verdict,
            List.length (filter (λ v, allowed v = true) vs)
            = List.length (filter (λ b, b = true) (allowed <$> vs))) as Hlen.
  { induction vs as [|v vs IH]; [done|].
    rewrite fmap_cons, !filter_cons.
    destruct (decide (allowed v = true)); cbn [List.length]; by rewrite IH. }
  rewrite Hlen, Hall, filter_app, length_app.
  assert (∀ n, List.length (filter (λ b, b = true) (replicate n true)) = n)
    as Htrue.
  { induction n as [|n IH]; [done|]. cbn [replicate].
    rewrite filter_cons_True by done. cbn [List.length]. by rewrite IH. }
  assert (∀ n, List.length (filter (λ b, b = true) (replicate n false)) = 0%nat)
    as Hfalse.
  { induction n as [|n IH]; [done|]. cbn [replicate].
    by rewrite filter_cons_False. }
  rewrite Htrue, Hfalse. lia.
Qed.

Lemma window_allows_at_most_cap_witness :
  allowed <$> verdictsOf "user:alice" (run Scenario.capped Scenario.burst).1
  = replicate (6 `min` 5) true ++ replicate (6 - 5) false
  ∧ (List.length (filter (λ v, allowed v = true)
                    (verdictsOf "user:alice"
                       (run Scenario.capped Scenario.burst).1)) ≤ 5)%nat.
Proof.
  apply (window_allows_at_most_cap Scenario.capped "user:alice" 5
           Scenario.burst 1000 [2000; 3000; 4000; 5000; 6000]).
  - done.
  - reflexivity.
  - vm_compute. repeat constructor.
  - repeat constructor; vm_compute; congruence.
Defined.

(** X2. A verdict of [checkLimit] is coherent: [remaining] is never
    negative and is 0 whenever the check is refused; with a window length
    that is not negative, [resetAt] is never in the past, and the entry
    kept for the identifier ends at that same [resetAt]. *)
Theorem verdict_coherent (rl : RateLimiter) (now : Z) (id : string)
    (isWebSocket : bool) :
  0 ≤ windowMs rl →
  let v := (checkLimit rl now id isWebSocket).1 in
  0 ≤ remaining v
  ∧ (allowed v = false → remaining v = 0)
  ∧ now ≤ resetAt v
  ∧ resetTime <$> store (checkLimit rl now id isWebSocket).2 !! id
    = Some (resetAt v).
Proof.
  intros Hwin v. subst v. rewrite checkLimit_stored.
  assert (now ≤ resetTime (currentEntry rl now id)) as Hend.
  { unfold currentEntry. destruct (store rl !! id) as [e|]; cbn; [|lia].
    destruct (Z.gtb_spec now (resetTime e)); cbn; lia. }
  unfold checkLimit. cbn zeta.
  cbn [fst allowed remaining resetAt count resetTime fmap option_fmap option_map].
  repeat split; lia.
Qed.

Lemma verdict_coherent_witness :
  0 ≤ remaining (checkLimit Scenario.afterBurst 7000 "user:alice" true).1
  ∧ (allowed (checkLimit Scenario.afterBurst 7000 "user:alice" true).1 = false
     → remaining (checkLimit Scenario.afterBurst 7000 "user:alice" true).1 = 0)
  ∧ 7000 ≤ resetAt (checkLimit Scenario.afterBurst 7000 "user:alice" true).1
  ∧ resetTime
      <$> store (checkLimit Scenario.afterBurst 7000 "user:alice" true).2
            !! "user:alice"
    = Some (resetAt (checkLimit Scenario.afterBurst 7000 "user:alice" true).1).
Proof.
  apply (verdict_coherent Scenario.afterBurst 7000 "user:alice" true).
  vm_compute. congruence.
Defined.

Lemma lookup_cleanup rl now id :
  store (cleanup rl now) !! id
  = match store rl !! id with
    | Some e => if now >? resetTime e then None else Some e
    | None => None
    end.
Proof.
  unfold cleanup. cbn.
  destruct (store rl !! id) as [e|] eqn:He.
  - destruct (Z.gtb_spec now (resetTime e)) as [Hgt|Hle].
    + apply map_lookup_filter_None. right. intros e' He'. cbn.
      rewrite He in He'. injection He' as <-. lia.
    + apply map_lookup_filter_Some. split; [done|]. cbn. lia.
  - apply map_lookup_filter_None. by left.
Qed.

(** X3. [cleanup] removes exactly the entries whose window has ended and
    cannot be observed by a later check: an entry still in its window is
    kept as it is, and a check made at or after the time of the clean-up
    gets the same verdict and leaves the same entry as without it. *)
Theorem cleanup_unobservable (rl : RateLimiter) (now now' : Z) (id : string)
    (isWebSocket : bool) :
  now ≤ now' →
  (∀ e, store (cleanup rl now) !! id = Some e
        ↔ store rl !! id = Some e ∧ now ≤ resetTime e)
  ∧ (checkLimit (cleanup rl now) now' id isWebSocket).1
    = (checkLimit rl now' id isWebSocket).1
  ∧ store (checkLimit (cleanup rl now) now' id isWebSocket).2 !! id
    = store (checkLimit rl now' id isWebSocket).2 !! id.
Proof.
  intros Hlater.
  assert (currentEntry (cleanup rl now) now' id = currentEntry rl now' id)
    as Hcur.
  { unfold currentEntry. rewrite lookup_cleanup.
    change (windowMs (cleanup rl now)) with (windowMs rl).
    destruct (store rl !! id) as [e|]; [|done].
    destruct (Z.gtb_spec now (resetTime e)) as [Hgt|Hle]; [|done].
    destruct (Z.gtb_spec now' (resetTime e)); [done|lia]. }
  split; [|split].
  - intros e. rewrite lookup_cleanup.
    destruct (store rl !! id) as [e'|]; [|naive_solver].
    destruct (Z.gtb_spec now (resetTime e')) as [Hgt|Hle].
    + split; [done|]. intros [[= ->] ?]. lia.
    + split; [intros [= ->]; done|]. by intros [? _].
  - unfold checkLimit. cbn. by rewrite Hcur.
  - rewrite !checkLimit_stored. by rewrite Hcur.
Qed.

Lemma cleanup_unobservable_witness :
  (∀ e, store (cleanup Scenario.afterBurst 61001) !! "user:alice" = Some e
        ↔ store Scenario.afterBurst !! "user:alice" = Some e
          ∧ 61001 ≤ resetTime e)
  ∧ (checkLimit (cleanup Scenario.afterBurst 61001) 61002 "user:alice" true).1
    = (checkLimit Scenario.afterBurst 61002 "user:alice" true).1
  ∧ store (checkLimit (cleanup Scenario.afterBurst 61001) 61002 "user:alice"
             true).2 !! "user:alice"
    = store (checkLimit Scenario.afterBurst 61002 "user:alice" true).2
        !! "user:alice".
Proof.
  apply (cleanup_unobservable Scenario.afterBurst 61001 61002 "user:alice"
           true).
  lia.
Defined.

(** X4. [reset] forgets one identifier only: its next check opens a new
    window with count 1 whatever it had used up, and the entries of the
    other identifiers, and the verdicts they get, are untouched. *)
Theorem reset_reopens (rl : RateLimiter) (now : Z) (id : string)
    (isWebSocket : bool) :
  store (checkLimit (reset rl id) now id isWebSocket).2 !! id
  = Some {| count := 1; resetTime := now + windowMs rl |}
  ∧ (checkLimit (reset rl id) now id isWebSocket).1
    = verdictAt (cap rl isWebSocket) 1 (now + windowMs rl)
  ∧ (∀ id', id' ≠ id →
       store (reset rl id) !! id' = store rl !! id'
       ∧ (checkLimit (reset rl id) now id' isWebSocket).1
         = (checkLimit rl now id' isWebSocket).1).
Proof.
  assert (currentEntry (reset rl id) now id
          = {| count := 0; resetTime := now + windowMs rl |}) as Hcur.
  { unfold currentEntry, reset. cbn. by rewrite lookup_delete_eq. }
  split; [|split].
  - rewrite checkLimit_stored, Hcur. done.
  - unfold checkLimit. cbn zeta. rewrite Hcur. by destruct isWebSocket.
  - intros id' Hne.
    assert (store (reset rl id) !! id' = store rl !! id') as Hsame.
    { unfold reset. cbn. by rewrite lookup_delete_ne. }
    split; [done|]. unfold checkLimit, currentEntry. cbn zeta.
    by rewrite Hsame.
Qed.

End RateLimitMore.

(** ** More of the validators *)

Section SecurityFacts.
Import Security.

Lemma length_string_of_list_ascii (l : list ascii) :
  String.length (string_of_list_ascii l) = List.length l.
Proof. induction l as [|c l IH]; [done|]. cbn. by rewrite IH. Qed.

Lemma length_list_ascii_of_string (s : string) :
  List.length (list_ascii_of_string s) = String.length s.
Proof. induction s as [|c s IH]; [done|]. cbn. by rewrite IH. Qed.

Lemma length_dropSpaces (l : list ascii) :
  (List.length (dropSpaces l) ≤ List.length l)%nat.
Proof.
  induction l as [|c l IH]; [done|]. cbn [dropSpaces].
  destruct (isSpace c); cbn [List.length]; lia.
Qed.

Lemma length_trim (s : string) : (String.length (trim s) ≤ String.length s)%nat.
Proof.
  unfold trim. rewrite length_string_of_list_ascii, length_rev.
  etrans; [apply length_dropSpaces|]. rewrite length_rev.
  etrans; [apply length_dropSpaces|]. by rewrite length_list_ascii_of_string.
Qed.

(** X5. Whatever the input, the result of [sanitizeInput] is no longer
    than [maxLength] and no longer than the input, and it holds none of
    the control characters the function strips. *)
Theorem sanitizeInput_bounded (input : string) (maxLength : nat) :
  (String.length (sanitizeInput input maxLength) ≤ maxLength)%nat
  ∧ (String.length (sanitizeInput input maxLength) ≤ String.length input)%nat
  ∧ Forall (λ c, isControl c = false)
      (list_ascii_of_string (sanitizeInput input maxLength)).
Proof.
  unfold sanitizeInput. case_bool_decide as Hempty.
  { cbn. repeat split; [lia..|constructor]. }
  cbn zeta. rewrite length_string_of_list_ascii.
  rewrite list_ascii_of_string_of_list_ascii.
  pose proof (length_filter (λ c, isControl c = false)
                (take maxLength (list_ascii_of_string (trim input)))) as Hf.
  pose proof (length_take_le (list_ascii_of_string (trim input)) maxLength)
    as Ht.
  rewrite length_take in Hf. rewrite length_list_ascii_of_string in Hf.
  pose proof (length_trim input).
  repeat split; [lia..|].
  apply Forall_forall. intros c Hc. by apply list_elem_of_filter in Hc as [? _].
Qed.

Lemma word_not_space_nor_control (c : ascii) :
  isWordOrDash c = true → isSpace c = false ∧ isControl c = false.
Proof.
  destruct c as [[] [] [] [] [] [] [] []]; vm_compute; intuition congruence.
Qed.

Lemma dropSpaces_word (l : list ascii) :
  forallb isWordOrDash l = true → dropSpaces l = l.
Proof.
  destruct l as [|c l]; [done|]. cbn [forallb dropSpaces].
  intros [Hc _]%andb_prop.
  by destruct (word_not_space_nor_control c Hc) as [-> _].
Qed.

Lemma forallb_rev {A} (f : A → bool) (l : list A) :
  forallb f (rev l) = forallb f l.
Proof.
  induction l as [|x l IH]; [done|]. cbn [rev forallb].
  rewrite forallb_app, IH. cbn. destruct (f x), (forallb f l); done.
Qed.

Lemma filter_word (l : list ascii) :
  forallb isWordOrDash l = true → filter (λ c, isControl c = false) l = l.
Proof.
  induction l as [|c l IH]; [done|]. cbn [forallb].
  intros [Hc Hl]%andb_prop. rewrite filter_cons_True.
  - by rewrite IH.
  - by destruct (word_not_space_nor_control c Hc).
Qed.

Lemma sanitizeInput_word (s : string) (lo hi maxLength : nat) :
  matches isWordOrDash lo hi s = true → (hi ≤ maxLength)%nat →
  sanitizeInput s maxLength = s.
Proof.
  unfold matches. intros [Hword Hlen%bool_decide_eq_true]%andb_prop Hhi.
  unfold sanitizeInput. case_bool_decide as Hempty; [done|]. cbn zeta.
  assert (trim s = s) as ->.
  { unfold trim. rewrite (dropSpaces_word _ Hword).
    rewrite dropSpaces_word by by rewrite forallb_rev.
    by rewrite rev_involutive, string_of_list_ascii_of_string. }
  rewrite take_ge by lia. rewrite (filter_word _ Hword).
  apply string_of_list_ascii_of_string.
Qed.

Lemma forallb_impl {A} (f g : A → bool) (l : list A) :
  (∀ x, f x = true → g x = true) → forallb f l = true → forallb g l = true.
Proof.
  intros Hfg. induction l as [|x l IH]; [done|]. cbn [forallb].
  intros [Hx Hl]%andb_prop. by rewrite (Hfg x Hx), (IH Hl).
Qed.

(** X6. A username the server accepts is left as it is by the sanitiser
    the [join] branch runs first (so what is validated is what the client
    sent), and it is also acceptable as a user id and as a room name. *)
Theorem valid_username_unchanged (username : string) :
  isValidUsername username = true →
  sanitizeInput username 50 = username
  ∧ isValidUserId username = true
  ∧ isValidRoomName username = true.
Proof.
  unfold isValidUsername, isValidUserId, isValidRoomName.
  case_bool_decide as Hempty; [done|]. intros Hvalid.
  split; [by apply (sanitizeInput_word username 1 50)|].
  unfold matches in *.
  apply andb_prop in Hvalid as [Hword Hlen%bool_decide_eq_true].
  split; apply andb_true_intro; split.
  - done.
  - apply bool_decide_eq_true. lia.
  - apply (forallb_impl isWordOrDash); [|done].
    intros c Hc. by rewrite Hc.
  - apply bool_decide_eq_true. lia.
Qed.

Lemma valid_username_unchanged_witness :
  sanitizeInput "alice" 50 = "alice"
  ∧ isValidUserId "alice" = true
  ∧ isValidRoomName "alice" = true.
Proof. apply (valid_username_unchanged "alice"). reflexivity. Defined.

End SecurityFacts.

(** ** More of the rooms *)

Section RoomMore.
Import Server.

Lemma received_app client es1 es2 :
  received client (es1 ++ es2) = received client es1 ++ received client es2.
Proof. unfold received. apply omap_app. Qed.

Lemma published_app es1 es2 :
  published (es1 ++ es2) = published es1 ++ published es2.
Proof. unfold published. apply omap_app. Qed.

Lemma published_sends (data : Out.t) (l : list conn) :
  published ((λ c, Sent c data) <$> l) = [].
Proof. by induction l. Qed.

Lemma published_fanout env roomName data exclude fromRedis members :
  published (fanout env roomName data exclude fromRedis members)
  = if redisEnabled env && negb fromRedis
    then [Broadcast (instanceId env) roomName data] else [].
Proof.
  unfold fanout. rewrite published_app, published_sends.
  by destruct (_ && _).
Qed.

Lemma received_skipped env roomName data exclude fromRedis members client :
  client ∉ members ∨ Some client = exclude ∨ sendThrows env client = true →
  received client (fanout env roomName data exclude fromRedis members) = [].
Proof.
  intros Hskip. unfold fanout. rewrite received_app.
  assert (received client
            (if redisEnabled env && negb fromRedis
             then [Published (Broadcast (instanceId env) roomName data)]
             else []) = []) as -> by by destruct (_ && _).
  rewrite app_nil_r.
  induction members as [|c members IH]; [done|].
  rewrite filter_cons. destruct (decide _) as [[Hex Hsend]|Hno].
  - rewrite fmap_cons. unfold received in *. cbn [omap list_omap].
    destruct (decide (c = client)) as [->|Hne].
    + destruct Hskip as [Hskip|[Hskip|Hskip]];
        [by destruct Hskip; left | done | congruence].
    + apply IH. destruct Hskip as [Hskip|Hskip]; [|by right].
      left. intros ?. apply Hskip. by right.
  - apply IH. destruct Hskip as [Hskip|Hskip]; [|by right].
    left. intros ?. apply Hskip. by right.
Qed.

(** X7. A broadcast to a room changes none of the maps. Every member of
    the room that is not the excluded socket and whose [send] does not
    throw receives the payload exactly once, also when the sockets of other
    members throw; nobody else receives anything. The payload is published
    on the relay once, and only when the room exists here, the relay is
    enabled and the broadcast did not itself come from the relay. *)
Theorem broadcast_delivery (w : World) (env : Env) (roomName : string)
    (data : Out.t) (exclude : option conn) (fromRedis : bool) :
  reachable w →
  state (exec (broadcastToRoom env roomName data exclude fromRedis) w)
  = state w
  ∧ (∀ client,
       member (state w) client roomName → Some client ≠ exclude →
       sendThrows env client = false →
       received client
         (effects (broadcastToRoom env roomName data exclude fromRedis) w)
       = [data])
  ∧ (∀ client,
       ¬ member (state w) client roomName ∨ Some client = exclude
       ∨ sendThrows env client = true →
       received client
         (effects (broadcastToRoom env roomName data exclude fromRedis) w)
       = [])
  ∧ published
      (effects (broadcastToRoom env roomName data exclude fromRedis) w)
    = match rooms (state w) !! roomName with
      | Some _ =>
          if redisEnabled env && negb fromRedis
          then [Broadcast (instanceId env) roomName data] else []
      | None => []
      end.
Proof.
  intros Hw.
  pose proof (broadcastToRoom_run env roomName data exclude fromRedis w)
    as Hrun.
  apply exec_record in Hrun as [Hstate Heffects]. rewrite Heffects.
  split; [done|].
  destruct (rooms (state w) !! roomName) as [room|] eqn:Hroom.
  - pose proof (proj1 (reachable_distinct w Hw) roomName room Hroom) as Hnd.
    split; [|split].
    + intros client [room' [Hroom' Hin]] Hex Hsend.
      rewrite Hroom in Hroom'. injection Hroom' as <-.
      rewrite received_fanout by done. by rewrite bool_decide_eq_true_2.
    + intros client Hskip. apply received_skipped.
      destruct Hskip as [Hskip|Hskip]; [|by right].
      left. intros Hin. apply Hskip. by exists room.
    + apply published_fanout.
  - split; [|done]. intros client [room [? _]]. congruence.
Qed.

Lemma broadcast_delivery_witness :
  state (exec (broadcastToRoom Scenario.broken2 "general"
                 (Out.typing "general" ["alice"]) (Some 1%nat) false)
           Scenario.three) = state Scenario.three
  ∧ received 3%nat
      (effects (broadcastToRoom Scenario.broken2 "general"
                  (Out.typing "general" ["alice"]) (Some 1%nat) false)
         Scenario.three) = [Out.typing "general" ["alice"]]
  ∧ received 2%nat
      (effects (broadcastToRoom Scenario.broken2 "general"
                  (Out.typing "general" ["alice"]) (Some 1%nat) false)
         Scenario.three) = [].
Proof.
  destruct (broadcast_delivery Scenario.three Scenario.broken2 "general"
              (Out.typing "general" ["alice"]) (Some 1%nat) false)
    as (Hstate & Hgets & Hskips & _).
  - apply reachable_play, reachable_start.
  - split; [exact Hstate|]. split.
    + apply (Hgets 3%nat).
      * exists {| name := "general"; clients := [1; 2; 3]%nat |}.
        split; [vm_compute; reflexivity|].
        cbn [clients]. rewrite !elem_of_cons. by right; right; left.
      * discriminate.
      * reflexivity.
    + apply (Hskips 2%nat). right. right. reflexivity.
Defined.

(** X8. [leaveRoom(ws, roomName)] removes the membership of [ws] in
    [roomName] and no other: every other socket stays in every room it was
    in, and [ws] stays in its other rooms. It writes neither the identity
    of [ws], nor the presence directory, nor the typing lists, and it sends
    nothing to [ws] itself. *)
Theorem leave_removes_membership (w : World) (env : Env) (ws : conn)
    (roomName : string) :
  (∀ ws' roomName',
      member (state (exec (leaveRoom env ws roomName) w)) ws' roomName'
      ↔ member (state w) ws' roomName' ∧ ¬ (ws' = ws ∧ roomName' = roomName))
  ∧ clientData (state (exec (leaveRoom env ws roomName) w))
    = clientData (state w)
  ∧ userIdToSocket (state (exec (leaveRoom env ws roomName) w))
    = userIdToSocket (state w)
  ∧ typingUsers (state (exec (leaveRoom env ws roomName) w))
    = typingUsers (state w)
  ∧ received ws (effects (leaveRoom env ws roomName) w) = [].
Proof.
  pose proof (leaveRoom_run env ws roomName w) as Hrun.
  rewrite (state_record _ _ _ _ _ Hrun), (effects_record _ _ _ _ _ Hrun).
  destruct (rooms (state w) !! roomName) as [room|] eqn:Hroom.
  - split; [intros ws' roomName'; apply member_depart; rewrite Hroom; eauto|].
    unfold depart, leaveEffects. rewrite Hroom. cbn zeta.
    case_bool_decide; [done|]. repeat split.
    apply received_skipped. left. rewrite elem_of_delete. naive_solver.
  - rewrite depart_absent by done. unfold leaveEffects. rewrite Hroom.
    split; [|by repeat split].
    intros ws' roomName'. split; [|naive_solver].
    intros Hmem. split; [done|]. intros [-> ->].
    destruct Hmem as (room & Hroom' & _). congruence.
Qed.

Lemma delete_add {A} `{EqDecision A} (x : A) (l : list A) :
  JsSet.delete x (JsSet.add x l) = JsSet.delete x l.
Proof.
  unfold JsSet.add, JsSet.has. case_bool_decide; [done|].
  unfold JsSet.delete. rewrite filter_app, filter_cons_False by naive_solver.
  by rewrite filter_nil, app_nil_r.
Qed.

(** X9. Joining a room and leaving it again is a round trip for the room
    registry: for a socket that was not in the room, in a reachable world,
    [joinRoom] followed by [leaveRoom] gives back the rooms, with their
    clients in the same order (a room created by the join is deleted
    again), the list [getRoomList] serves, and the room sets of all
    sockets. *)
Theorem join_then_leave (w : World) (env env' : Env) (ws : conn)
    (roomName username : string) :
  reachable w → ¬ member (state w) ws roomName →
  rooms (state (exec (leaveRoom env' ws roomName)
                  (exec (joinRoom env ws roomName username) w)))
  = rooms (state w)
  ∧ getRoomList (state (exec (leaveRoom env' ws roomName)
                          (exec (joinRoom env ws roomName username) w)))
    = getRoomList (state w)
  ∧ (∀ ws' roomName',
       tracked (state (exec (leaveRoom env' ws roomName)
                         (exec (joinRoom env ws roomName username) w)))
         ws' roomName'
       ↔ tracked (state w) ws' roomName').
Proof.
  intros Hw Hout. pose proof (reachable_invariant w Hw) as [Hne Hco].
  pose proof (joinRoom_run env ws roomName username w) as Hjoin.
  cbn zeta in Hjoin. apply state_record in Hjoin.
  pose proof (leaveRoom_run env' ws roomName
                (exec (joinRoom env ws roomName username) w)) as Hleave.
  apply state_record in Hleave. rewrite Hleave, Hjoin. clear Hleave Hjoin.
  set (s := state w) in *.
  assert (rooms (depart ws roomName (enter ws roomName s)) = rooms s) as Hrooms.
  { set (room0 := default {| name := roomName; clients := [] |}
                    (rooms s !! roomName)).
    assert (rooms (enter ws roomName s)
            = <[roomName := {| name := name room0;
                               clients := JsSet.add ws (clients room0) |}]>
                (rooms s)) as Henter by done.
    assert (ws ∉ clients room0) as Hws.
    { unfold room0. destruct (rooms s !! roomName) as [room|] eqn:Hroom;
        cbn [default clients]; [|apply not_elem_of_nil].
      intros ?. apply Hout. by exists room. }
    unfold depart. rewrite Henter, lookup_insert_eq. cbn zeta.
    cbn [clients name]. rewrite delete_add, delete_not_member by done.
    case_bool_decide as Hsize;
      cbn [rooms set_rooms set_clientRooms]; rewrite Henter.
    - rewrite delete_insert_eq. apply delete_id.
      apply size_zero in Hsize. unfold room0 in Hsize.
      destruct (rooms s !! roomName) as [room|] eqn:Hroom; [|done].
      cbn [default] in Hsize. by destruct (Hne roomName room).
    - rewrite insert_insert_eq, room_eta. apply insert_id.
      unfold room0 in *.
      destruct (rooms s !! roomName) as [room|] eqn:Hroom; [done|].
      by destruct Hsize. }
  split; [done | split].
  - unfold getRoomList. by rewrite Hrooms.
  - intros ws' roomName'.
    rewrite tracked_depart
      by (unfold enter; cbn; rewrite lookup_insert_eq; eauto).
    rewrite tracked_enter. split; [naive_solver|].
    intros Htr. split; [by right|]. intros [-> ->].
    apply Hout. by apply Hco.
Qed.

Lemma join_then_leave_witness :
  rooms (state (exec (leaveRoom Scenario.env 1%nat "lobby")
                  (exec (joinRoom Scenario.env 1%nat "lobby" "alice")
                     Scenario.three)))
  = rooms (state Scenario.three)
  ∧ getRoomList (state (exec (leaveRoom Scenario.env 1%nat "lobby")
                          (exec (joinRoom Scenario.env 1%nat "lobby" "alice")
                             Scenario.three)))
    = getRoomList (state Scenario.three).
Proof.
  destruct (join_then_leave Scenario.three Scenario.env Scenario.env 1%nat
              "lobby" "alice") as (Hrooms & Hlist & _).
  - apply reachable_play, reachable_start.
  - intros (room & Hroom & _). vm_compute in Hroom. discriminate.
  - split; [exact Hrooms | exact Hlist].
Defined.

Lemma setTyping_run env roomName username isTyping w :
  setTyping env roomName username isTyping w
  = (Returned tt,
     record
       (match rooms (state w) !! roomName with
        | Some room =>
            fanout env roomName
              (Out.typing roomName
                 ((if isTyping then JsSet.add username
                   else JsSet.delete username)
                    (default [] (typingUsers (state w) !! roomName))))
              None false (clients room)
        | None => []
        end)
       (with_state
          (set_typingUsers
             (<[roomName := (if isTyping then JsSet.add username
                             else JsSet.delete username)
                              (default [] (typingUsers (state w) !! roomName))]>)
             (state w)) w)).
Proof.
  unfold setTyping, bind, get, modify. rewrite broadcastToRoom_run.
  by destruct isTyping.
Qed.

(** X10. Typing state is kept per room as a set of user names. When a
    user starts and then stops typing in a room, the room's typing list
    is the one from before without that user, the others in their order,
    and that list is what the second notification carries to every client
    of the room whose socket takes it. [setTyping] writes no other map,
    and it records the state also for a room that does not exist. *)
Theorem typing_start_stop (w : World) (env env' : Env)
    (roomName username : string) :
  let before := default [] (typingUsers (state w) !! roomName) in
  let w1 := exec (setTyping env roomName username true) w in
  let w2 := exec (setTyping env' roomName username false) w1 in
  (username ∈ default [] (typingUsers (state w1) !! roomName))
  ∧ typingUsers (state w2) !! roomName
    = Some (JsSet.delete username before)
  ∧ (username ∉ default [] (typingUsers (state w2) !! roomName))
  ∧ effects (setTyping env' roomName username false) w1
    = match rooms (state w) !! roomName with
      | Some room =>
          fanout env' roomName
            (Out.typing roomName (JsSet.delete username before))
            None false (clients room)
      | None => []
      end
  ∧ rooms (state w2) = rooms (state w)
  ∧ clientRooms (state w2) = clientRooms (state w)
  ∧ clientData (state w2) = clientData (state w)
  ∧ userIdToSocket (state w2) = userIdToSocket (state w)
  ∧ (∀ roomName', roomName' ≠ roomName →
       typingUsers (state w2) !! roomName'
       = typingUsers (state w) !! roomName').
Proof.
  intros before w1 w2.
  pose proof (setTyping_run env roomName username true w) as Hstart.
  pose proof (setTyping_run env' roomName username false w1) as Hstop.
  assert (state w1
          = set_typingUsers (<[roomName := JsSet.add username before]>)
              (state w)) as Hs1
    by (unfold w1; by rewrite (state_record _ _ _ _ _ Hstart)).
  rewrite (effects_record _ _ _ _ _ Hstop).
  assert (state w2
          = set_typingUsers
              (<[roomName := JsSet.delete username
                               (default [] (typingUsers (state w1) !! roomName))]>)
              (state w1)) as Hs2
    by (unfold w2; by rewrite (state_record _ _ _ _ _ Hstop)).
  rewrite Hs2, Hs1. cbn [typingUsers rooms clientRooms clientData
                            userIdToSocket set_typingUsers].
  rewrite !lookup_insert_eq. cbn [default].
  change (id (JsSet.add username before)) with (JsSet.add username before).
  change (id (JsSet.delete username (JsSet.add username before)))
    with (JsSet.delete username (JsSet.add username before)).
  rewrite delete_add. repeat split.
  - apply elem_of_add. by left.
  - rewrite elem_of_delete. naive_solver.
  - intros roomName' Hother. by rewrite !lookup_insert_ne.
Qed.

(** X11. In a reachable world every client of a room has an identity, so
    the list [getOnlineUsers] serves for a room has exactly one name per
    client, in the order the clients joined: the user count of a
    [user_joined] notification and the length of [user_list] agree. *)
Theorem online_users_are_members (w : World) (roomName : string)
    (room : Room) :
  reachable w → rooms (state w) !! roomName = Some room →
  Forall2 (λ ws name,
             ∃ userData, clientData (state w) !! ws = Some userData
                         ∧ username userData = name)
    (clients room) (getOnlineUsers (state w) roomName)
  ∧ List.length (getOnlineUsers (state w) roomName) = JsSet.size (clients room).
Proof.
  intros Hw Hroom. pose proof (reachable_identified w Hw) as Hid.
  assert (Forall2 (λ ws name,
                     ∃ userData, clientData (state w) !! ws = Some userData
                                 ∧ username userData = name)
            (clients room) (getOnlineUsers (state w) roomName)) as Hall.
  { unfold getOnlineUsers. rewrite Hroom.
    assert (∀ ws, ws ∈ clients room → is_Some (clientData (state w) !! ws))
      as Hsome by (intros ws Hin; apply (Hid ws roomName); by exists room).
    clear Hroom. induction (clients room) as [|ws l IH]; [constructor|].
    cbn [omap list_omap].
    destruct (Hsome ws) as [userData Hud]; [by left|]. rewrite Hud.
    cbn [fmap option_fmap option_map]. constructor; [by exists userData|].
    apply IH. intros ws' Hin. apply Hsome. by right. }
  split; [done|]. symmetry. by eapply Forall2_length.
Qed.

Lemma online_users_are_members_witness :
  Forall2 (λ ws name,
             ∃ userData, clientData (state Scenario.three) !! ws = Some userData
                         ∧ username userData = name)
    [1; 2; 3]%nat (getOnlineUsers (state Scenario.three) "general")
  ∧ List.length (getOnlineUsers (state Scenario.three) "general") = 3%nat.
Proof.
  apply (online_users_are_members Scenario.three "general"
           {| name := "general"; clients := [1; 2; 3]%nat |}).
  - apply reachable_play, reachable_start.
  - vm_compute. reflexivity.
Defined.

End RoomMore.

(** ** More of the router *)

Section RouterMore.
Import Server.

Lemma forEach_pending env ws (f : Message.t → Out.t) (g : Message.t → Effect)
    (l : list Message.t) w :
  sendThrows env ws = false →
  forEach l (λ msg, send env ws (f msg) >> emit (g msg)) w
  = (Returned tt,
     record (List.concat ((λ msg, [Sent ws (f msg); g msg]) <$> l)) w).
Proof.
  intros Hws. revert w. induction l as [|msg l IH]; intros w.
  - cbn. unfold ret. by rewrite record_nil.
  - cbn [forEach].
    assert ((send env ws (f msg) >> emit (g msg)) w
            = (Returned tt, record [Sent ws (f msg); g msg] w)) as Hbody.
    { unfold bind, send, emit, record. rewrite Hws. cbn.
      by rewrite <- app_assoc. }
    rewrite (bind_run _ _ _ _ _ Hbody), IH, record_record.
    by rewrite fmap_cons.
Qed.

(** X12. A [join] whose sanitised username and room name and whose user
    id are well formed registers the socket: [clientData] holds its
    identity, [userIdToSocket] points the user id at this socket (whatever
    it pointed at before), and the socket is a client of the room, which is
    created when absent. The other clients of the room are sent
    [user_joined]; the socket itself is sent [joined], with the history,
    the users of the room and the number of its undelivered messages, and
    then each of these messages, which is marked delivered. *)
Theorem join_registers (env : Env) (w : World) (ws : conn)
    (username room userId : option string) :
  let name := Security.sanitizeInput (default "Anonymous" username) 50 in
  let roomName := Security.sanitizeInput (default "general" room) 100 in
  let uid := default (pretty (now env)) userId in
  let userData := {| username := name; userId := uid |} in
  let s' := enter ws roomName
              (set_userIdToSocket (<[uid := ws]>)
                 (set_clientData (<[ws := userData]>) (state w))) in
  let joinedRoom := default {| name := roomName; clients := [] |}
                      (rooms s' !! roomName) in
  let pending := filter (λ m, Message.delivered m = false)
                   (getMessages env (byRecipient uid 100)) in
  Security.isValidUsername name = true →
  Security.isValidRoomName roomName = true →
  Security.isValidUserId uid = true →
  sendThrows env ws = false →
  state (exec (on_join env ws username room userId) w) = s'
  ∧ clientData s' !! ws = Some userData
  ∧ userIdToSocket s' !! uid = Some ws
  ∧ member s' ws roomName
  ∧ effects (on_join env ws username room userId) w
    = fanout env roomName
        (Out.user_joined name roomName (JsSet.size (clients joinedRoom)))
        (Some ws) false (clients joinedRoom)
      ++ Sent ws (Out.joined roomName (getMessages env (byRoom roomName 50))
                    (getOnlineUsers s' roomName) uid (List.length pending))
      :: List.concat
           ((λ msg,
               [Sent ws (Out.pending
                           (if bool_decide (Message.messageType msg = "text")
                            then "dm" else "group_message") msg);
                MarkedDelivered (Message.id msg)]) <$> pending).
Proof.
  intros name roomName uid userData s' joinedRoom pending Hname Hroom Huid Hws.
  assert (on_join env ws username room userId w
          = (Returned tt,
             record
               (fanout env roomName
                  (Out.user_joined name roomName
                     (JsSet.size (clients joinedRoom)))
                  (Some ws) false (clients joinedRoom)
                ++ Sent ws (Out.joined roomName
                              (getMessages env (byRoom roomName 50))
                              (getOnlineUsers s' roomName) uid
                              (List.length pending))
                :: List.concat
                     ((λ msg,
                         [Sent ws
                            (Out.pending
                               (if bool_decide (Message.messageType msg = "text")
                                then "dm" else "group_message") msg);
                          MarkedDelivered (Message.id msg)]) <$> pending))
               (with_state s' w))) as Hrun.
  { unfold on_join. cbn zeta. fold name roomName uid.
    rewrite Hname, Hroom, Huid. cbn [negb].
    rewrite !bind_modify. cbv beta.
    rewrite (bind_run _ _ _ _ _ (joinRoom_run _ _ _ _ _)).
    unfold try_catch, bind at 1, get. cbn [state record with_state].
    unfold bind at 1, send at 1. rewrite Hws. unfold emit at 1.
    cbn [fst snd state limiter trace record with_state].
    fold pending. rewrite forEach_pending by done.
    fold userData. fold s'. fold joinedRoom.
    unfold record, with_state. cbn. by rewrite <- !app_assoc. }
  rewrite (state_record _ _ _ _ _ Hrun), (effects_record _ _ _ _ _ Hrun).
  split; [done|]. split; [|split; [|split; [|done]]].
  - unfold s'. cbn. by rewrite lookup_insert_eq.
  - unfold s'. cbn. by rewrite lookup_insert_eq.
  - apply member_enter. by left.
Qed.

Lemma join_registers_witness :
  userIdToSocket
    (state (exec (on_join Scenario.env 2%nat (Some "bob") (Some "general")
                    (Some "bob")) Scenario.alone)) !! "bob" = Some 2%nat
  ∧ effects (on_join Scenario.env 2%nat (Some "bob") (Some "general")
               (Some "bob")) Scenario.alone
    = [Sent 1%nat (Out.user_joined "bob" "general" 2);
       Sent 2%nat (Out.joined "general" [] ["alice"; "bob"] "bob" 0)].
Proof.
  destruct (join_registers Scenario.env Scenario.alone 2%nat (Some "bob")
              (Some "general") (Some "bob"))
    as (Hstate & _ & Huid & _ & Heffects); [reflexivity..|].
  split.
  - etrans; [exact (f_equal (λ s, userIdToSocket s !! "bob") Hstate)|].
    exact Huid.
  - etrans; [exact Heffects|]. vm_compute. reflexivity.
Defined.

(** X13. A [join] that fails one of its three checks fails closed: the
    maps are unchanged (no identity, no presence entry, no room), nothing
    is broadcast, and the sender gets one [error] that names the first
    check that failed. *)
Theorem join_rejected (env : Env) (w : World) (ws : conn)
    (username room userId : option string) :
  let name := Security.sanitizeInput (default "Anonymous" username) 50 in
  let roomName := Security.sanitizeInput (default "general" room) 100 in
  let uid := default (pretty (now env)) userId in
  Security.isValidUsername name && Security.isValidRoomName roomName
    && Security.isValidUserId uid = false →
  sendThrows env ws = false →
  state (exec (on_join env ws username room userId) w) = state w
  ∧ effects (on_join env ws username room userId) w
    = [Sent ws (Out.error
                  (if negb (Security.isValidUsername name)
                   then "Invalid username format"
                   else if negb (Security.isValidRoomName roomName)
                   then "Invalid room name format"
                   else "Invalid userId format"))].
Proof.
  intros name roomName uid Hbad Hws.
  apply exec_record with (r := Returned tt).
  unfold on_join, reply_error, send. cbn zeta. fold name roomName uid.
  rewrite Hws.
  destruct (Security.isValidUsername name); [|done].
  destruct (Security.isValidRoomName roomName); [|done].
  destruct (Security.isValidUserId uid); done.
Qed.

Lemma join_rejected_witness :
  state (exec (on_join Scenario.env 2%nat (Some "bob smith") (Some "general")
                 (Some "bob")) Scenario.alone) = state Scenario.alone
  ∧ effects (on_join Scenario.env 2%nat (Some "bob smith") (Some "general")
               (Some "bob")) Scenario.alone
    = [Sent 2%nat (Out.error "Invalid username format")].
Proof.
  apply (join_rejected Scenario.env Scenario.alone 2%nat (Some "bob smith")
           (Some "general") (Some "bob")); reflexivity.
Defined.

(** X14. A [message] of a socket with an identity, with content that is
    not empty once trimmed and sanitised and a well formed room name, is
    saved and then broadcast to the clients of the room, the sender
    included when it is one of them; the branch does not ask whether the
    sender is in the room, and a room that does not exist gets nothing.
    When the store fails nothing is broadcast and the sender gets one
    [error]. No map changes. *)
Theorem room_message_broadcast (env : Env) (w : World) (ws : conn)
    (userData : UserData) (content room mediaType mediaUrl : option string) :
  let text :=
    Security.sanitizeInput (Security.trim (default "" content)) 5000 in
  let roomName := Security.sanitizeInput (default "general" room) 100 in
  let draft := {| Draft.senderId := userId userData;
                  Draft.username := username userData;
                  Draft.content := text;
                  Draft.roomName := Some roomName;
                  Draft.messageType := default "text" mediaType;
                  Draft.recipientId := None;
                  Draft.mediaUrl := mediaUrl;
                  Draft.mediaType := mediaType;
                  Draft.encrypted := false;
                  Draft.encryptedContent := None;
                  Draft.encryptionMetadata := None |} in
  clientData (state w) !! ws = Some userData →
  text ≠ "" →
  Security.isValidRoomName roomName = true →
  sendThrows env ws = false →
  state (exec (on_message env ws content room mediaType mediaUrl) w) = state w
  ∧ effects (on_message env ws content room mediaType mediaUrl) w
    = match saveMessage env draft with
      | Some savedMsg =>
          Saved draft savedMsg
          :: match rooms (state w) !! roomName with
             | Some joinedRoom =>
                 fanout env roomName (Out.message savedMsg) None false
                   (clients joinedRoom)
             | None => []
             end
      | None => [Sent ws (Out.error "Failed to save message")]
      end.
Proof.
  intros text roomName draft Hud Htext Hroom Hws.
  apply exec_record with (r := Returned tt).
  unfold on_message, bind at 1, get. rewrite Hud. cbn zeta.
  fold text roomName. rewrite bool_decide_eq_false_2 by done.
  rewrite Hroom. cbn [negb]. fold draft.
  unfold try_catch.
  destruct (saveMessage env draft) as [savedMsg|] eqn:Hsave.
  - assert (save env draft w
            = (Returned savedMsg, record [Saved draft savedMsg] w)) as Hsaved
      by (unfold save; by rewrite Hsave).
    rewrite (bind_run _ _ _ _ _ Hsaved), broadcastToRoom_run.
    by rewrite record_record.
  - unfold bind, save. rewrite Hsave.
    unfold throw, reply_error, send. by rewrite Hws.
Qed.

Lemma room_message_broadcast_witness :
  effects (on_message Scenario.env 1%nat (Some "hello") (Some "general") None
             None) Scenario.three
  = match saveMessage Scenario.env
            {| Draft.senderId := "alice"; Draft.username := "alice";
               Draft.content := "hello"; Draft.roomName := Some "general";
               Draft.messageType := "text"; Draft.recipientId := None;
               Draft.mediaUrl := None; Draft.mediaType := None;
               Draft.encrypted := false; Draft.encryptedContent := None;
               Draft.encryptionMetadata := None |} with
    | Some savedMsg =>
        [Saved {| Draft.senderId := "alice"; Draft.username := "alice";
                  Draft.content := "hello"; Draft.roomName := Some "general";
                  Draft.messageType := "text"; Draft.recipientId := None;
                  Draft.mediaUrl := None; Draft.mediaType := None;
                  Draft.encrypted := false; Draft.encryptedContent := None;
                  Draft.encryptionMetadata := None |} savedMsg;
         Sent 1%nat (Out.message savedMsg);
         Sent 2%nat (Out.message savedMsg);
         Sent 3%nat (Out.message savedMsg)]
    | None => []
    end.
Proof.
  destruct (room_message_broadcast Scenario.env Scenario.three 1%nat
              (Build_UserData "alice" "alice") (Some "hello") (Some "general")
              None None) as [_ Heffects];
    [vm_compute; reflexivity | vm_compute; discriminate | reflexivity
    | reflexivity |].
  etrans; [exact Heffects|]. vm_compute. reflexivity.
Defined.

(** X15. A [signal] of a socket with an identity, to a well formed user id
    and with a payload, is never stored. When the recipient is registered
    here its socket is sent the signal and the sender [signal_sent]; when
    that send throws the sender gets one [error]. When the recipient is not
    registered here the signal is published on the relay, if it is
    enabled, and acknowledged with [via: redis]; without relay the sender
    gets the error [Recipient not connected]. No map changes. *)
Theorem signal_routing (env : Env) (w : World) (ws : conn)
    (userData : UserData) (to payload : string) :
  clientData (state w) !! ws = Some userData →
  Security.isValidUserId to = true →
  sendThrows env ws = false →
  state (exec (on_signal env ws (Some to) (Some payload)) w) = state w
  ∧ effects (on_signal env ws (Some to) (Some payload)) w
    = match userIdToSocket (state w) !! to with
      | Some recipientSocket =>
          if sendThrows env recipientSocket
          then [Sent ws (Out.error "Failed to forward signal")]
          else [Sent recipientSocket (Out.signal (userId userData) payload);
                Sent ws (Out.signal_sent to None)]
      | None =>
          if redisEnabled env
          then [Published (Signal (instanceId env) to payload);
                Sent ws (Out.signal_sent to (Some "redis"))]
          else [Sent ws (Out.error "Recipient not connected")]
      end.
Proof.
  intros Hud Hto Hws. apply exec_record with (r := Returned tt).
  unfold on_signal, bind at 1, get. rewrite Hud. cbn [default].
  change (id to) with to. rewrite Hto. cbn [negb].
  destruct (userIdToSocket (state w) !! to) as [recipientSocket|].
  - unfold try_catch, bind, send, reply_error, send.
    destruct (sendThrows env recipientSocket) eqn:Hrs.
    + unfold throw. by rewrite Hws.
    + destruct (decide (recipientSocket = ws)) as [->|Hne].
      * rewrite Hws. unfold emit, record. cbn. by rewrite <- app_assoc.
      * rewrite Hws. unfold emit, record. cbn. by rewrite <- app_assoc.
  - destruct (redisEnabled env) eqn:Hredis.
    + unfold publishSignal, bind, send. rewrite Hredis, Hws. cbn [negb].
      unfold emit, record. cbn. by rewrite <- app_assoc.
    + unfold reply_error, send. by rewrite Hws.
Qed.

Lemma signal_routing_witness :
  effects (on_signal Scenario.env 1%nat (Some "bob") (Some "offer"))
    Scenario.three
  = [Sent 2%nat (Out.signal "alice" "offer");
     Sent 1%nat (Out.signal_sent "bob" None)]
  ∧ effects (on_signal Scenario.relayed 1%nat (Some "dave") (Some "offer"))
      Scenario.three
    = [Published (Signal "A" "dave" "offer");
       Sent 1%nat (Out.signal_sent "dave" (Some "redis"))].
Proof.
  split.
  - destruct (signal_routing Scenario.env Scenario.three 1%nat
                (Build_UserData "alice" "alice") "bob" "offer")
      as [_ Heffects]; [vm_compute; reflexivity | reflexivity..|].
    etrans; [exact Heffects|]. vm_compute. reflexivity.
  - destruct (signal_routing Scenario.relayed Scenario.three 1%nat
                (Build_UserData "alice" "alice") "dave" "offer")
      as [_ Heffects]; [vm_compute; reflexivity | reflexivity..|].
    etrans; [exact Heffects|]. vm_compute. reflexivity.
Defined.

(** X16. A [dm] is refused before anything is stored: when the
    recipient id is malformed, the content is empty once trimmed and
    sanitised, or a block stands between the two users, the sender gets
    one [error] naming the first of these reasons, and nothing is saved,
    queued or sent to the recipient, registered or not. No map changes. *)
Theorem dm_refused_unsaved (env : Env) (w : World) (ws : conn)
    (userData : UserData) (recipientId content mediaType mediaUrl : option string)
    (encrypted : bool) (encryptedContent : option string) :
  let to := default "" recipientId in
  let text :=
    Security.sanitizeInput (Security.trim (default "" content)) 5000 in
  clientData (state w) !! ws = Some userData →
  sendThrows env ws = false →
  Security.isValidUserId to = false ∨ text = ""
  ∨ isBlocked env (userId userData) to = true →
  state (exec (on_dm env ws recipientId content mediaType mediaUrl encrypted
                 encryptedContent) w) = state w
  ∧ effects (on_dm env ws recipientId content mediaType mediaUrl encrypted
               encryptedContent) w
    = [Sent ws (Out.error
                  (if negb (Security.isValidUserId to)
                   then "Invalid recipientId format"
                   else if bool_decide (text = "")
                   then "recipientId and content required"
                   else "Cannot send message to this user"))].
Proof.
  intros to text Hud Hws Hbad. apply exec_record with (r := Returned tt).
  unfold on_dm, bind at 1, get. rewrite Hud. cbn zeta. fold to text.
  unfold reply_error, send. rewrite Hws.
  destruct (Security.isValidUserId to) eqn:Hto; cbn [negb]; [|done].
  rewrite (bool_decide_eq_false_2 (to = ""))
    by by apply isValidUserId_nonempty.
  cbn [orb]. case_bool_decide as Htext; [done|].
  destruct Hbad as [Hbad|[Hbad|Hbad]]; [done..|]. by rewrite Hbad.
Qed.

Lemma dm_refused_unsaved_witness :
  state (exec (on_dm Scenario.blocking 1%nat (Some "bob") (Some "hi") None
                 None false None) Scenario.three) = state Scenario.three
  ∧ effects (on_dm Scenario.blocking 1%nat (Some "bob") (Some "hi") None None
               false None) Scenario.three
    = [Sent 1%nat (Out.error "Cannot send message to this user")].
Proof.
  destruct (dm_refused_unsaved Scenario.blocking Scenario.three 1%nat
              (Build_UserData "alice" "alice") (Some "bob") (Some "hi") None
              None false None) as [Hstate Heffects].
  - vm_compute. reflexivity.
  - reflexivity.
  - right. right. reflexivity.
  - split; [exact Hstate|]. etrans; [exact Heffects|]. vm_compute. reflexivity.
Defined.

(** X17. A [dm] that fails after it was stored leaves the stored message
    undelivered: when the recipient is registered and the send to its
    socket throws, or when the recipient is not registered and the offline
    queue in use throws, the message has been saved, it is not marked
    delivered, and the sender gets the error [Failed to send DM]; so the
    recipient is given the message as pending at its next [join] although
    the sender was told of a failure. When the store itself fails nothing
    is saved and the sender gets the same error. *)
Theorem dm_failure_after_save (env : Env) (w : World) (ws : conn)
    (userData : UserData) (recipientId : string)
    (content mediaType mediaUrl : option string) (encrypted : bool)
    (encryptedContent : option string) :
  let text :=
    Security.sanitizeInput (Security.trim (default "" content)) 5000 in
  let draft := dmDraft userData recipientId text mediaType mediaUrl
                 encrypted encryptedContent in
  clientData (state w) !! ws = Some userData →
  text ≠ "" →
  Security.isValidUserId recipientId = true →
  isBlocked env (userId userData) recipientId = false →
  sendThrows env ws = false →
  match userIdToSocket (state w) !! recipientId with
  | Some recipientSocket => sendThrows env recipientSocket = true
  | None => useRabbitMQ env = true ∧ queueThrows env = true
  end
  ∨ saveMessage env draft = None →
  state (exec (on_dm env ws (Some recipientId) content mediaType mediaUrl
                 encrypted encryptedContent) w) = state w
  ∧ effects (on_dm env ws (Some recipientId) content mediaType mediaUrl
               encrypted encryptedContent) w
    = match saveMessage env draft with
      | Some savedMsg =>
          [Saved draft savedMsg; Sent ws (Out.error "Failed to send DM")]
      | None => [Sent ws (Out.error "Failed to send DM")]
      end.
Proof.
  intros text draft Hud Htext Hto Hfree Hws Hfail.
  apply exec_record with (r := Returned tt).
  unfold on_dm, bind at 1, get. rewrite Hud. cbn zeta. cbn [default].
  change (id recipientId) with recipientId. fold text.
  rewrite Hto, Hfree. cbn [negb].
  rewrite (bool_decide_eq_false_2 (recipientId = ""))
    by by apply isValidUserId_nonempty.
  rewrite (bool_decide_eq_false_2 (text = "")) by done. cbn [orb].
  fold draft. unfold try_catch.
  destruct (saveMessage env draft) as [savedMsg|] eqn:Hsave.
  - assert (save env draft w
            = (Returned savedMsg, record [Saved draft savedMsg] w)) as Hsaved
      by (unfold save; by rewrite Hsave).
    rewrite (bind_run _ _ _ _ _ Hsaved).
    destruct Hfail as [Hfail|?]; [|done].
    destruct (userIdToSocket (state w) !! recipientId) as [recipientSocket|].
    + unfold bind, send, reply_error, send. rewrite Hfail. unfold throw.
      rewrite Hws. unfold emit, record. cbn. by rewrite <- app_assoc.
    + destruct Hfail as [Hmq Hthrows]. rewrite Hmq.
      unfold bind, queue, reply_error, send. rewrite Hthrows. unfold throw.
      rewrite Hws. unfold emit, record. cbn. by rewrite <- app_assoc.
  - unfold bind, save. rewrite Hsave. unfold throw, reply_error, send.
    by rewrite Hws.
Qed.

Lemma dm_failure_after_save_witness :
  effects (on_dm Scenario.broken2 1%nat (Some "bob") (Some "hi") None None
             false None) Scenario.three
  = [Saved (dmDraft (Build_UserData "alice" "alice") "bob" "hi" None None
              false None)
       (Scenario.stored (dmDraft (Build_UserData "alice" "alice") "bob" "hi"
                           None None false None));
     Sent 1%nat (Out.error "Failed to send DM")].
Proof.
  destruct (dm_failure_after_save Scenario.broken2 Scenario.three 1%nat
              (Build_UserData "alice" "alice") "bob" (Some "hi") None None
              false None) as [_ Heffects].
  - vm_compute. reflexivity.
  - vm_compute. discriminate.
  - reflexivity.
  - reflexivity.
  - reflexivity.
  - left. vm_compute. reflexivity.
  - etrans; [exact Heffects|]. vm_compute. reflexivity.
Defined.

(** X18. A frame over the rate limit is not processed, whatever it holds,
    malformed JSON included: the maps are unchanged and the sender gets one
    reply with [remaining] and [resetAt]. The refused frame is counted all
    the same: the limiter is the one [rateLimitWebSocket] leaves, with the
    count of the sender's window one higher and its end unmoved. *)
Theorem refused_frame_counted (env : Env) (w : World) (ws : conn)
    (data : option In.t) (entry : RateLimit.RateLimitStore) :
  RateLimit.store (limiter w) !! identifier env ws = Some entry →
  now env ≤ RateLimit.resetTime entry →
  RateLimit.maxWsMessages (limiter w) ≤ RateLimit.count entry →
  sendThrows env ws = false →
  state (exec (message env ws data) w) = state w
  ∧ effects (message env ws data) w
    = [Sent ws (Out.rate_limited 0 (RateLimit.resetTime entry))]
  ∧ RateLimit.store (limiter (exec (message env ws data) w))
      !! identifier env ws
    = Some {| RateLimit.count := RateLimit.count entry + 1;
              RateLimit.resetTime := RateLimit.resetTime entry |}.
Proof.
  intros Hentry Hnow Hfull Hws.
  pose proof (currentEntry_within (limiter w) (now env) (identifier env ws)
                entry Hentry Hnow) as Hcur.
  pose proof (checkLimit_stored (limiter w) (now env) (identifier env ws) true)
    as Hstored.
  rewrite Hcur in Hstored.
  assert (message env ws data w
          = (Returned tt,
             record [Sent ws (Out.rate_limited 0 (RateLimit.resetTime entry))]
               {| state := state w;
                  limiter := (RateLimit.rateLimitWebSocket (limiter w)
                                (now env) (identifier env ws)).2;
                  trace := trace w |})) as Hrun.
  { unfold message, bind, rateLimit, RateLimit.rateLimitWebSocket,
      RateLimit.checkLimit. cbn zeta. rewrite Hcur.
    cbn [RateLimit.allowed RateLimit.remaining RateLimit.resetAt
           RateLimit.count RateLimit.resetTime].
    assert ((RateLimit.count entry + 1 <=? RateLimit.maxWsMessages (limiter w))
            = false) as -> by lia.
    cbn [negb]. unfold send. rewrite Hws.
    replace (Z.max 0 (RateLimit.maxWsMessages (limiter w)
                      - (RateLimit.count entry + 1))) with 0 by lia.
    done. }
  unfold effects, exec. rewrite Hrun.
  cbn [snd state limiter trace record].
  rewrite drop_app_length. by repeat split.
Qed.

Lemma refused_frame_counted_witness :
  state (exec (message Scenario.env 1%nat None)
           {| state := state Scenario.three;
              limiter := (RateLimit.run Scenario.capped
                            (replicate 5 (RateLimit.Build_Call "ws:1" 1000
                                            true))).2;
              trace := [] |}) = state Scenario.three
  ∧ effects (message Scenario.env 1%nat None)
      {| state := state Scenario.three;
         limiter := (RateLimit.run Scenario.capped
                       (replicate 5 (RateLimit.Build_Call "ws:1" 1000 true))).2;
         trace := [] |}
    = [Sent 1%nat (Out.rate_limited 0 61000)].
Proof.
  destruct (refused_frame_counted Scenario.env
              {| state := state Scenario.three;
                 limiter := (RateLimit.run Scenario.capped
                               (replicate 5 (RateLimit.Build_Call "ws:1" 1000
                                               true))).2;
                 trace := [] |} 1%nat None
              {| RateLimit.count := 5; RateLimit.resetTime := 61000 |})
    as (Hstate & Heffects & _).
  - vm_compute. reflexivity.
  - vm_compute. discriminate.
  - vm_compute. discriminate.
  - reflexivity.
  - split; [|exact Heffects].
    etrans; [exact Hstate|]. cbn [state]. reflexivity.
Defined.

(** X19. What the relay hands to this process never changes the maps and
    is never published again. A frame that does not parse, a [null]
    frame, a payload of this process itself, and any frame when the relay
    is not enabled, have no effect at all. A broadcast of another process
    is sent to every client of its room whose socket takes it, nobody
    excluded; a signal of another process is sent to the socket its
    recipient is registered at, if any, and a failure of that send is
    swallowed. *)
Theorem relayed_frame (env : Env) (w : World) (frame : Frame) :
  state (exec (perform env (Relayed frame)) w) = state w
  ∧ published (effects (perform env (Relayed frame)) w) = []
  ∧ effects (perform env (Relayed frame)) w
    = if negb (redisEnabled env) then []
      else
        match frame with
        | Malformed | Null => []
        | Parsed p =>
            if bool_decide (origin p = instanceId env) then []
            else
              match p with
              | Broadcast _ roomName data =>
                  match rooms (state w) !! roomName with
                  | Some room =>
                      (λ client, Sent client data)
                        <$> filter (λ client, sendThrows env client = false)
                              (clients room)
                  | None => []
                  end
              | Signal from to payload =>
                  match userIdToSocket (state w) !! to with
                  | Some recipientSocket =>
                      if sendThrows env recipientSocket then []
                      else [Sent recipientSocket (Out.signal from payload)]
                  | None => []
                  end
              end
        end.
Proof.
  assert (∀ es, perform env (Relayed frame) w = (Returned tt, record es w) →
                published es = [] →
                state (exec (perform env (Relayed frame)) w) = state w
                ∧ published (effects (perform env (Relayed frame)) w) = []
                ∧ effects (perform env (Relayed frame)) w = es) as Hfrom.
  { intros es Hrun Hes. apply exec_record in Hrun as [Hstate Heffects].
    by rewrite Heffects. }
  destruct (redisEnabled env) eqn:Hredis; cbn [negb].
  2:{ apply Hfrom; [|done]. cbn [perform]. unfold onRedisMessage.
      rewrite Hredis. cbn [negb]. unfold ret. by rewrite record_nil. }
  assert (∀ es, subscriber env (onRelayed env) frame w
                = (Returned tt, record es w) →
                perform env (Relayed frame) w = (Returned tt, record es w))
    as Hsub.
  { intros es Hrun. cbn [perform]. unfold onRedisMessage.
    rewrite Hredis. by cbn [negb]. }
  destruct frame as [| |p].
  - apply Hfrom; [|done]. apply Hsub. unfold subscriber, try_catch, throw, ret.
    by rewrite record_nil.
  - apply Hfrom; [|done]. apply Hsub. unfold subscriber, try_catch, ret.
    by rewrite record_nil.
  - case_bool_decide as Hself.
    { apply Hfrom; [|done]. apply Hsub. unfold subscriber, try_catch.
      rewrite bool_decide_eq_true_2 by done. unfold ret.
      by rewrite record_nil. }
    destruct p as [from roomName data|from to payload].
    + assert (∀ members,
                fanout env roomName data None true members
                = (λ client, Sent client data)
                    <$> filter (λ client, sendThrows env client = false)
                          members) as Hfan.
      { intros members. unfold fanout. rewrite andb_false_r, app_nil_r.
        f_equal. apply list_filter_iff. naive_solver. }
      apply Hfrom.
      * apply Hsub. unfold subscriber, try_catch.
        rewrite bool_decide_eq_false_2 by done. cbn [onRelayed].
        rewrite broadcastToRoom_run.
        destruct (rooms (state w) !! roomName); by rewrite ?Hfan.
      * destruct (rooms (state w) !! roomName); [|done].
        apply published_sends.
    + apply Hfrom.
      * apply Hsub. unfold subscriber, try_catch.
        rewrite bool_decide_eq_false_2 by done. cbn [onRelayed].
        unfold bind, get, send.
        destruct (userIdToSocket (state w) !! to) as [recipientSocket|].
        -- destruct (sendThrows env recipientSocket).
           ++ unfold throw, ret. by rewrite record_nil.
           ++ done.
        -- unfold ret. by rewrite record_nil.
      * destruct (userIdToSocket (state w) !! to) as [recipientSocket|];
          [|done].
        by destruct (sendThrows env recipientSocket).
Qed.

End RouterMore.

(** ** The relay and the queue are used only when enabled *)

Section GatedFacts.
Import Server Observe.
Variable env : Env.

Lemma only_ret {A} Q (a : A) : only Q (ret a).
Proof. intros w. exists []. by rewrite app_nil_r. Qed.

Lemma only_throw {A} Q : only Q (@throw A).
Proof. intros w. exists []. by rewrite app_nil_r. Qed.

Lemma only_get Q : only Q get.
Proof. intros w. exists []. by rewrite app_nil_r. Qed.

Lemma only_modify Q f : only Q (modify f).
Proof. intros w. exists []. by rewrite app_nil_r. Qed.

Lemma only_rateLimit Q env' ws : only Q (rateLimit env' ws).
Proof.
  intros w. exists []. unfold rateLimit.
  destruct (RateLimit.rateLimitWebSocket _ _ _). by rewrite app_nil_r.
Qed.

Lemma only_emit (Q : Effect → Prop) e : Q e → only Q (emit e).
Proof. intros He w. exists [e]. split; [done|]. by constructor. Qed.

Lemma only_record (Q : Effect → Prop) {A} (m : M A) :
  (∀ w, ∃ r s es, m w = (r, record es (with_state s w)) ∧ Forall Q es) →
  only Q m.
Proof. intros Hm w. destruct (Hm w) as (r & s & es & -> & Hes). by exists es. Qed.

Lemma only_bind Q {A B} (m : M A) (k : A → M B) :
  only Q m → (∀ a, only Q (k a)) → only Q (bind m k).
Proof.
  intros Hm Hk w. unfold bind. destruct (Hm w) as (es & Htr & Hes).
  destruct (m w) as [[a|] w']; [|by exists es].
  destruct (Hk a w') as (es' & Htr' & Hes'). exists (es ++ es').
  cbn [snd] in Htr. rewrite Htr', Htr, app_assoc. split; [done|].
  by apply Forall_app.
Qed.

Lemma only_try_catch Q (body handler : M unit) :
  only Q body → only Q handler → only Q (try_catch body handler).
Proof.
  intros Hb Hh w. unfold try_catch. destruct (Hb w) as (es & Htr & Hes).
  destruct (body w) as [[a|] w']; [by exists es|].
  destruct (Hh w') as (es' & Htr' & Hes'). exists (es ++ es').
  cbn [snd] in Htr. rewrite Htr', Htr, app_assoc. split; [done|].
  by apply Forall_app.
Qed.

Lemma only_forEach Q {A} (l : list A) (body : A → M unit) :
  (∀ x, only Q (body x)) → only Q (forEach l body).
Proof.
  intros Hbody. induction l as [|x l IH]; cbn [forEach].
  - apply only_ret.
  - apply only_bind; [apply Hbody | by intros _].
Qed.

Lemma gated_sent ws m : gated env (Sent ws m).
Proof. done. Qed.

Lemma only_send ws m : only (gated env) (send env ws m).
Proof.
  unfold send. destruct (sendThrows env ws); [apply only_throw|].
  by apply only_emit.
Qed.

Lemma only_save d : only (gated env) (save env d).
Proof.
  unfold save. destruct (saveMessage env d); [|apply only_throw].
  apply only_bind; [by apply only_emit | intros _; apply only_ret].
Qed.

Lemma gated_fanout roomName data exclude fromRedis members :
  Forall (gated env) (fanout env roomName data exclude fromRedis members).
Proof.
  unfold fanout. apply Forall_app. split.
  - apply Forall_fmap, Forall_forall. by intros.
  - destruct (redisEnabled env) eqn:Hredis; cbn [andb]; [|constructor].
    destruct (negb fromRedis); constructor; [by split | constructor].
Qed.

Lemma only_broadcastToRoom roomName data exclude fromRedis :
  only (gated env) (broadcastToRoom env roomName data exclude fromRedis).
Proof.
  intros w. rewrite broadcastToRoom_run. eexists. split; [done|].
  destruct (rooms (state w) !! roomName); [apply gated_fanout | constructor].
Qed.

Lemma only_joinRoom ws roomName username :
  only (gated env) (joinRoom env ws roomName username).
Proof.
  intros w. rewrite joinRoom_run. eexists. split; [done|]. apply gated_fanout.
Qed.

Lemma only_leaveRoom ws roomName :
  only (gated env) (leaveRoom env ws roomName).
Proof.
  intros w. rewrite leaveRoom_run. eexists. split; [done|].
  unfold leaveEffects. destruct (rooms (state w) !! roomName); [|constructor].
  cbn zeta. case_bool_decide; [constructor | apply gated_fanout].
Qed.

Ltac only_step :=
  first
    [ apply only_ret | apply only_throw | apply only_get | apply only_modify
    | apply only_send | apply only_save | apply only_rateLimit
    | apply only_broadcastToRoom | apply only_joinRoom | apply only_leaveRoom
    | apply only_bind | apply only_try_catch | apply only_forEach
    | apply only_emit; cbn [gated origin]; by auto
    | progress intros
    | match goal with
      | |- only _ (match ?x with _ => _ end) => destruct x eqn:?
      end ].

Ltac only_auto := repeat only_step.

Lemma only_dispatch ws data : only (gated env) (dispatch env ws data).
Proof.
  destruct data; cbn [dispatch];
    unfold on_join, on_leave, on_message, on_dm, on_signal, on_message_seen,
      on_star_message, on_pin_message, on_typing, on_get_rooms, on_get_users,
      on_init_keys, on_get_bundle, on_encrypted_dm, on_decrypt_message, await,
      setTyping, reply_error, publishSignal, queue;
    only_auto.
Qed.

Lemma only_perform a : only (gated env) (perform env a).
Proof.
  destruct a; cbn [perform].
  - unfold message, reply_error. only_auto. apply only_dispatch.
  - unfold close. only_auto.
  - unfold onRedisMessage. destruct (negb (redisEnabled env)).
    + apply only_ret.
    + unfold subscriber, onRelayed. only_auto.
Qed.

(** X20. Whatever the process is asked to do (a frame of any kind from
    any socket, a close, a frame of the relay), from any maps: it publishes
    on the relay only when the relay is enabled, and every payload it
    publishes, broadcast or signal, carries its own instance id, which is
    what lets the listener drop it when the relay hands it back; it puts a
    message on the offline queue only when the queue is in use; and it
    never removes an effect already in the trace. *)
Theorem relay_and_queue_gated (w : World) (a : Action) :
  (∃ es, trace (exec (perform env a) w) = trace w ++ es
         ∧ effects (perform env a) w = es)
  ∧ (∀ p, Published p ∈ effects (perform env a) w →
          redisEnabled env = true ∧ origin p = instanceId env)
  ∧ (∀ m, Queued m ∈ effects (perform env a) w → useRabbitMQ env = true).
Proof.
  destruct (only_perform a w) as (es & Htrace & Hes).
  assert (effects (perform env a) w = es) as Heffects
    by (unfold effects, exec; by rewrite Htrace, drop_app_length).
  split; [by exists es|]. rewrite Heffects.
  rewrite Forall_forall in Hes.
  split; [intros p Hin | intros m Hin]; exact (Hes _ Hin).
Qed.

End GatedFacts.

(** ** The encrypted path and the first server *)

Section EncryptedFacts.
Import Server.

(** X21. An [encrypted_dm] of a socket with an identity, with a recipient
    id and a message that are not empty, when encryption and the store
    succeed and no send (nor the queue, when in use) throws: the plaintext
    goes to [encryptMessage] only; what is saved, and what is queued for a
    recipient who is not registered, has the content [[Encrypted]] and the
    ciphertext as metadata. A registered recipient is sent the ciphertext
    and the message is marked delivered. The branch checks neither the
    format of the recipient id nor the block list: it holds whatever
    [isBlocked] answers. No map changes. *)
Theorem encrypted_dm_delivery (env : Env) (w : World) (ws : conn)
    (userData : UserData) (recipientId message encrypted : string)
    (savedMsg : Message.t) :
  clientData (state w) !! ws = Some userData →
  recipientId ≠ "" → message ≠ "" →
  encryptMessage env (userId userData) recipientId message = Some encrypted →
  saveMessage env (encryptedDraft userData recipientId encrypted)
    = Some savedMsg →
  sendThrows env ws = false →
  (∀ recipientSocket,
      userIdToSocket (state w) !! recipientId = Some recipientSocket →
      sendThrows env recipientSocket = false) →
  (useRabbitMQ env = true → queueThrows env = false) →
  state (exec (on_encrypted_dm env ws (Some recipientId) (Some message)) w)
  = state w
  ∧ effects (on_encrypted_dm env ws (Some recipientId) (Some message)) w
    = match userIdToSocket (state w) !! recipientId with
      | Some recipientSocket =>
          [Saved (encryptedDraft userData recipientId encrypted) savedMsg;
           Sent recipientSocket
             (Out.encrypted_dm (userId userData) (username userData) savedMsg
                encrypted);
           MarkedDelivered (Message.id savedMsg);
           Sent ws (Out.encrypted_dm_sent recipientId "delivered"
                      (Message.id savedMsg))]
      | None =>
          [Saved (encryptedDraft userData recipientId encrypted) savedMsg]
          ++ (if useRabbitMQ env
              then [Queued (dmOffline userData recipientId "[Encrypted]"
                              savedMsg)]
              else [])
          ++ [Sent ws (Out.encrypted_dm_sent recipientId "offline"
                         (Message.id savedMsg))]
      end.
Proof.
  intros Hud Hto Hmsg Hencrypt Hsave Hws Hrs Hq.
  apply exec_record with (r := Returned tt).
  unfold on_encrypted_dm, bind at 1, get. rewrite Hud. cbv zeta.
  cbn [default]. change (id recipientId) with recipientId.
  change (id message) with message.
  rewrite (bool_decide_eq_false_2 (recipientId = "")) by done.
  rewrite (bool_decide_eq_false_2 (message = "")) by done. cbn [orb].
  unfold try_catch, bind at 1, await. rewrite Hencrypt. unfold ret at 1.
  unfold bind at 1, save. rewrite Hsave.
  unfold bind, emit, ret, send, queue. cbn [state limiter trace].
  destruct (userIdToSocket (state w) !! recipientId) as [rs|] eqn:Hlookup.
  - rewrite (Hrs rs eq_refl), Hws. unfold emit, record. cbn.
    by rewrite <- !app_assoc.
  - destruct (useRabbitMQ env) eqn:Hmq.
    + rewrite (Hq eq_refl), Hws. unfold emit, record. cbn.
      by rewrite <- !app_assoc.
    + rewrite Hws. unfold emit, record. cbn. by rewrite <- !app_assoc.
Qed.

Lemma encrypted_dm_delivery_witness :
  effects (on_encrypted_dm Scenario.blocking 1%nat (Some "bob") (Some "hi"))
    Scenario.three
  = [Saved (encryptedDraft (Build_UserData "alice" "alice") "bob" "hi")
       (Scenario.stored
          (encryptedDraft (Build_UserData "alice" "alice") "bob" "hi"));
     Sent 2%nat
       (Out.encrypted_dm "alice" "alice"
          (Scenario.stored
             (encryptedDraft (Build_UserData "alice" "alice") "bob" "hi"))
          "hi");
     MarkedDelivered 1;
     Sent 1%nat (Out.encrypted_dm_sent "bob" "delivered" 1)].
Proof.
  destruct (encrypted_dm_delivery Scenario.blocking Scenario.three 1%nat
              (Build_UserData "alice" "alice") "bob" "hi" "hi"
              (Scenario.stored
                 (encryptedDraft (Build_UserData "alice" "alice") "bob" "hi")))
    as [_ Heffects].
  - vm_compute. reflexivity.
  - discriminate.
  - discriminate.
  - reflexivity.
  - reflexivity.
  - reflexivity.
  - intros rs _. reflexivity.
  - discriminate.
  - etrans; [exact Heffects|]. vm_compute. reflexivity.
Defined.




End EncryptedFacts.

(** ** The authorization header *)

Section AuthFacts.
Import Auth.

Lemma splitOn_piece sep (a l : list ascii) :
  (sep ∉ a) → splitOn sep (a ++ sep :: l) = a :: splitOn sep l.
Proof.
  induction a as [|c a IH]; intros Ha; cbn [app splitOn].
  - by rewrite bool_decide_eq_true_2.
  - apply not_elem_of_cons in Ha as [Hc Ha].
    rewrite bool_decide_eq_false_2 by done. by rewrite IH.
Qed.

Lemma splitOn_whole sep (a : list ascii) : (sep ∉ a) → splitOn sep a = [a].
Proof.
  induction a as [|c a IH]; intros Ha; cbn [splitOn]; [done|].
  apply not_elem_of_cons in Ha as [Hc Ha].
  rewrite bool_decide_eq_false_2 by done. by rewrite IH.
Qed.

Lemma splitOn_nonempty sep (l : list ascii) : splitOn sep l ≠ [].
Proof.
  destruct l as [|c l]; cbn [splitOn]; [done|].
  case_bool_decide; [done|]. by destruct (splitOn sep l).
Qed.

Lemma splitOn_one sep (l b : list ascii) :
  splitOn sep l = [b] → l = b ∧ (sep ∉ b).
Proof.
  revert b. induction l as [|c l IH]; intros b; cbn [splitOn].
  - intros [= <-]. split; [done | apply not_elem_of_nil].
  - case_bool_decide as Hc.
    + intros [= _ Hrest]. by destruct (splitOn_nonempty sep l).
    + destruct (splitOn sep l) as [|piece pieces] eqn:Hl.
      * by destruct (splitOn_nonempty sep l).
      * intros [= <- ->]. destruct (IH piece eq_refl) as [-> Hpiece].
        split; [done|]. by apply not_elem_of_cons.
Qed.

Lemma splitOn_two sep (l a b : list ascii) :
  splitOn sep l = [a; b] ↔ l = a ++ sep :: b ∧ (sep ∉ a) ∧ (sep ∉ b).
Proof.
  split.
  - revert a. induction l as [|c l IH]; intros a; cbn [splitOn]; [done|].
    case_bool_decide as Hc.
    + subst c. intros [= <- Hrest].
      apply splitOn_one in Hrest as [-> Hb].
      split; [done|]. split; [apply not_elem_of_nil | done].
    + destruct (splitOn sep l) as [|piece pieces] eqn:Hl; [done|].
      intros [= <- ->]. destruct (IH piece eq_refl) as (-> & Ha & Hb).
      split; [done|]. split; [|done]. by apply not_elem_of_cons.
  - intros (-> & Ha & Hb). rewrite splitOn_piece by done.
    by rewrite splitOn_whole.
Qed.

Lemma list_ascii_of_string_app (s t : string) :
  list_ascii_of_string (s +:+ t)
  = list_ascii_of_string s ++ list_ascii_of_string t.
Proof.
  induction s as [|c s IH]; [done|].
  change (String c s +:+ t) with (String c (s +:+ t)).
  cbn [list_ascii_of_string app]. by rewrite IH.
Qed.

Lemma string_of_list_ascii_inj (l l' : list ascii) :
  string_of_list_ascii l = string_of_list_ascii l' → l = l'.
Proof.
  intros Heq. apply (f_equal list_ascii_of_string) in Heq.
  by rewrite !list_ascii_of_string_of_list_ascii in Heq.
Qed.

(** X23. [extractToken] accepts exactly the headers made of the word
    [Bearer], one space, and a token without a space: the token it returns
    is the rest of the header after [Bearer ]. A header with another
    scheme, without a space, or with a second space anywhere (two spaces
    after [Bearer], a space at the end) is refused, as is an absent
    one. [authenticateRequest] hands to [verifyToken] only a token that
    is not empty. *)
Theorem extractToken_bearer (authHeader token : string) :
  (extractToken (Some authHeader) = Some token
   ↔ authHeader = "Bearer " +:+ token
     ∧ (" "%char ∉ list_ascii_of_string token))
  ∧ extractToken None = None
  ∧ (∀ (User : Type) (verifyToken : string → option User) (user : User),
       authenticateRequest verifyToken (Some authHeader) = Some user →
       ∃ token', authHeader = "Bearer " +:+ token' ∧ token' ≠ ""
                 ∧ verifyToken token' = Some user).
Proof.
  assert (∀ token',
            extractToken (Some authHeader) = Some token'
            ↔ authHeader = "Bearer " +:+ token'
              ∧ (" "%char ∉ list_ascii_of_string token')) as Hextract.
  { intros token'. split.
    - unfold extractToken, split. case_bool_decide as Hempty; [done|].
      destruct (splitOn " " (list_ascii_of_string authHeader))
        as [|a [|b [|? ?]]] eqn:Hsplit; cbn [fmap list_fmap]; try done.
      case_bool_decide as Hscheme; [done|]. intros [= <-].
      apply splitOn_two in Hsplit as (Hl & Ha & Hb).
      rewrite list_ascii_of_string_of_list_ascii. split; [|done].
      rewrite <- (string_of_list_ascii_of_string authHeader), Hl.
      apply (f_equal list_ascii_of_string) in Hscheme.
      rewrite list_ascii_of_string_of_list_ascii in Hscheme. subst a.
      reflexivity.
    - intros [-> Hspace]. unfold extractToken, split.
      rewrite bool_decide_eq_false_2 by done.
      assert (splitOn " " (list_ascii_of_string ("Bearer " +:+ token'))
              = [list_ascii_of_string "Bearer"; list_ascii_of_string token'])
        as ->.
      { apply splitOn_two. split; [done|]. split; [|done].
        cbn. rewrite !elem_of_cons. intros Hin.
        repeat (destruct Hin as [Hin|Hin]; [discriminate|]).
        by apply not_elem_of_nil in Hin. }
      cbn [fmap list_fmap]. rewrite !string_of_list_ascii_of_string.
      by rewrite bool_decide_eq_false_2 by (intros Hne; by apply Hne). }
  split; [apply Hextract | split; [done|]].
  intros User verifyToken user. unfold authenticateRequest.
  destruct (extractToken (Some authHeader)) as [token'|] eqn:Htoken; [|done].
  case_bool_decide as Hempty; [done|]. intros Hverify.
  exists token'. by destruct (proj1 (Hextract token') eq_refl) as [-> _].
Qed.

End AuthFacts.
